(** * K-in-a-Row with forbidden squares: the agent's search core and the win tester

    A shallow embedding of [src/KInARow.py] (class [OurAgent]) and of
    [src/winTesterForK.py], followed by the properties of the design document
    that are settled against it.

    Python values are modelled as the code has them: a cell of the board is a
    one-character string (["X"], ["O"], [" "] for an empty square, ["-"] for
    a forbidden one), a board is a list of rows, an index is a Python [int]
    (so a [Z], negative indices counting from the end), and a raised exception
    is a [Raise] result. *)

From stdpp Require Import gmap strings list sorting.
From Stdlib Require Import ZArith Lia Permutation.

Local Open Scope string_scope.
Local Open Scope list_scope.
Local Open Scope Z_scope.

Infix "=s?" := String.eqb (at level 70).

(** ** Exceptions and results *)

Inductive exn : Type :=
| IndexError                      (* list index out of range *)
| AttributeError                  (* attribute access on [None] *)
| TypeError                       (* [None] compared with a number *)
| InvalidMove (r c : Z)           (* ValueError("Invalid Move: Position (r, c) is occupied.") *)
| NoValidMoves                    (* ValueError("No valid moves available!") *)
| Unbounded.                      (* the bound of a modelled loop or recursion was reached *)

Inductive res (A : Type) : Type :=
| Ok (a : A)
| Raise (e : exn).
Arguments Ok {A} a.
Arguments Raise {A} e.

(** Sequencing: an exception raised by the first computation propagates. *)
Definition bind {A B} (m : res A) (f : A -> res B) : res B :=
  match m with
  | Ok a => f a
  | Raise e => Raise e
  end.

Notation "x <- m ;; f" := (bind m (fun x => f))
  (at level 100, m at next level, f at level 200, right associativity).

Definition is_ok {A} (r : res A) : Prop := exists a, r = Ok a.

(** ** Python lists *)

(** [l[i]]: a negative index counts from the end; anything outside
    [-len(l) <= i < len(l)] raises [IndexError]. *)
Definition py_norm {A} (l : list A) (i : Z) : Z :=
  if i <? 0 then i + Z.of_nat (length l) else i.

Definition py_index {A} (l : list A) (i : Z) : res A :=
  let j := py_norm l i in
  if (0 <=? j) && (j <? Z.of_nat (length l)) then
    match l !! Z.to_nat j with
    | Some x => Ok x
    | None => Raise IndexError
    end
  else Raise IndexError.

(** [l[i] = v] on a copy of [l]. *)
Definition py_setitem {A} (l : list A) (i : Z) (v : A) : res (list A) :=
  let j := py_norm l i in
  if (0 <=? j) && (j <? Z.of_nat (length l)) then Ok (<[Z.to_nat j := v]> l)
  else Raise IndexError.

(** [range(n)] and [range(a, b)]. *)
Definition py_range (n : Z) : list Z := map Z.of_nat (seq 0 (Z.to_nat n)).
Definition py_range2 (a b : Z) : list Z := map (fun i => a + i) (py_range (b - a)).

(** [x in l] for strings. *)
Definition str_in (x : string) (l : list string) : bool := existsb (String.eqb x) l.

(** [l.count(x)]. *)
Definition py_count (x : string) (l : list string) : Z :=
  Z.of_nat (length (filter (fun y => y = x) l)).

(** A [for] loop whose body may [return]: the first [Some] ends the loop. *)
Fixpoint for_return {A B} (l : list A) (body : A -> res (option B)) : res (option B) :=
  match l with
  | [] => Ok None
  | x :: rest =>
      r <- body x;;
      match r with
      | Some b => Ok (Some b)
      | None => for_return rest body
      end
  end.

(** A [for] loop that updates local variables [s] and never leaves early. *)
Fixpoint for_each {A S} (l : list A) (s : S) (body : A -> S -> res S) : res S :=
  match l with
  | [] => Ok s
  | x :: rest => s' <- body x s;; for_each rest s' body
  end.

(** ** States and moves

    Modelled from the spec: the classes [State] and [Game_Type] of
    [src/game_types.py] are not part of the sources at hand. A state owns a
    board snapshot and [whose_move]; a game type fixes the dimensions
    [n] (rows), [m] (columns) and the run length [k]. Only the attributes
    the agent and the win tester read are kept. *)

Record State : Type := mkState {
  board : list (list string);
  whose_move : string
}.

Record Game_Type : Type := mkGameType {
  n : Z;
  m : Z;
  k : Z
}.

Definition Move : Type := (Z * Z)%type.

(** [board[r][c]] *)
Definition board_get (b : list (list string)) (r c : Z) : res string :=
  row <- py_index b r;; py_index row c.

(** [len(board[0])] *)
Definition len0 (b : list (list string)) : res Z :=
  row <- py_index b 0;; Ok (Z.of_nat (length row)).

(** ** [OurAgent.apply_move] *)

Definition apply_move (state : State) (move : Move) : res State :=
  let '(r, c) := move in
  (* new_state = copy.deepcopy(state) *)
  row <- py_index (board state) r;;
  cell <- py_index row c;;
  if negb (cell =s? " ") then Raise (InvalidMove r c)
  else
    row' <- py_setitem row c (whose_move state);;
    board' <- py_setitem (board state) r row';;
    Ok {| board := board';
          whose_move := if whose_move state =s? "X" then "O" else "X" |}.

(** ** [OurAgent.get_available_moves] *)

Definition get_available_moves (state : State) : res (list Move) :=
  for_each (py_range (Z.of_nat (length (board state)))) [] (fun r moves =>
    cols <- len0 (board state);;
    for_each (py_range cols) moves (fun c moves =>
      cell <- board_get (board state) r c;;
      Ok (if cell =s? " " then moves ++ [(r, c)] else moves))).

(** ** [winTesterForK.py] *)

(** The [while] loop of [_count_in_direction]. Every step moves the current
    position by the same non-zero offset and stays on the board, so the loop
    body runs at most [max(rows, cols)] times for the eight offsets the
    tester uses; [fuel] bounds the number of iterations of the model. *)
Fixpoint count_loop (fuel : nat) (b : list (list string))
    (current_row current_col delta_row delta_col : Z) (player : string)
    (rows cols count : Z) : res Z :=
  match fuel with
  | O => Raise Unbounded
  | S fuel' =>
      if (0 <=? current_row) && (current_row <? rows)
         && (0 <=? current_col) && (current_col <? cols) then
        cell <- board_get b current_row current_col;;
        if cell =s? player then
          count_loop fuel' b (current_row + delta_row) (current_col + delta_col)
                     delta_row delta_col player rows cols (count + 1)
        else Ok count
      else Ok count
  end.

Definition _count_in_direction (b : list (list string))
    (start_row start_col delta_row delta_col : Z) (player : string)
    (rows cols : Z) : res Z :=
  count_loop (S (Z.to_nat rows + Z.to_nat cols)) b
             (start_row + delta_row) (start_col + delta_col)
             delta_row delta_col player rows cols 0.

Definition _is_board_full (b : list (list string)) : bool :=
  forallb (fun row => forallb (fun cell => negb ((cell =s? " ") || (cell =s? "-"))) row) b.

(** [all(board[r][c] == player for (r, c) in cells)], left to right, stopping
    at the first cell that differs. *)
Fixpoint all_cells (b : list (list string)) (player : string) (cells : list (Z * Z)) : res bool :=
  match cells with
  | [] => Ok true
  | (r, c) :: rest =>
      cell <- board_get b r c;;
      if cell =s? player then all_cells b player rest else Ok false
  end.

(** The value a win test returns: ['X'], ['O'], ['draw'] or [None]. *)
Definition verdict : Type := option string.

Definition _check_full_board (b : list (list string)) (k : Z) : res verdict :=
  let rows := Z.of_nat (length b) in
  cols <- (if 0 <? rows then len0 b else Ok 0);;
  won <- for_return ["X"; "O"] (fun player =>
    for_return (py_range rows) (fun row =>
      for_return (py_range cols) (fun col =>
        cell <- board_get b row col;;
        if cell =s? player then
          (* horizontal *)
          h <- (if col + k <=? cols
               then all_cells b player (map (fun i => (row, col + i)) (py_range k))
               else Ok false);;
          if h then Ok (Some player) else
          (* vertical *)
          v <- (if row + k <=? rows
               then all_cells b player (map (fun i => (row + i, col)) (py_range k))
               else Ok false);;
          if v then Ok (Some player) else
          (* diagonal *)
          d <- (if (row + k <=? rows) && (col + k <=? cols)
               then all_cells b player (map (fun i => (row + i, col + i)) (py_range k))
               else Ok false);;
          if d then Ok (Some player) else
          (* anti-diagonal *)
          a <- (if (row + k <=? rows) && (0 <=? col - k + 1)
               then all_cells b player (map (fun i => (row + i, col - i)) (py_range k))
               else Ok false);;
          if a then Ok (Some player) else Ok None
        else Ok None)));;
  match won with
  | Some player => Ok (Some player)
  | None => if _is_board_full b then Ok (Some "draw") else Ok None
  end.

Definition directions : list (Z * Z) :=
  [ (0, 1)      (* horizontal *)
  ; (1, 0)      (* vertical *)
  ; (1, 1)      (* diagonal, top-left to bottom-right *)
  ; (1, -1) ].  (* anti-diagonal, top-right to bottom-left *)

(** The total of one axis through [(row, col)]: the piece itself, the run in
    the positive direction and the run in the negative direction. *)
Definition axis_count (b : list (list string)) (row col : Z) (player : string)
    (rows cols : Z) (d : Z * Z) : res Z :=
  let '(delta_row, delta_col) := d in
  f <- _count_in_direction b row col delta_row delta_col player rows cols;;
  g <- _count_in_direction b row col (- delta_row) (- delta_col) player rows cols;;
  Ok (1 + f + g).

Definition check_win_condition (state : State) (move : option Move) (k : Z) : res verdict :=
  let b := board state in
  let rows := Z.of_nat (length b) in
  cols <- (if 0 <? rows then len0 b else Ok 0);;
  match move with
  | None => _check_full_board b k
  | Some (row, col) =>
      player <- board_get b row col;;
      if negb (str_in player ["X"; "O"]) then Ok None
      else
        won <- for_return directions (fun d =>
          count <- axis_count b row col player rows cols d;;
          if k <=? count then Ok (Some player) else Ok None);;
        match won with
        | Some p => Ok (Some p)
        | None => if _is_board_full b then Ok (Some "draw") else Ok None
        end
  end.

(** Backward compatibility alias. *)
Definition winTesterForK := check_win_condition.

(** ** Numbers of the search: Python [int]s and the floats [-math.inf], [math.inf] *)

Inductive num : Type :=
| NegInf
| Int (z : Z)
| PosInf.

(** [a < b] *)
Definition num_ltb (a b : num) : bool :=
  match a, b with
  | NegInf, NegInf => false
  | NegInf, _ => true
  | Int _, NegInf => false
  | Int x, Int y => x <? y
  | Int _, PosInf => true
  | PosInf, _ => false
  end.

(** [a <= b] *)
Definition num_leb (a b : num) : bool := negb (num_ltb b a).

(** [max(a, b)] keeps [a] unless [b] is strictly larger; [min(a, b)] keeps
    [a] unless [b] is strictly smaller. *)
Definition num_max (a b : num) : num := if num_ltb a b then b else a.
Definition num_min (a b : num) : num := if num_ltb b a then b else a.

(** ** The random source ([random.getrandbits], [random.choice]) *)

Record Rng : Type := mkRng {
  draws : nat -> Z;     (* the raw outputs of the generator *)
  cursor : nat          (* how many have been consumed *)
}.

Definition getrandbits (bits : Z) (g : Rng) : Z * Rng :=
  (draws g (cursor g) mod 2 ^ bits, {| draws := draws g; cursor := S (cursor g) |}).

Definition random_choice {A} (l : list A) (g : Rng) : res (A * Rng) :=
  x <- py_index l (draws g (cursor g) mod Z.of_nat (length l));;
  Ok (x, {| draws := draws g; cursor := S (cursor g) |}).

(** ** The agent object

    The attributes of [OurAgent] that the search reads or writes. The persona
    (names, utterance lists, the text generator) and the clock are left
    out. *)

Record OurAgent : Type := mkAgent {
  playing : option string;
  current_game_type : option Game_Type;
  turn_count : Z;
  game_state_history : list State;
  alpha_beta_cutoffs_this_turn : Z;
  num_static_evals_this_turn : Z;
  zobrist_keys : option (gmap (Z * Z * string) Z);
  transposition_table : gmap Z num;
  zobrist_write_count : Z;
  zobrist_read_attempt_count : Z;
  zobrist_hit_count : Z
}.

(** [OurAgent.__init__] *)
Definition new_agent : OurAgent :=
  {| playing := None; current_game_type := None; turn_count := 0;
     game_state_history := []; alpha_beta_cutoffs_this_turn := 0;
     num_static_evals_this_turn := 0; zobrist_keys := None;
     transposition_table := ∅; zobrist_write_count := 0;
     zobrist_read_attempt_count := 0; zobrist_hit_count := 0 |}.

Definition set_counters (self : OurAgent) (cutoffs evals : Z) : OurAgent :=
  {| playing := playing self; current_game_type := current_game_type self;
     turn_count := turn_count self; game_state_history := game_state_history self;
     alpha_beta_cutoffs_this_turn := cutoffs;
     num_static_evals_this_turn := evals;
     zobrist_keys := zobrist_keys self;
     transposition_table := transposition_table self;
     zobrist_write_count := zobrist_write_count self;
     zobrist_read_attempt_count := zobrist_read_attempt_count self;
     zobrist_hit_count := zobrist_hit_count self |}.

Definition set_zobrist (self : OurAgent) (keys : option (gmap (Z * Z * string) Z))
    (table : gmap Z num) (writes reads hits : Z) : OurAgent :=
  {| playing := playing self; current_game_type := current_game_type self;
     turn_count := turn_count self; game_state_history := game_state_history self;
     alpha_beta_cutoffs_this_turn := alpha_beta_cutoffs_this_turn self;
     num_static_evals_this_turn := num_static_evals_this_turn self;
     zobrist_keys := keys;
     transposition_table := table;
     zobrist_write_count := writes;
     zobrist_read_attempt_count := reads;
     zobrist_hit_count := hits |}.

Definition set_game (self : OurAgent) (side : option string) (gt : option Game_Type)
    (turns : Z) (history : list State) : OurAgent :=
  {| playing := side; current_game_type := gt;
     turn_count := turns; game_state_history := history;
     alpha_beta_cutoffs_this_turn := alpha_beta_cutoffs_this_turn self;
     num_static_evals_this_turn := num_static_evals_this_turn self;
     zobrist_keys := zobrist_keys self;
     transposition_table := transposition_table self;
     zobrist_write_count := zobrist_write_count self;
     zobrist_read_attempt_count := zobrist_read_attempt_count self;
     zobrist_hit_count := zobrist_hit_count self |}.

(** [self.current_game_type.<attr>] *)
Definition game_type_of (self : OurAgent) : res Game_Type :=
  match current_game_type self with
  | Some gt => Ok gt
  | None => Raise AttributeError
  end.

(** ** Zobrist hashing *)

(** [self.zobrist_keys[(r, c, token)] = random.getrandbits(64)] *)
Definition draw_key (r c : Z) (acc : gmap (Z * Z * string) Z * Rng) (token : string)
    : gmap (Z * Z * string) Z * Rng :=
  let '(keys, g) := acc in
  let '(bits, g') := getrandbits 64 g in
  (<[(r, c, token) := bits]> keys, g').

(** [OurAgent.init_zobrist] *)
Definition init_zobrist (self : OurAgent) (g : Rng) : res (OurAgent * Rng) :=
  gt <- game_type_of self;;
  let '(keys, g') :=
    fold_left (fun acc r =>
      fold_left (fun acc c => fold_left (draw_key r c) ["X"; "O"] acc)
        (py_range (m gt)) acc)
      (py_range (n gt)) (∅, g) in
  Ok (set_zobrist self (Some keys) ∅ 0 0 0, g').

(** [OurAgent.prepare] *)
Definition prepare (self : OurAgent) (game_type : Game_Type) (what_side_to_play : string)
    (g : Rng) : res (OurAgent * Rng) :=
  let self := set_game self (Some what_side_to_play) (Some game_type)
                       (turn_count self) (game_state_history self) in
  init_zobrist self g.

(** [OurAgent.compute_zobrist] *)
Definition compute_zobrist (self : OurAgent) (state : State) : res Z :=
  let b := board state in
  for_each (py_range (Z.of_nat (length b))) 0 (fun r h =>
    cols <- len0 b;;
    for_each (py_range cols) h (fun c h =>
      token <- board_get b r c;;
      if str_in token ["X"; "O"] then
        match zobrist_keys self with
        | Some keys => Ok (Z.lxor h (default 0 (keys !! (r, c, token))))
        | None => Raise AttributeError
        end
      else Ok h)).

(** ** Static evaluation *)

(** [[board[r][c] for (r, c) in cells]] *)
Fixpoint cells_of (b : list (list string)) (cells : list (Z * Z)) : res (list string) :=
  match cells with
  | [] => Ok []
  | (r, c) :: rest =>
      x <- board_get b r c;;
      xs <- cells_of b rest;;
      Ok (x :: xs)
  end.

(** The four ways a sequence of [k] cells leaves its first cell. *)
Definition horizontal (k r c : Z) : list (Z * Z) := map (fun i => (r, c + i)) (py_range k).
Definition vertical (k r c : Z) : list (Z * Z) := map (fun i => (r + i, c)) (py_range k).
Definition diagonal (k r c : Z) : list (Z * Z) := map (fun i => (r + i, c + i)) (py_range k).
Definition anti_diagonal (k r c : Z) : list (Z * Z) := map (fun i => (r + i, c - i)) (py_range k).

(** [OurAgent.get_all_possible_sequences] *)
Definition get_all_possible_sequences (state : State) (k : Z) : res (list (list string)) :=
  let b := board state in
  let rows := Z.of_nat (length b) in
  cols <- len0 b;;
  (* Horizontal sequences. *)
  sequences <- for_each (py_range rows) [] (fun r sequences =>
    for_each (py_range (cols - k + 1)) sequences (fun c sequences =>
      s <- cells_of b (horizontal k r c);; Ok (sequences ++ [s])));;
  (* Vertical sequences. *)
  sequences <- for_each (py_range cols) sequences (fun c sequences =>
    for_each (py_range (rows - k + 1)) sequences (fun r sequences =>
      s <- cells_of b (vertical k r c);; Ok (sequences ++ [s])));;
  (* Diagonal (main diagonal). *)
  sequences <- for_each (py_range (rows - k + 1)) sequences (fun r sequences =>
    for_each (py_range (cols - k + 1)) sequences (fun c sequences =>
      s <- cells_of b (diagonal k r c);; Ok (sequences ++ [s])));;
  (* Anti-diagonal sequences. *)
  for_each (py_range (rows - k + 1)) sequences (fun r sequences =>
    for_each (py_range2 (k - 1) cols) sequences (fun c sequences =>
      s <- cells_of b (anti_diagonal k r c);; Ok (sequences ++ [s]))).

(** What one sequence adds to [count] in [count_sequences]. *)
Definition sequence_score (k : Z) (player : string) (seq : list string) : Z :=
  if py_count player seq =? k then 1000
  else if (py_count player seq =? k - 1) && (py_count " " seq =? 1) then 50
  else if (py_count player seq =? k - 2) && (py_count " " seq =? 2) then 10
  else 0.

(** [OurAgent.count_sequences] *)
Definition count_sequences (self : OurAgent) (state : State) (player : string) : res Z :=
  gt <- game_type_of self;;
  sequences <- get_all_possible_sequences state (k gt);;
  Ok (fold_left (fun count seq => count + sequence_score (k gt) player seq) sequences 0).

(** [OurAgent.static_eval] *)
Definition static_eval (self : OurAgent) (state : State) : res Z :=
  x_score <- count_sequences self state "X";;
  o_score <- count_sequences self state "O";;
  Ok (x_score - o_score).

(** ** Terminal test *)

(** [OurAgent.is_terminal]. The states of this model have no attribute [k],
    so without a game type the answer is [False]. The verdict of the win
    tester is compared with the string ["No win"]. *)
Definition is_terminal (self : OurAgent) (state : State) : res bool :=
  match current_game_type self with
  | None => Ok false
  | Some gt =>
      let b := board state in
      let H := Z.of_nat (length b) in
      W <- (if 0 <? H then len0 b else Ok 0);;
      won <- for_return (py_range H) (fun r =>
        for_return (py_range W) (fun c =>
          cell <- board_get b r c;;
          if str_in cell ["X"; "O"] then
            v <- winTesterForK state (Some (r, c)) (k gt);;
            if negb (bool_decide (v = Some "No win")) then Ok (Some true) else Ok None
          else Ok None));;
      match won with
      | Some t => Ok t
      | None =>
          (* draw if no spaces left *)
          Ok (forallb (fun row => negb (str_in " " row)) b)
      end
  end.

(** ** Minimax search *)

(** A child of a node: the move, the state it leads to and the static score
    of that state, which is the sort key. *)
Definition Child : Type := (Move * State * Z)%type.

Definition child_key (ch : Child) : Z := snd ch.

(** [list.sort(key=...)] is stable; with [reverse=True] equal keys also keep
    their original order. [before x y] tells whether an element [x] that
    comes first may stay in front of [y]. *)
Fixpoint insert_child (before : Z -> Z -> bool) (x : Child) (l : list Child) : list Child :=
  match l with
  | [] => [x]
  | y :: l' =>
      if before (child_key x) (child_key y) then x :: y :: l'
      else y :: insert_child before x l'
  end.

Definition sort_children (reverse : bool) (l : list Child) : list Child :=
  foldr (insert_child (if reverse then Z.geb else Z.leb)) [] l.

(** The children of [state] in scan order: every available move is applied
    and the result scored. *)
Definition expand (self : OurAgent) (state : State) (moves : list Move) : res (list Child) :=
  for_each moves [] (fun move children =>
    child_state <- apply_move state move;;
    child_eval <- static_eval self child_state;;
    Ok (children ++ [(move, child_state, child_eval)])).

Definition add_cutoff (self : OurAgent) : OurAgent :=
  set_counters self (alpha_beta_cutoffs_this_turn self + 1) (num_static_evals_this_turn self).

Definition add_static_eval (self : OurAgent) : OurAgent :=
  set_counters self (alpha_beta_cutoffs_this_turn self) (num_static_evals_this_turn self + 1).

(** The recursive call, as the two loops of a node see it. *)
Definition Search : Type :=
  OurAgent -> State -> option num -> option num -> res (num * OurAgent).

(** When pruning is on, both bounds are numbers ([None] has been replaced);
    comparing [None] with a number is a [TypeError], which the search never
    reaches. *)
Definition bounds (alpha beta : option num) : res (num * num) :=
  match alpha, beta with
  | Some a, Some b => Ok (a, b)
  | _, _ => Raise TypeError
  end.

(** The loop of a maximizing node (current player ["X"]). *)
Fixpoint max_loop (rec : Search) (pruning : bool) (children : list Child)
    (alpha beta : option num) (best_value : num) (self : OurAgent) : res (num * OurAgent) :=
  match children with
  | [] => Ok (best_value, self)
  | (_, child_state, _) :: rest =>
      p <- rec self child_state alpha beta;;
      let '(value, self) := p in
      let best_value := num_max best_value value in
      if pruning then
        ab <- bounds alpha beta;;
        let '(a, b) := ab in
        let a := num_max a best_value in
        if num_leb b a then Ok (best_value, add_cutoff self)
        else max_loop rec pruning rest (Some a) beta best_value self
      else max_loop rec pruning rest alpha beta best_value self
  end.

(** The loop of a minimizing node. *)
Fixpoint min_loop (rec : Search) (pruning : bool) (children : list Child)
    (alpha beta : option num) (best_value : num) (self : OurAgent) : res (num * OurAgent) :=
  match children with
  | [] => Ok (best_value, self)
  | (_, child_state, _) :: rest =>
      p <- rec self child_state alpha beta;;
      let '(value, self) := p in
      let best_value := num_min best_value value in
      if pruning then
        ab <- bounds alpha beta;;
        let '(a, b) := ab in
        let b := num_min b best_value in
        if num_leb b a then Ok (best_value, add_cutoff self)
        else min_loop rec pruning rest alpha (Some b) best_value self
      else min_loop rec pruning rest alpha beta best_value self
  end.

(** [OurAgent.minimax]. The recursion goes one level deeper only below a
    state that is not terminal, hence one with an empty square that the next
    move fills; [fuel] bounds the depth of the model's recursion. *)
Fixpoint minimax (fuel : nat) (self : OurAgent) (state : State) (depth_remaining : Z)
    (pruning : bool) (alpha beta : option num) (use_zobrist order_moves : bool)
    : res (num * OurAgent) :=
  match fuel with
  | O => Raise Unbounded
  | S fuel' =>
      leaf <- (if depth_remaining =? 0 then Ok true else is_terminal self state);;
      if leaf then
        let self := add_static_eval self in
        v <- static_eval self state;;
        Ok (Int v, self)
      else
        h <- (if use_zobrist then compute_zobrist self state else Ok 0);;
        let self :=
          if use_zobrist then
            set_zobrist self (zobrist_keys self) (transposition_table self)
                        (zobrist_write_count self) (zobrist_read_attempt_count self + 1)
                        (zobrist_hit_count self)
          else self in
        match (if use_zobrist then transposition_table self !! h else None) with
        | Some cached =>
            Ok (cached,
                set_zobrist self (zobrist_keys self) (transposition_table self)
                            (zobrist_write_count self) (zobrist_read_attempt_count self)
                            (zobrist_hit_count self + 1))
        | None =>
            let alpha := if pruning then Some (default NegInf alpha) else alpha in
            let beta := if pruning then Some (default PosInf beta) else beta in
            let current_player := whose_move state in
            moves <- get_available_moves state;;
            child_list <- expand self state moves;;
            let child_list :=
              if order_moves then sort_children (current_player =s? "X") child_list
              else child_list in
            let rec := fun self child_state alpha beta =>
              minimax fuel' self child_state (depth_remaining - 1) pruning alpha beta
                      use_zobrist order_moves in
            p <- (if current_player =s? "X"
                  then max_loop rec pruning child_list alpha beta NegInf self
                  else min_loop rec pruning child_list alpha beta PosInf self);;
            let '(best_value, self) := p in
            let self :=
              if use_zobrist then
                set_zobrist self (zobrist_keys self) (<[h := best_value]> (transposition_table self))
                            (zobrist_write_count self + 1) (zobrist_read_attempt_count self)
                            (zobrist_hit_count self)
              else self in
            Ok (best_value, self)
        end
  end.

(** ** The move choice *)

(** What [make_move] hands over: the chosen move and the state it leads to
    (returned), and the value of the move (passed on to the utterance). *)
Record Decision : Type := mkDecision {
  best_move : Move;
  new_state : State;
  best_value : num
}.

(** [self.playing == side] *)
Definition plays (self : OurAgent) (side : string) : bool :=
  match playing self with
  | Some p => p =s? side
  | None => false
  end.

(** The loop of [make_move] over the ordered children. *)
Fixpoint root_loop (rec : Search) (use_alpha_beta : bool) (children : list Child)
    (alpha beta : num) (best_move : option Move) (best_value : num) (self : OurAgent)
    : res (option Move * num * OurAgent) :=
  match children with
  | [] => Ok (best_move, best_value, self)
  | (move, candidate_state, _) :: rest =>
      p <- rec self candidate_state (Some alpha) (Some beta);;
      let '(value, self) := p in
      let '(best_value, best_move, alpha, beta) :=
        if plays self "X" && num_ltb best_value value then
          (value, Some move, num_max alpha value, beta)
        else if plays self "O" && num_ltb value best_value then
          (value, Some move, alpha, num_min beta value)
        else (best_value, best_move, alpha, beta) in
      if use_alpha_beta && num_leb beta alpha then
        Ok (best_move, best_value, add_cutoff self)
      else root_loop rec use_alpha_beta rest alpha beta best_move best_value self
  end.

(** The number of empty squares of a board. *)
Definition count_empty (b : list (list string)) : nat :=
  length (filter (fun cell => cell = " ") (concat b)).

(** The search of [OurAgent.make_move]: everything up to the end of the loop
    over the ordered children. It hands over the available moves, the best
    move if one was found, its value and the agent with its counters. The
    recursion of [minimax] is bounded by the number of empty squares. *)
Definition root_search (self : OurAgent) (current_state : State)
    (use_alpha_beta use_zobrist_hashing : bool) (max_ply : Z)
    : res (list Move * option Move * num * OurAgent) :=
  let self := set_game self (playing self) (current_game_type self)
                       (turn_count self + 1) (game_state_history self) in
  (* Reset per-turn instrumentation. *)
  let self := set_counters self 0 0 in
  let alpha := NegInf in
  let beta := PosInf in
  let best_value := if plays self "X" then NegInf else PosInf in
  available_moves <- get_available_moves current_state;;
  (* Order moves by evaluating child states (move ordering). *)
  ordered_children <- expand self current_state available_moves;;
  let ordered_children := sort_children (plays self "X") ordered_children in
  let rec := fun self candidate_state alpha beta =>
    minimax (S (count_empty (board current_state))) self candidate_state (max_ply - 1)
            use_alpha_beta alpha beta use_zobrist_hashing true in
  found <- root_loop rec use_alpha_beta ordered_children alpha beta None best_value self;;
  let '(best_move, best_value, self) := found in
  Ok (available_moves, best_move, best_value, self).

(** [OurAgent.make_move], without the remark and the clock. *)
Definition make_move (self : OurAgent) (current_state : State)
    (use_alpha_beta use_zobrist_hashing : bool) (max_ply : Z) (g : Rng)
    : res (Decision * OurAgent * Rng) :=
  found <- root_search self current_state use_alpha_beta use_zobrist_hashing max_ply;;
  let '(available_moves, best_move, best_value, self) := found in
  picked <- match best_move with
            | Some move => Ok (move, g)
            | None =>
                match available_moves with
                | [] => Raise NoValidMoves
                | _ => random_choice available_moves g
                end
            end;;
  let '(best_move, g) := picked in
  new_state <- apply_move current_state best_move;;
  (* Append the new state to our game history. *)
  let self := set_game self (playing self) (current_game_type self) (turn_count self)
                       (game_state_history self ++ [new_state]) in
  Ok ({| best_move := best_move; new_state := new_state; best_value := best_value |}, self, g).

(** ** Examples *)

Definition ttt : Game_Type := {| n := 3; m := 3; k := 3 |}.

Definition rng0 : Rng := {| draws := fun i => Z.of_nat i * 7919 + 13; cursor := 0 |}.

Definition agent_for (gt : Game_Type) (side : string) : OurAgent :=
  match prepare new_agent gt side rng0 with
  | Ok (a, _) => a
  | Raise _ => new_agent
  end.

Definition board_e2e : list (list string) :=
  [ ["X"; "X"; " "]
  ; ["O"; "O"; " "]
  ; [" "; " "; " "] ].


(** ** States as objects

    [apply_move] works on a deep copy of its argument. To say that the
    argument is left alone, states are also modelled as Python has them:
    references into a store of mutable objects. A state object refers to its
    board, a list object that refers to its rows, list objects that hold the
    cells (strings are immutable and are kept by value). *)

Definition loc : Type := positive.

Inductive object : Type :=
| RowObj (cells : list string)
| BoardObj (rows : list loc)
| StateObj (board_ref : loc) (whose : string).

(** A new object gets a reference that is not in use. *)
Definition alloc (h : gmap loc object) (o : object) : loc * gmap loc object :=
  let l := fresh (dom h) in (l, <[l := o]> h).

(** [copy.deepcopy] of the rows of a board. The memo maps a row already
    copied to its copy, so that a row that occurs twice is copied once. *)
Fixpoint deepcopy_rows (h : gmap loc object) (memo : gmap loc loc) (rows : list loc)
    : res (list loc * gmap loc object * gmap loc loc) :=
  match rows with
  | [] => Ok ([], h, memo)
  | l :: rest =>
      match memo !! l with
      | Some l' =>
          r <- deepcopy_rows h memo rest;;
          let '(ls, h', memo') := r in Ok (l' :: ls, h', memo')
      | None =>
          match h !! l with
          | Some (RowObj cells) =>
              let '(l', h1) := alloc h (RowObj cells) in
              r <- deepcopy_rows h1 (<[l := l']> memo) rest;;
              let '(ls, h', memo') := r in Ok (l' :: ls, h', memo')
          | _ => Raise TypeError
          end
      end
  end.

(** [copy.deepcopy(state)] *)
Definition deepcopy_state (h : gmap loc object) (state : loc) : res (loc * gmap loc object) :=
  match h !! state with
  | Some (StateObj bl w) =>
      match h !! bl with
      | Some (BoardObj rows) =>
          r <- deepcopy_rows h ∅ rows;;
          let '(rows', h1, _) := r in
          let '(bl', h2) := alloc h1 (BoardObj rows') in
          let '(state', h3) := alloc h2 (StateObj bl' w) in
          Ok (state', h3)
      | _ => Raise TypeError
      end
  | _ => Raise TypeError
  end.

(** [OurAgent.apply_move] on the store: the reference of the new state and
    the store after the call. *)
Definition store_apply_move (h : gmap loc object) (state : loc) (move : Move)
    : res (loc * gmap loc object) :=
  let '(r, c) := move in
  p <- deepcopy_state h state;;
  let '(new_state, h) := p in
  match h !! new_state with
  | Some (StateObj bl _) =>
      match h !! bl with
      | Some (BoardObj rows) =>
          row <- py_index rows r;;
          match h !! row with
          | Some (RowObj cells) =>
              cell <- py_index cells c;;
              if negb (cell =s? " ") then Raise (InvalidMove r c)
              else
                match h !! state with
                | Some (StateObj _ w) =>
                    (* new_state.board[r][c] = state.whose_move *)
                    cells' <- py_setitem cells c w;;
                    let h := <[row := RowObj cells']> h in
                    (* new_state.whose_move = "O" if state.whose_move == "X" else "X" *)
                    let h := <[new_state := StateObj bl (if w =s? "X" then "O" else "X")]> h in
                    Ok (new_state, h)
                | _ => Raise TypeError
                end
          | _ => Raise TypeError
          end
      | _ => Raise TypeError
      end
  | _ => Raise TypeError
  end.

(** The rows a list of references stands for. *)
Definition view_rows (h : gmap loc object) (rows : list loc) : option (list (list string)) :=
  mapM (fun l => match h !! l with Some (RowObj cells) => Some cells | _ => None end) rows.

(** The state a reference stands for. *)
Definition view (h : gmap loc object) (state : loc) : option State :=
  match h !! state with
  | Some (StateObj bl w) =>
      match h !! bl with
      | Some (BoardObj rows) =>
          match view_rows h rows with
          | Some b => Some (mkState b w)
          | None => None
          end
      | _ => None
      end
  | _ => None
  end.

(** The rows of the state at [state] are distinct objects. *)
Definition distinct_rows (h : gmap loc object) (state : loc) : Prop :=
  exists bl w rows, h !! state = Some (StateObj bl w) /\ h !! bl = Some (BoardObj rows)
                    /\ NoDup rows.


(** ** The offline game master

    [src/Game_Master_Offline.py], class [OfflineGameMaster]: the loop that
    asks the two agents for their moves in turn and consults the win tester.
    The clock (the ['time'] entry of a move report), the lines printed when
    [verbose] is set and the HTML report are left out; they do not touch the
    state of the game. *)

Module Game_Master_Offline.

Definition PLAYER_X : string := "X".
Definition PLAYER_O : string := "O".

(** [BaseGameAgent] of [src/agent_base.py], as far as the game master uses
    it. An agent is an object: a method takes the agent and hands back the
    agent as the call leaves it, also when the call raises. [make_move]
    returns the move, the new state and a remark. *)
Class BaseGameAgent (A : Type) : Type := {
  set_side : A -> string -> A;
  make_move : A -> State -> string -> res (Move * State * string) * A
}.

(** A win tester: called with the new state, the move and [k]. *)
Definition WinTester : Type := State -> Move -> Z -> res verdict.

Record OfflineGameMaster (A : Type) : Type := mkMaster {
  initial_state : State;
  player_x_agent : A;
  player_o_agent : A;
  win_tester : option WinTester;
  k : Z;
  game_history : list State;
  move_history : list Move;
  remark_history : list string;
  current_player : string;
  game_over : bool;
  winner : option string
}.
Arguments mkMaster {A}.
Arguments initial_state {A}.
Arguments player_x_agent {A}.
Arguments player_o_agent {A}.
Arguments win_tester {A}.
Arguments k {A}.
Arguments game_history {A}.
Arguments move_history {A}.
Arguments remark_history {A}.
Arguments current_player {A}.
Arguments game_over {A}.
Arguments winner {A}.

(** [OfflineGameMaster.__init__]. The two agents are two objects. *)
Definition init {A} `{BaseGameAgent A} (initial_state : State)
    (player_x_agent player_o_agent : A) (win_tester : option WinTester) (k : Z)
    : OfflineGameMaster A :=
  {| initial_state := initial_state;
     player_x_agent := set_side player_x_agent PLAYER_X;
     player_o_agent := set_side player_o_agent PLAYER_O;
     win_tester := win_tester;
     k := k;
     game_history := [initial_state];
     move_history := [];
     remark_history := [];
     current_player := PLAYER_X;
     game_over := false;
     winner := None |}.

Definition get_current_agent {A} (self : OfflineGameMaster A) : A :=
  if current_player self =s? PLAYER_X then player_x_agent self else player_o_agent self.

Definition get_opponent_agent {A} (self : OfflineGameMaster A) : A :=
  if current_player self =s? PLAYER_X then player_o_agent self else player_x_agent self.

(** The agent that [get_current_agent] returned, as a call has left it. *)
Definition put_current_agent {A} (self : OfflineGameMaster A) (agent : A)
    : OfflineGameMaster A :=
  {| initial_state := initial_state self;
     player_x_agent :=
       if current_player self =s? PLAYER_X then agent else player_x_agent self;
     player_o_agent :=
       if current_player self =s? PLAYER_X then player_o_agent self else agent;
     win_tester := win_tester self;
     k := k self;
     game_history := game_history self;
     move_history := move_history self;
     remark_history := remark_history self;
     current_player := current_player self;
     game_over := game_over self;
     winner := winner self |}.

(** The three [append]s of [play_move]. *)
Definition record_move {A} (self : OfflineGameMaster A) (move : Move) (new_state : State)
    (remark : string) : OfflineGameMaster A :=
  {| initial_state := initial_state self;
     player_x_agent := player_x_agent self;
     player_o_agent := player_o_agent self;
     win_tester := win_tester self;
     k := k self;
     game_history := game_history self ++ [new_state];
     move_history := move_history self ++ [move];
     remark_history := remark_history self ++ [remark];
     current_player := current_player self;
     game_over := game_over self;
     winner := winner self |}.

(** [self.game_over = True; self.winner = winner] *)
Definition end_game {A} (self : OfflineGameMaster A) (winner : option string)
    : OfflineGameMaster A :=
  {| initial_state := initial_state self;
     player_x_agent := player_x_agent self;
     player_o_agent := player_o_agent self;
     win_tester := win_tester self;
     k := k self;
     game_history := game_history self;
     move_history := move_history self;
     remark_history := remark_history self;
     current_player := current_player self;
     game_over := true;
     winner := winner |}.

Definition switch_player {A} (self : OfflineGameMaster A) : OfflineGameMaster A :=
  {| initial_state := initial_state self;
     player_x_agent := player_x_agent self;
     player_o_agent := player_o_agent self;
     win_tester := win_tester self;
     k := k self;
     game_history := game_history self;
     move_history := move_history self;
     remark_history := remark_history self;
     current_player := if current_player self =s? PLAYER_X then PLAYER_O else PLAYER_X;
     game_over := game_over self;
     winner := winner self |}.

(** What [play_move] returns: the short report of a game that is already
    over, or the report of the move just played. *)
Inductive MoveReport : Type :=
| AlreadyOver (winner : option string)
| Played (move : Move) (remark : string) (game_over : bool) (winner : option string).

(** The part of [play_move] after the histories are updated. *)
Definition check_and_switch {A} (self : OfflineGameMaster A) (new_state : State)
    (move : Move) (remark : string) : res MoveReport * OfflineGameMaster A :=
  let tested :=
    match win_tester self with
    | Some tester =>
        match tester new_state move (k self) with
        | Ok result =>
            if bool_decide (result = Some PLAYER_X \/ result = Some PLAYER_O)
            then Ok (end_game self result)
            else if bool_decide (result = Some "draw") then Ok (end_game self None)
            else Ok self
        | Raise e => Raise e
        end
    | None => Ok self
    end in
  match tested with
  | Ok self =>
      (* Switch to next player *)
      let self := if negb (game_over self) then switch_player self else self in
      (Ok (Played move remark (game_over self) (winner self)), self)
  | Raise e => (Raise e, self)
  end.

(** [OfflineGameMaster.play_move] *)
Definition play_move {A} `{BaseGameAgent A} (self : OfflineGameMaster A)
    : res MoveReport * OfflineGameMaster A :=
  if game_over self then (Ok (AlreadyOver (winner self)), self)
  else
    match py_index (game_history self) (-1) with
    | Raise e => (Raise e, self)
    | Ok current_state =>
        let last_remark :=
          match remark_history self with
          | [] => EmptyString
          | r :: rest => List.last rest r
          end in
        let '(made, agent) := make_move (get_current_agent self) current_state last_remark in
        let self := put_current_agent self agent in
        match made with
        | Raise e => (Raise e, self)
        | Ok (move, new_state, remark) =>
            (* Update histories *)
            let self := record_move self move new_state remark in
            check_and_switch self new_state move remark
        end
    end.

(** What [play_game] returns. *)
Record GameResult : Type := mkResult {
  result_winner : option string;
  result_moves : Z;
  result_history : list State
}.

(** The [while] loop of [play_game]; [todo] is [max_moves - move_count], the
    number of rounds the loop may still make. *)
Fixpoint play_loop {A} `{BaseGameAgent A} (todo : nat) (self : OfflineGameMaster A)
    (move_count : Z) : res Z * OfflineGameMaster A :=
  match todo with
  | O => (Ok move_count, self)
  | S todo' =>
      if game_over self then (Ok move_count, self)
      else
        let '(result, self) := play_move self in
        match result with
        | Ok _ => play_loop todo' self (move_count + 1)
        | Raise e => (Raise e, self)
        end
  end.

(** [OfflineGameMaster.play_game] *)
Definition play_game {A} `{BaseGameAgent A} (self : OfflineGameMaster A) (max_moves : Z)
    : res GameResult * OfflineGameMaster A :=
  let '(counted, self) := play_loop (Z.to_nat max_moves) self 0 in
  match counted with
  | Ok move_count =>
      (Ok {| result_winner := winner self; result_moves := move_count;
             result_history := game_history self |}, self)
  | Raise e => (Raise e, self)
  end.

(** [run_game]: a game of at most 1000 moves (the default of [max_moves]). *)
Definition run_game {A} `{BaseGameAgent A} (initial_state : State) (player_x player_o : A)
    (win_tester : option WinTester) (k : Z) : res GameResult * OfflineGameMaster A :=
  play_game (init initial_state player_x player_o win_tester k) 1000.

End Game_Master_Offline.


(** * The vocabulary of the properties *)

(** The positions [l[i]] accepts. *)
Definition py_in_range {A} (l : list A) (i : Z) : Prop :=
  - Z.of_nat (length l) <= i < Z.of_nat (length l).

(** The cell at row [r], column [c], for positions on the board. *)
Definition cell_at (b : list (list string)) (r c : Z) : option string :=
  if (0 <=? r) && (0 <=? c) then
    match b !! Z.to_nat r with
    | Some row => row !! Z.to_nat c
    | None => None
    end
  else None.

(** The side to move after [whose] has moved. *)
Definition other_side (whose : string) : string := if whose =s? "X" then "O" else "X".

(** A move is on the board when its row and column are those of a cell,
    counted from zero; the cell is occupied when it holds anything but a
    space. *)
Definition on_board (st : State) (mv : Move) : Prop :=
  exists cell, cell_at (board st) mv.1 mv.2 = Some cell.

Definition occupied (st : State) (mv : Move) : Prop :=
  exists cell, cell_at (board st) mv.1 mv.2 = Some cell /\ cell <> " ".

Definition raises_invalid_move {A} (r : res A) : Prop :=
  exists a b, r = Raise (InvalidMove a b).

Definition st_wrap : State := mkState [[" "; "X"]; [" "; " "]] "X".

(** Every row has [cols] cells. *)
Definition rectangular (b : list (list string)) (cols : nat) : Prop :=
  Forall (fun row => length row = cols) b.

Definition inside (b : list (list string)) (cols : nat) (r c : Z)
  : Prop := 0 <= r < Z.of_nat (length b) /\ 0 <= c < Z.of_nat cols.

(** [len(board[0]) if rows > 0 else 0], as the win tester computes it. *)
Definition tester_cols (b : list (list string)) (cols : nat)
  : Z := if 0 <? Z.of_nat (length b) then Z.of_nat cols else 0.

(** [n] cells in a row hold [p], starting at [(r, c)] and stepping by
    [(dr, dc)], and the next one does not. *)
Definition run (b : list (list string)) (p : string) (r c dr dc : Z) (n : Z) : Prop :=
  0 <= n /\
  (forall i, 0 <= i < n -> cell_at b (r + i * dr) (c + i * dc) = Some p) /\
  cell_at b (r + n * dr) (c + n * dc) <> Some p.

(** A step of the tester: one of the eight neighbours. *)
Definition unit_step (dr dc : Z) : Prop :=
  -1 <= dr <= 1 /\ -1 <= dc <= 1 /\ (dr <> 0 \/ dc <> 0).

(** How many cells remain before the walk leaves the board. *)
Definition room (b : list (list string)) (cols : nat) (r c dr dc : Z) : Z :=
  if dr =? 1 then Z.of_nat (length b) - r
  else if dr =? -1 then r + 1
  else if dc =? 1 then Z.of_nat cols - c
  else c + 1.

(** The total of the axis [d] through [(r, c)]: the cell itself and the
    runs of [p] on both sides. *)
Definition axis_total (b : list (list string)) (p : string) (r c : Z) (d : Z * Z) (t : Z)
  : Prop :=
  exists nf nb,
    run b p (r + d.1) (c + d.2) d.1 d.2 nf /\
    run b p (r - d.1) (c - d.2) (- d.1) (- d.2) nb /\
    t = 1 + nf + nb.

(** [k] cells in a row hold [p], starting at [(r, c)] and stepping by [d]. *)
Definition window (b : list (list string)) (p : string) (k r c : Z) (d : Z * Z) : Prop :=
  forall i, 0 <= i < k -> cell_at b (r + i * d.1) (c + i * d.2) = Some p.

(** A window of [k] cells of [p] along [d] covers [(r, c)]. *)
Definition run_through (b : list (list string)) (p : string) (k r c : Z) (d : Z * Z) : Prop :=
  exists j, 0 <= j < k /\ window b p k (r - j * d.1) (c - j * d.2) d.

(** Some axis through [(r, c)] totals at least [k]. *)
Definition axis_reaches (b : list (list string)) (p : string) (k r c : Z) : Prop :=
  exists d t, d ∈ directions /\ axis_total b p r c d t /\ k <= t.

(** The test the full scan makes at the origin [(row, col)] for [p]. *)
Definition win_at (b : list (list string)) (cols : nat) (k : Z) (p : string) (row col : Z)
  : Prop :=
  cell_at b row col = Some p /\
  ( (col + k <= tester_cols b cols /\ forall i, 0 <= i < k -> cell_at b row (col + i) = Some p)
  \/ (row + k <= Z.of_nat (length b) /\ forall i, 0 <= i < k -> cell_at b (row + i) col = Some p)
  \/ ((row + k <= Z.of_nat (length b) /\ col + k <= tester_cols b cols)
      /\ forall i, 0 <= i < k -> cell_at b (row + i) (col + i) = Some p)
  \/ ((row + k <= Z.of_nat (length b) /\ 0 <= col - k + 1)
      /\ forall i, 0 <= i < k -> cell_at b (row + i) (col - i) = Some p) ).

Definition scan_cell (b : list (list string)) (cols : nat) (k : Z) (player : string) (row col : Z)
  : res (option string) :=
  cell <- board_get b row col;;
  if cell =s? player then
    h <- (if col + k <=? tester_cols b cols
          then all_cells b player (map (fun i => (row, col + i)) (py_range k))
          else Ok false);;
    if h then Ok (Some player) else
    v <- (if row + k <=? Z.of_nat (length b)
          then all_cells b player (map (fun i => (row + i, col)) (py_range k))
          else Ok false);;
    if v then Ok (Some player) else
    d <- (if (row + k <=? Z.of_nat (length b)) && (col + k <=? tester_cols b cols)
          then all_cells b player (map (fun i => (row + i, col + i)) (py_range k))
          else Ok false);;
    if d then Ok (Some player) else
    a <- (if (row + k <=? Z.of_nat (length b)) && (0 <=? col - k + 1)
          then all_cells b player (map (fun i => (row + i, col - i)) (py_range k))
          else Ok false);;
    if a then Ok (Some player) else Ok None
  else Ok None.

(** The scan finds a run of [p] at some origin. *)
Definition scan_finds (b : list (list string)) (cols : nat) (k : Z) (p : string) : Prop :=
  exists row col, inside b cols row col /\ win_at b cols k p row col.

(** A legal move targets an empty square of the board. *)
Definition legal (st : State) (mv : Move) : Prop :=
  cell_at (board st) mv.1 mv.2 = Some " ".

(** The board with [tok] written at row [r], column [c]. *)
Definition place (b : list (list string)) (r c : nat) (tok : string) : list (list string) :=
  match b !! r with
  | Some row => <[r := <[c := tok]> row]> b
  | None => b
  end.

(** Some axis of the board holds [k] cells of [p] in a row. *)
Definition has_run (b : list (list string)) (p : string) (k : Z) : Prop :=
  exists r c d, d ∈ directions /\ window b p k r c d.

(** The full scan finds no run of either player. *)
Definition quiet (b : list (list string)) (cols : nat) (k : Z) : Prop :=
  ~ scan_finds b cols k "X" /\ ~ scan_finds b cols k "O".

(** A game starts from a rectangular board without pieces (empty and
    forbidden squares only), with ["X"] or ["O"] to move. *)
Definition initial (st : State) : Prop :=
  (exists cols, rectangular (board st) cols)
  /\ Forall (Forall (fun x => x <> "X" /\ x <> "O")) (board st)
  /\ (whose_move st = "X" \/ whose_move st = "O").

(** The game goes on after [last] when the win test on it returned [None]. *)
Definition still_on (k : Z) (st : State) (last : option Move) : Prop :=
  match last with
  | None => True
  | Some mv => winTesterForK st (Some mv) k = Ok None
  end.

(** [played k st last]: play reaches [st], and [last] is the move that led
    to it ([None] at the start). The next move is asked for only while the
    game is not over; the mover fills an empty square. *)
Inductive played (k : Z) : State -> option Move -> Prop :=
| played_start (st : State) :
    initial st -> played k st None
| played_move (st : State) (last : option Move) (mv : Move) (st' : State) :
    played k st last -> still_on k st last ->
    legal st mv -> apply_move st mv = Ok st' ->
    played k st' (Some mv).

Definition empty3 : State := mkState [[" "; " "; " "]; [" "; " "; " "]; [" "; " "; " "]] "X".

(** No square of the board is empty or forbidden. *)
Definition no_open_square (b : list (list string)) : Prop :=
  forall row x, row ∈ b -> x ∈ row -> x <> " " /\ x <> "-".

(** No square of the board is empty. *)
Definition no_empty_square (b : list (list string)) : Prop :=
  forall row x, row ∈ b -> x ∈ row -> x <> " ".

(** Some square of the board is forbidden. *)
Definition has_forbidden (b : list (list string)) : Prop :=
  exists row, row ∈ b /\ "-" ∈ row.

(** A 3 by 3 board whose middle square is forbidden, before the first move
    and after the eight moves that fill it. *)
Definition hole3 : State := mkState [[" "; " "; " "]; [" "; "-"; " "]; [" "; " "; " "]] "X".

Definition board_hole_full : list (list string) :=
  [["X"; "X"; "O"]; ["O"; "-"; "X"]; ["X"; "O"; "O"]].

(** The sum of the values [f] gives to the elements of a list. *)
Definition sumZ {A} (f : A -> Z) (l : list A) : Z := foldr (fun x acc => f x + acc) 0 l.

(** The length-[k] sequence that starts at [(r, c)] and runs along [d], when
    all of its cells lie on the board. *)
Definition sequence_at (b : list (list string)) (k r c : Z) (d : Z * Z) : option (list string) :=
  mapM (fun i => cell_at b (r + i * d.1) (c + i * d.2)) (py_range k).

(** Every length-[k] contiguous sequence of the board, orientation by
    orientation. *)
Definition spec_sequences (b : list (list string)) (cols : Z) (k : Z) : list (list string) :=
  flat_map (fun d =>
    flat_map (fun r =>
      flat_map (fun c => option_list (sequence_at b k r c d)) (py_range cols))
      (py_range (Z.of_nat (length b))))
    directions.

(** What a sequence contributes to a player's total. *)
Definition spec_contribution (k : Z) (player : string) (seq : list string) : Z :=
  let mine := Z.of_nat (length (filter (fun x => x = player) seq)) in
  let rest_empty := forallb (fun x => (x =s? player) || (x =s? " ")) seq in
  if forallb (fun x => x =s? player) seq then 1000
  else if (mine =? k - 1) && rest_empty then 50
  else if (mine =? k - 2) && rest_empty then 10
  else 0.

Definition spec_total (b : list (list string)) (cols k : Z) (player : string) : Z :=
  sumZ (spec_contribution k player) (spec_sequences b cols k).

Definition spec_score (b : list (list string)) (cols k : Z) : Z :=
  spec_total b cols k "X" - spec_total b cols k "O".

(** The content of a cell, for positions on the board. *)
Definition get (b : list (list string)) (rc : Z * Z) : string :=
  default EmptyString (cell_at b rc.1 rc.2).

(** The four groups of sequences, in the order the code appends them. *)
Definition code_sequences (b : list (list string)) (cols : nat) (k : Z) : list (list string) :=
  flat_map (fun r => map (fun c => map (get b) (horizontal k r c))
                         (py_range (Z.of_nat cols - k + 1)))
           (py_range (Z.of_nat (length b)))
  ++ flat_map (fun c => map (fun r => map (get b) (vertical k r c))
                            (py_range (Z.of_nat (length b) - k + 1)))
              (py_range (Z.of_nat cols))
  ++ flat_map (fun r => map (fun c => map (get b) (diagonal k r c))
                            (py_range (Z.of_nat cols - k + 1)))
              (py_range (Z.of_nat (length b) - k + 1))
  ++ flat_map (fun r => map (fun c => map (get b) (anti_diagonal k r c))
                            (py_range2 (k - 1) (Z.of_nat cols)))
              (py_range (Z.of_nat (length b) - k + 1)).

(** The occupied cells of a board with the token each holds, row by row. *)
Definition occupied_cells (b : list (list string)) (cols : Z) : list (Z * Z * string) :=
  flat_map (fun r =>
    flat_map (fun c =>
      match cell_at b r c with
      | Some token => if str_in token ["X"; "O"] then [(r, c, token)] else []
      | None => []
      end) (py_range cols))
    (py_range (Z.of_nat (length b))).

(** The key of a (cell, token) pair in the table filled at setup. *)
Definition key_of (keys : gmap (Z * Z * string) Z) (t : Z * Z * string) : Z :=
  default 0 (keys !! t).

Definition xor_all (l : list Z) : Z := foldr Z.lxor 0 l.

Definition spec_hash (keys : gmap (Z * Z * string) Z) (b : list (list string)) (cols : Z) : Z :=
  xor_all (map (key_of keys) (occupied_cells b cols)).

(** What the cell [(r, c)] adds to the hash. *)
Definition cell_key (keys : gmap (Z * Z * string) Z) (b : list (list string)) (r c : Z) : Z :=
  match cell_at b r c with
  | Some token => if str_in token ["X"; "O"] then key_of keys (r, c, token) else 0
  | None => 0
  end.

(** [acc] holds a 64-bit key for every (cell, token) pair of [T]. *)
Definition covers (acc : gmap (Z * Z * string) Z * Rng) (T : Z * Z * string -> Prop) : Prop :=
  (forall t, T t -> is_Some (acc.1 !! t))
  /\ (forall t v, acc.1 !! t = Some v -> 0 <= v < 2 ^ 64).

(** A number is placed by its rank ([-1] for [-inf], [1] for [inf]) and,
    among the integers, by its value. *)
Definition rank (a : num) : Z :=
  match a with NegInf => -1 | Int _ => 0 | PosInf => 1 end.

Definition value (a : num) : Z :=
  match a with Int z => z | _ => 0 end.

Definition num_lt (a b : num) : Prop := num_ltb a b = true.

Definition num_le (a b : num) : Prop := num_leb a b = true.

Arguments num_lt : simpl never.

Arguments num_le : simpl never.

Definition enc (M : Z) (a : num) : Z :=
  match a with NegInf => - M - 1 | Int z => z | PosInf => M + 1 end.

Definition fits (M : Z) (a : num) : Prop := Z.abs (value a) <= M.

Definition seen (a : num) : Prop := True.

Definition only_counters (self0 self : OurAgent) : Prop :=
  exists cutoffs evals, self = set_counters self0 cutoffs evals.

(** The empty squares of a board, row by row. *)
Definition empty_squares (b : list (list string)) (cols : Z) : list Move :=
  flat_map (fun r =>
    flat_map (fun c =>
      match cell_at b r c with
      | Some cell => if cell =s? " " then [(r, c)] else []
      | None => []
      end) (py_range cols))
    (py_range (Z.of_nat (length b))).

(** What a pruned search with window [(a, b)] may return where the exact
    value is [V]: a bound on the same side when [V] is outside the window,
    [V] itself when it is inside. *)
Definition within (V r a b : num) : Prop :=
  (num_le V a -> num_le r a) /\ (num_le b V -> num_le b r)
  /\ (num_lt a V -> num_lt V b -> r = V).

(** The search [S] (told whether to prune) has the exact value [V] at
    [st]: unpruned it returns [V]; pruned with a window [a < b] it returns
    a value [within] it. Either way it only touches the counters. *)
Definition exact_value (self0 : OurAgent) (S : bool -> Search) (st : State) (V : num) : Prop :=
  (forall self a b, only_counters self0 self ->
     exists self', S false self st a b = Ok (V, self') /\ only_counters self0 self')
  /\ (forall self a b, only_counters self0 self -> num_lt a b ->
     exists r self', S true self st (Some a) (Some b) = Ok (r, self')
                     /\ only_counters self0 self' /\ within V r a b).

Definition exact_children (self0 : OurAgent) (S : bool -> Search)
    (children : list Child) (Vs : list num) : Prop :=
  Forall2 (fun ch V => exact_value self0 S ch.1.2 V) children Vs.

(** The state after [mv] on [st]. *)
Definition moved (st : State) (mv : Move) : State :=
  {| board := place (board st) (Z.to_nat mv.1) (Z.to_nat mv.2) (whose_move st);
     whose_move := other_side (whose_move st) |}.

(** A rectangular board with at least one row. *)
Definition good (cols : nat) (st : State) : Prop := rectangular (board st) cols /\ board st <> [].

(** [minimax] without the cache and with move ordering, as a search. *)
Definition searcher (fuel : nat) (depth : Z) : bool -> Search :=
  fun pruning self st alpha beta => minimax fuel self st depth pruning alpha beta false true.

Definition is_int (V : num) : Prop := exists v, V = Int v.

Definition is_row (h : gmap loc object) (l : loc) (cells : list string) : Prop :=
  h !! l = Some (RowObj cells).

Definition store_e2e : gmap loc object :=
  <[5%positive := StateObj 4%positive "X"]>
  (<[4%positive := BoardObj [1%positive; 2%positive; 3%positive]]>
  (<[3%positive := RowObj [" "; " "; " "]]>
  (<[2%positive := RowObj ["O"; "O"; " "]]>
  (<[1%positive := RowObj ["X"; "X"; " "]]> ∅)))).

(** How the bounds of the loop follow the best value: the side of the
    agent decides which bound moves. *)
Definition root_inv (self0 : OurAgent) (alpha beta best : num) : Prop :=
  if plays self0 "X" then alpha = best /\ beta = PosInf
  else if plays self0 "O" then beta = best /\ alpha = NegInf
  else alpha = NegInf /\ beta = PosInf.

(** The agent at the start of a search: the turn counted, the counters of
    the turn reset. *)
Definition at_turn (self : OurAgent) : OurAgent :=
  set_counters (set_game self (playing self) (current_game_type self)
                         (turn_count self + 1) (game_state_history self)) 0 0.

(** What a move choice hands to the caller, with the two counters of the
    agent (cutoffs and static evaluations of the turn) blanked. *)
Definition outcome (r : res (Decision * OurAgent * Rng)) : res (Decision * OurAgent * Rng) :=
  match r with
  | Ok (d, a, g) => Ok (d, set_counters a 0 0, g)
  | Raise e => Raise e
  end.


(** * The vocabulary of the further properties *)

(** The verdicts a win test can give. *)
Definition is_verdict (v : verdict) : Prop :=
  v = None \/ v = Some "draw" \/ v = Some "X" \/ v = Some "O".

Definition board_x_row : list (list string) :=
  [["X"; "X"; "X"]; ["O"; "O"; " "]; [" "; " "; " "]].

(** The order in which the board is scanned: row by row, each row from left
    to right. *)
Definition row_major (a b : Move) : Prop :=
  a.1 < b.1 \/ (a.1 = b.1 /\ a.2 < b.2).

(** Some row is shorter than the first one. *)
Definition short_row (b : list (list string)) : Prop :=
  exists row0 row, b !! 0%nat = Some row0 /\ row ∈ b /\ (length row < length row0)%nat.

(** Some square of the board holds a piece of a player. *)
Definition has_piece (b : list (list string)) : Prop :=
  Exists (Exists (fun x => x = "X" \/ x = "O")) b.

(** The value of the static evaluation, where it succeeds. *)
Definition eval_of (self : OurAgent) (st : State) : Z :=
  match static_eval self st with
  | Ok v => v
  | Raise _ => 0
  end.

(** The recursive call scores every child of the list by its sort key and
    counts one evaluation. *)
Definition scored (self0 : OurAgent) (rec : Search) (children : list Child) : Prop :=
  forall ch self a b, ch ∈ children -> only_counters self0 self ->
    rec self ch.1.2 a b = Ok (Int ch.2, add_static_eval self).

(** [v] is at least as good as [v'] for the side the agent plays: ["X"]
    maximizes, any other side minimizes. *)
Definition no_worse (self : OurAgent) (v v' : Z) : Prop :=
  if plays self "X" then v' <= v else v <= v'.

Definition better (self : OurAgent) (v v' : Z) : Prop :=
  if plays self "X" then v' < v else v < v'.

(** Two agents agree on everything but the instrumentation of the search
    (the counters and the cache): side, game type, turn count, history and
    hash keys. *)
Definition same_game (a b : OurAgent) : Prop :=
  playing b = playing a
  /\ current_game_type b = current_game_type a
  /\ turn_count b = turn_count a
  /\ game_state_history b = game_state_history a
  /\ zobrist_keys b = zobrist_keys a.

(** A search that leaves the game data of the agent alone. *)
Definition keeps_game (rec : Search) : Prop :=
  forall self st a b v self', rec self st a b = Ok (v, self') -> same_game self self'.

(** The board with the pieces of the two players exchanged. *)
Definition swap_token (x : string) : string :=
  if x =s? "X" then "O" else if x =s? "O" then "X" else x.

Definition swap_board (b : list (list string)) : list (list string) :=
  map (map swap_token) b.

Definition swapped (st : State) : State :=
  {| board := swap_board (board st); whose_move := whose_move st |}.

(** Two runs end the same way: with the same exception, or with results
    that [R] relates. *)
Definition res_rel {A B} (R : A -> B -> Prop) (r : res A) (r' : res B) : Prop :=
  match r, r' with
  | Ok a, Ok b => R a b
  | Raise e, Raise e' => e = e'
  | _, _ => False
  end.

(** The [i]-th output of the random source, cut to 64 bits. *)
Definition drawn_key (g : Rng) (i : nat) : Z := draws g i mod 2 ^ 64.

(** [0] for ["X"], [1] for any other token: the order in which
    [init_zobrist] draws the two keys of a cell. *)
Definition token_rank (token : string) : nat := if token =s? "X" then 0 else 1.

(** The (cell, token) pairs of an [n] by [m] board. *)
Definition is_key (n m : Z) (t : Z * Z * string) : Prop :=
  0 <= t.1.1 < n /\ 0 <= t.1.2 < m /\ (t.2 = "X" \/ t.2 = "O").

(** ** The game master *)

(** The histories of a game master go together: the first state is the
    initial one, and there is one move and one remark for every further
    state. *)
Definition recorded {A} (gm : Game_Master_Offline.OfflineGameMaster A) : Prop :=
  Game_Master_Offline.game_history gm !! 0%nat = Some (Game_Master_Offline.initial_state gm)
  /\ length (Game_Master_Offline.game_history gm)
     = S (length (Game_Master_Offline.move_history gm))
  /\ length (Game_Master_Offline.remark_history gm)
     = length (Game_Master_Offline.move_history gm).

(** Who makes the move number [i] of a game, counted from 0. *)
Definition mover (i : nat) : string := if Nat.even i then "X" else "O".

(** The player the master will ask next (while the game is on) or asked
    last (once it is over) is the one the count of moves gives. *)
Definition turn_ok {A} (gm : Game_Master_Offline.OfflineGameMaster A) : Prop :=
  if Game_Master_Offline.game_over gm
  then Game_Master_Offline.move_history gm <> [] ->
       Game_Master_Offline.current_player gm
       = mover (length (Game_Master_Offline.move_history gm) - 1)
  else Game_Master_Offline.current_player gm
       = mover (length (Game_Master_Offline.move_history gm)).

(** A winner is named only once the game is over, and it is ["X"] or ["O"]. *)
Definition winner_ok {A} (gm : Game_Master_Offline.OfflineGameMaster A) : Prop :=
  (Game_Master_Offline.game_over gm = false -> Game_Master_Offline.winner gm = None)
  /\ (Game_Master_Offline.winner gm = None
      \/ Game_Master_Offline.winner gm = Some "X"
      \/ Game_Master_Offline.winner gm = Some "O").

(** An agent that takes the first available move and says nothing. *)
Definition first_move (a : unit) (st : State) (remark : string)
    : res (Move * State * string) * unit :=
  (moves <- get_available_moves st;;
   match moves with
   | [] => Raise NoValidMoves
   | mv :: _ => st' <- apply_move st mv;; Ok (mv, st', EmptyString)
   end, a).

#[export] Instance first_move_agent : Game_Master_Offline.BaseGameAgent unit :=
  {| Game_Master_Offline.set_side := fun a _ => a;
     Game_Master_Offline.make_move := first_move |}.

(** The win tester of [src/winTesterForK.py], as the game master calls it. *)
Definition tester : Game_Master_Offline.WinTester :=
  fun st mv k => check_win_condition st (Some mv) k.

(** An agent plays by the rules when every move it returns fills an empty
    square of the state it was given, and the state it returns is the
    result of that move. *)
Definition plays_fair {A} `{Game_Master_Offline.BaseGameAgent A} : Prop :=
  forall (a a' : A) st remark mv st' remark',
    Game_Master_Offline.make_move a st remark = (Ok (mv, st', remark'), a') ->
    legal st mv /\ apply_move st mv = Ok st'.

(** The master is run on a game in play: the last state of the history was
    reached by play, with the last move of the history (none at the start);
    while the game is on, the tester found no end in it. *)
Definition in_play {A} (gm : Game_Master_Offline.OfflineGameMaster A) : Prop :=
  exists st,
    last (Game_Master_Offline.game_history gm) = Some st
    /\ played (Game_Master_Offline.k gm) st (last (Game_Master_Offline.move_history gm))
    /\ (Game_Master_Offline.game_over gm = false ->
        still_on (Game_Master_Offline.k gm) st (last (Game_Master_Offline.move_history gm))).


(** * Results and Python lists *)

Lemma bind_ok {A B} (m : res A) (f : A -> res B) (b : B) :
  bind m f = Ok b <-> exists a, m = Ok a /\ f a = Ok b.
Proof.
  destruct m as [a|e]; simpl; split.
  - intros H; exists a; auto.
  - intros (a' & [= ->] & H); exact H.
  - discriminate.
  - intros (a' & [=] & _).
Qed.

Lemma bind_raise {A B} (m : res A) (f : A -> res B) (e : exn) :
  bind m f = Raise e <-> m = Raise e \/ exists a, m = Ok a /\ f a = Raise e.
Proof.
  destruct m as [a|e']; simpl; split.
  - intros H; right; exists a; auto.
  - intros [[=]|(a' & [= ->] & H)]; exact H.
  - intros [= ->]; left; reflexivity.
  - intros [[= ->]|(a' & [=] & _)]; reflexivity.
Qed.

Lemma py_index_nonneg {A} (l : list A) (i : Z) :
  0 <= i ->
  py_index l i = match l !! Z.to_nat i with Some x => Ok x | None => Raise IndexError end.
Proof.
  intros Hi. unfold py_index, py_norm.
  destruct (i <? 0) eqn:E; [apply Z.ltb_lt in E; lia|].
  destruct (0 <=? i) eqn:E1; [|apply Z.leb_gt in E1; lia].
  destruct (i <? Z.of_nat (length l)) eqn:E2; simpl; [reflexivity|].
  apply Z.ltb_ge in E2.
  rewrite (proj2 (lookup_ge_None l (Z.to_nat i))); [reflexivity|lia].
Qed.

Lemma py_index_ok_iff {A} (l : list A) (i : Z) :
  is_ok (py_index l i) <-> py_in_range l i.
Proof.
  unfold is_ok, py_index, py_norm, py_in_range.
  destruct (i <? 0) eqn:E; [apply Z.ltb_lt in E|apply Z.ltb_ge in E].
  - destruct (0 <=? i + Z.of_nat (length l)) eqn:E1;
      [apply Z.leb_le in E1|apply Z.leb_gt in E1]; simpl.
    + destruct (i + Z.of_nat (length l) <? Z.of_nat (length l)) eqn:E2;
        [apply Z.ltb_lt in E2|apply Z.ltb_ge in E2; lia].
      destruct (lookup_lt_is_Some_2 l (Z.to_nat (i + Z.of_nat (length l)))) as [x Hx]; [lia|].
      rewrite Hx. split; [lia|eauto].
    + split; [intros [a [=]]|lia].
  - destruct (0 <=? i) eqn:E1; [|apply Z.leb_gt in E1; lia].
    destruct (i <? Z.of_nat (length l)) eqn:E2;
      [apply Z.ltb_lt in E2|apply Z.ltb_ge in E2]; simpl.
    + destruct (lookup_lt_is_Some_2 l (Z.to_nat i)) as [x Hx]; [lia|].
      rewrite Hx. split; [lia|eauto].
    + split; [intros [a [=]]|lia].
Qed.

Lemma py_index_raise {A} (l : list A) (i : Z) (e : exn) :
  py_index l i = Raise e -> e = IndexError.
Proof.
  unfold py_index. destruct (_ && _); [destruct (l !! _)|]; congruence.
Qed.

Lemma py_setitem_ok_iff {A} (l : list A) (i : Z) (v : A) :
  is_ok (py_setitem l i v) <-> py_in_range l i.
Proof.
  unfold is_ok, py_setitem, py_norm, py_in_range.
  destruct (i <? 0) eqn:E; [apply Z.ltb_lt in E|apply Z.ltb_ge in E];
  destruct (0 <=? _) eqn:E1; [apply Z.leb_le in E1|apply Z.leb_gt in E1| apply Z.leb_le in E1|apply Z.leb_gt in E1];
  destruct (_ <? Z.of_nat _) eqn:E2; [apply Z.ltb_lt in E2|apply Z.ltb_ge in E2|apply Z.ltb_lt in E2|apply Z.ltb_ge in E2|apply Z.ltb_lt in E2|apply Z.ltb_ge in E2|apply Z.ltb_lt in E2|apply Z.ltb_ge in E2];
  simpl; split; try lia; try (intros [a [=]]); eauto.
Qed.

Lemma py_setitem_nonneg {A} (l : list A) (i : Z) (v : A) :
  0 <= i < Z.of_nat (length l) -> py_setitem l i v = Ok (<[Z.to_nat i := v]> l).
Proof.
  intros Hi. unfold py_setitem, py_norm.
  destruct (i <? 0) eqn:E; [apply Z.ltb_lt in E; lia|].
  destruct (0 <=? i) eqn:E1; [|apply Z.leb_gt in E1; lia].
  destruct (i <? Z.of_nat (length l)) eqn:E2; [|apply Z.ltb_ge in E2; lia].
  reflexivity.
Qed.

(** * Boards *)

Lemma board_get_cell_at b r c :
  0 <= r -> 0 <= c ->
  board_get b r c = match cell_at b r c with Some x => Ok x | None => Raise IndexError end.
Proof.
  intros Hr Hc. unfold board_get, cell_at.
  rewrite py_index_nonneg by assumption.
  destruct (0 <=? r) eqn:E1; [|apply Z.leb_gt in E1; lia].
  destruct (0 <=? c) eqn:E2; [|apply Z.leb_gt in E2; lia]. simpl.
  destruct (b !! Z.to_nat r) as [row|]; simpl; [|reflexivity].
  apply py_index_nonneg; assumption.
Qed.

Lemma cell_at_Some b r c x :
  cell_at b r c = Some x ->
  0 <= r < Z.of_nat (length b) /\ 0 <= c /\
  exists row, b !! Z.to_nat r = Some row /\ row !! Z.to_nat c = Some x
              /\ c < Z.of_nat (length row).
Proof.
  unfold cell_at. destruct (0 <=? r) eqn:E1; [|discriminate].
  destruct (0 <=? c) eqn:E2; [|discriminate]. simpl.
  apply Z.leb_le in E1, E2.
  destruct (b !! Z.to_nat r) as [row|] eqn:Hrow; [|discriminate].
  intros Hx. pose proof (lookup_lt_Some _ _ _ Hrow). pose proof (lookup_lt_Some _ _ _ Hx).
  repeat split; try lia. exists row. repeat split; auto. lia.
Qed.

(** * The state transition *)

Lemma board_get_ok_iff b r c :
  is_ok (board_get b r c) <->
  py_in_range b r /\ forall row, py_index b r = Ok row -> py_in_range row c.
Proof.
  unfold board_get. split.
  - intros [x Hx]. apply bind_ok in Hx as (row & Hrow & Hc).
    split; [apply py_index_ok_iff; eexists; eauto|].
    intros row' Hrow'. rewrite Hrow in Hrow'. injection Hrow' as <-.
    apply py_index_ok_iff. eexists; eauto.
  - intros [Hr Hc]. apply py_index_ok_iff in Hr as [row Hrow].
    specialize (Hc row Hrow). apply py_index_ok_iff in Hc as [x Hx].
    exists x. rewrite Hrow. exact Hx.
Qed.

Lemma board_get_raise b r c e : board_get b r c = Raise e -> e = IndexError.
Proof.
  unfold board_get. intros H. apply bind_raise in H as [H|(row & _ & H)];
    eapply py_index_raise; eauto.
Qed.

Lemma apply_move_empty st r c :
  board_get (board st) r c = Ok " " ->
  exists row row' b',
    py_index (board st) r = Ok row /\
    py_setitem row c (whose_move st) = Ok row' /\
    py_setitem (board st) r row' = Ok b' /\
    apply_move st (r, c) = Ok {| board := b'; whose_move := other_side (whose_move st) |}.
Proof.
  intros H. unfold board_get in H. apply bind_ok in H as (row & Hrow & Hc).
  destruct (proj2 (py_setitem_ok_iff row c (whose_move st))) as [row' Hrow'].
  { apply py_index_ok_iff. eexists; eauto. }
  destruct (proj2 (py_setitem_ok_iff (board st) r row')) as [b' Hb'].
  { apply py_index_ok_iff. eexists; eauto. }
  exists row, row', b'. repeat split; auto.
  unfold apply_move. rewrite Hrow. simpl. rewrite Hc. simpl.
  rewrite Hrow'. simpl. rewrite Hb'. reflexivity.
Qed.

Lemma apply_move_occupied st r c cell :
  board_get (board st) r c = Ok cell -> cell <> " " ->
  apply_move st (r, c) = Raise (InvalidMove r c).
Proof.
  intros H Hne. unfold board_get in H. apply bind_ok in H as (row & Hrow & Hc).
  unfold apply_move. rewrite Hrow. simpl. rewrite Hc. simpl.
  destruct (String.eqb_spec cell " "); [contradiction|reflexivity].
Qed.

Lemma apply_move_no_cell st r c e :
  board_get (board st) r c = Raise e -> apply_move st (r, c) = Raise IndexError.
Proof.
  intros H. unfold board_get in H. unfold apply_move.
  apply bind_raise in H as [H|(row & Hrow & H)].
  - rewrite H. simpl. f_equal. eapply py_index_raise; eauto.
  - rewrite Hrow. simpl. rewrite H. simpl. f_equal. eapply py_index_raise; eauto.
Qed.

(** C8, as stated, fails: row [-1] is not a row of the board, yet the move
    is applied (to the last row); and a column past the end raises
    [IndexError], not the invalid-move error. *)
Lemma apply_move_off_board_not_rejected :
  ~ on_board st_wrap (-1, 0)
  /\ apply_move st_wrap (-1, 0) = Ok (mkState [[" "; "X"]; ["X"; " "]] "O")
  /\ ~ on_board st_wrap (0, 5)
  /\ apply_move st_wrap (0, 5) = Raise IndexError.
Proof.
  repeat split; try reflexivity; intros [cell H]; discriminate H.
Qed.

(** C8, as the code has it: [apply_move] is decided by the cell that Python's
    indexing [board[r][c]] reaches. If there is none (an index outside [-len,
    len)), [IndexError] is raised; if the cell is not a space, the
    invalid-move error is raised; if it is a space, the move succeeds. For a
    move on the board this cell is the target cell, so the invalid-move error
    is raised exactly when the target is occupied. *)
Theorem apply_move_outcome (st : State) (r c : Z) :
  match board_get (board st) r c with
  | Ok cell =>
      if cell =s? " " then is_ok (apply_move st (r, c))
      else apply_move st (r, c) = Raise (InvalidMove r c)
  | Raise _ => apply_move st (r, c) = Raise IndexError
  end
  /\ (is_ok (board_get (board st) r c) <->
      py_in_range (board st) r /\
      forall row, py_index (board st) r = Ok row -> py_in_range row c)
  /\ (on_board st (r, c) ->
      (raises_invalid_move (apply_move st (r, c)) <-> occupied st (r, c)) /\
      (is_ok (apply_move st (r, c)) <-> ~ occupied st (r, c))).
Proof.
  split; [|split; [apply board_get_ok_iff|]].
  - destruct (board_get (board st) r c) as [cell|e] eqn:H.
    + destruct (String.eqb_spec cell " ") as [->|Hne].
      * destruct (apply_move_empty _ _ _ H) as (? & ? & ? & _ & _ & _ & ->).
        eexists; eauto.
      * eapply apply_move_occupied; eauto.
    + eapply apply_move_no_cell; eauto.
  - intros [cell Hcell]. simpl in Hcell.
    destruct (cell_at_Some _ _ _ _ Hcell) as ([Hr _] & Hc & _).
    pose proof (board_get_cell_at (board st) r c Hr Hc) as Hget.
    rewrite Hcell in Hget.
    destruct (String.eqb_spec cell " ") as [->|Hne].
    + destruct (apply_move_empty _ _ _ Hget) as (? & ? & ? & _ & _ & _ & Hok).
      split; split.
      * intros (a & b & Hr'). congruence.
      * intros (cell' & Hc' & Hne). simpl in Hc'. congruence.
      * intros _ (cell' & Hc' & Hne). simpl in Hc'. congruence.
      * intros _. eexists; eauto.
    + pose proof (apply_move_occupied _ _ _ _ Hget Hne) as Hbad.
      split; split.
      * intros _. exists cell. auto.
      * intros _. exists r, c. exact Hbad.
      * intros [s Hs]. congruence.
      * intros Hn. exfalso. apply Hn. exists cell. auto.
Qed.

(** * The early exit of the win tester *)

Lemma str_in_XO (s : string) : str_in s ["X"; "O"] = true <-> s = "X" \/ s = "O".
Proof.
  unfold str_in. simpl.
  destruct (String.eqb_spec s "X"), (String.eqb_spec s "O"); simpl; split; intros; auto;
    try discriminate; intuition congruence.
Qed.

(** C10: a last move whose cell holds neither ["X"] nor ["O"] makes the win
    tester answer [None] (ongoing) at once, whatever the rest of the board
    and whatever [k]. *)
Theorem check_win_condition_not_a_piece (st : State) (row col k : Z) (cell : string) :
  board_get (board st) row col = Ok cell ->
  cell <> "X" -> cell <> "O" ->
  check_win_condition st (Some (row, col)) k = Ok None.
Proof.
  intros Hget HX HO. unfold check_win_condition.
  assert (Hlen : exists cols, (if 0 <? Z.of_nat (length (board st)) then len0 (board st) else Ok 0) = Ok cols).
  { destruct (0 <? Z.of_nat (length (board st))) eqn:E; [|eauto].
    unfold len0. destruct (proj2 (py_index_ok_iff (board st) 0)) as [r0 Hr0].
    { apply Z.ltb_lt in E. unfold py_in_range. lia. }
    rewrite Hr0. simpl. eauto. }
  destruct Hlen as [cols ->]. cbn [bind]. rewrite Hget. cbn [bind].
  destruct (str_in cell ["X"; "O"]) eqn:E; [|reflexivity].
  apply str_in_XO in E. tauto.
Qed.

(** A board whose every other square is taken, and a last move pointing at
    the one empty square. *)
Lemma check_win_condition_not_a_piece_witness :
  check_win_condition (mkState [["X"; "X"; "X"]; ["O"; " "; "O"]; ["O"; "X"; "O"]] "X")
                      (Some (1, 1)) 3 = Ok None.
Proof.
  apply (check_win_condition_not_a_piece _ 1 1 3 " "); [reflexivity|discriminate|discriminate].
Defined.


(** * Rectangular boards *)

Lemma py_range_elem (n i : Z) : i ∈ py_range n <-> 0 <= i < n.
Proof.
  unfold py_range. rewrite list_elem_of_In, in_map_iff. split.
  - intros (j & <- & Hj). apply in_seq in Hj. lia.
  - intros Hi. exists (Z.to_nat i). split; [lia|]. apply in_seq. lia.
Qed.

Lemma py_range_nonpos (n : Z) : n <= 0 -> py_range n = [].
Proof. intros H. unfold py_range. replace (Z.to_nat n) with 0%nat by lia. reflexivity. Qed.

Lemma py_range_succ (n : Z) : 0 <= n -> py_range (n + 1) = py_range n ++ [n].
Proof.
  intros H. unfold py_range. replace (Z.to_nat (n + 1)) with (S (Z.to_nat n)) by lia.
  rewrite seq_S, map_app. simpl. rewrite Z2Nat.id by lia. reflexivity.
Qed.

Section Board.
Variable b : list (list string).
Variable cols : nat.
Hypothesis Hrect : rectangular b cols.

Let rows : Z := Z.of_nat (length b).

Local Abbreviation inside := (inside b cols).

Lemma cell_at_inside (r c : Z) : inside r c <-> exists x, cell_at b r c = Some x.
Proof.
  split.
  - intros [Hr Hc]. unfold cell_at.
    destruct (0 <=? r) eqn:E1; [|apply Z.leb_gt in E1; lia].
    destruct (0 <=? c) eqn:E2; [|apply Z.leb_gt in E2; lia]. simpl.
    destruct (lookup_lt_is_Some_2 b (Z.to_nat r)) as [row Hrow]; [unfold rows in *; lia|].
    rewrite Hrow.
    assert (length row = cols).
    { eapply Forall_forall in Hrect; [exact Hrect|]. eapply list_elem_of_lookup_2; eauto. }
    apply lookup_lt_is_Some_2. lia.
  - intros [x Hx]. apply cell_at_Some in Hx as (Hr & Hc & row & Hrow & _ & Hlt).
    assert (length row = cols).
    { eapply Forall_forall in Hrect; [exact Hrect|]. eapply list_elem_of_lookup_2; eauto. }
    unfold inside, rows. lia.
Qed.

Lemma board_get_inside (r c : Z) :
  inside r c -> exists x, cell_at b r c = Some x /\ board_get b r c = Ok x.
Proof.
  intros Hin. destruct (proj1 (cell_at_inside r c) Hin) as [x Hx].
  exists x. split; [exact Hx|].
  rewrite board_get_cell_at by (destruct Hin; lia). rewrite Hx. reflexivity.
Qed.

Lemma len0_rect : 0 < rows -> len0 b = Ok (Z.of_nat cols).
Proof.
  intros H. unfold len0. rewrite py_index_nonneg by lia.
  destruct (lookup_lt_is_Some_2 b (Z.to_nat 0)) as [row Hrow]; [unfold rows in *; lia|].
  rewrite Hrow. cbn [bind].
  assert (length row = cols).
  { eapply Forall_forall in Hrect; [exact Hrect|]. eapply list_elem_of_lookup_2; eauto. }
  congruence.
Qed.

Local Abbreviation tester_cols := (tester_cols b cols).

Lemma tester_cols_eq :
  (if 0 <? rows then len0 b else Ok 0) = Ok tester_cols.
Proof.
  unfold tester_cols. fold rows. destruct (0 <? rows) eqn:E; [|reflexivity].
  apply len0_rect. apply Z.ltb_lt. exact E.
Qed.

Lemma inside_tester (r c : Z) :
  (0 <= r < rows /\ 0 <= c < tester_cols) <-> inside r c.
Proof.
  unfold tester_cols, inside. fold rows. destruct (0 <? rows) eqn:E; [tauto|].
  apply Z.ltb_ge in E. lia.
Qed.

(** ** Runs *)

Local Abbreviation run := (run b).

Lemma run_unique p r c dr dc n n' : run p r c dr dc n -> run p r c dr dc n' -> n = n'.
Proof.
  intros (H0 & Ha & Hb) (H0' & Ha' & Hb').
  destruct (Z.lt_trichotomy n n') as [H|[H|H]]; [|assumption|].
  - exfalso. apply Hb. apply Ha'. lia.
  - exfalso. apply Hb'. apply Ha. lia.
Qed.

Lemma run_step p r c dr dc n :
  cell_at b r c = Some p -> run p (r + dr) (c + dc) dr dc n -> run p r c dr dc (n + 1).
Proof.
  intros Hc (H0 & Ha & Hb). split; [lia|split].
  - intros i Hi. destruct (Z.eq_dec i 0) as [->|Hne].
    + rewrite !Z.mul_0_l, !Z.add_0_r. exact Hc.
    + replace (r + i * dr) with (r + dr + (i - 1) * dr) by lia.
      replace (c + i * dc) with (c + dc + (i - 1) * dc) by lia.
      apply Ha. lia.
  - replace (r + (n + 1) * dr) with (r + dr + n * dr) by lia.
    replace (c + (n + 1) * dc) with (c + dc + n * dc) by lia. exact Hb.
Qed.

Lemma run_zero p r c dr dc : cell_at b r c <> Some p -> run p r c dr dc 0.
Proof.
  intros H. split; [lia|split]; [intros; lia|].
  rewrite !Z.mul_0_l, !Z.add_0_r. exact H.
Qed.

Local Abbreviation room := (room b cols).

Lemma count_loop_run (p : string) (dr dc : Z) :
  unit_step dr dc ->
  forall (fuel : nat) (r c count : Z),
    (inside r c -> room r c dr dc < Z.of_nat fuel) -> (0 < fuel)%nat ->
    exists n, run p r c dr dc n /\
              count_loop fuel b r c dr dc p rows tester_cols count = Ok (count + n).
Proof.
  intros Hd fuel. induction fuel as [|fuel IH]; intros r c count Hroom Hpos; [lia|].
  cbn [count_loop].
  destruct ((0 <=? r) && (r <? rows) && (0 <=? c) && (c <? tester_cols)) eqn:E.
  - assert (Hin : inside r c).
    { apply inside_tester. rewrite !andb_true_iff in E. lia. }
    destruct (board_get_inside r c Hin) as (x & Hx & Hget). rewrite Hget. cbn [bind].
    destruct (String.eqb_spec x p) as [->|Hne].
    + destruct (IH (r + dr) (c + dc) (count + 1)) as (n & Hrun & Hcount).
      * intros Hin'. specialize (Hroom Hin). unfold room, inside, rows in *.
        destruct Hd as (? & ? & ?).
        destruct (dr =? 1) eqn:E1; [lia|]. destruct (dr =? -1) eqn:E2; [lia|].
        apply Z.eqb_neq in E1, E2. assert (dr = 0) by lia. subst dr.
        destruct (dc =? 1) eqn:E3; lia.
      * specialize (Hroom Hin). unfold room, inside, rows in *.
        destruct Hd as (? & ? & ?).
        destruct (dr =? 1) eqn:E1; [lia|]. destruct (dr =? -1) eqn:E2; [lia|].
        destruct (dc =? 1) eqn:E3; lia.
      * exists (n + 1). split; [apply run_step; assumption|].
        rewrite Hcount. f_equal. lia.
    + exists 0. split; [apply run_zero; congruence|]. f_equal. lia.
  - exists 0. split; [|f_equal; lia]. apply run_zero.
    intros Hx. assert (Hin : inside r c) by (apply cell_at_inside; eauto).
    apply inside_tester in Hin. rewrite !andb_false_iff in E. lia.
Qed.

Lemma count_in_direction_run (p : string) (r c dr dc : Z) :
  unit_step dr dc ->
  exists n, run p (r + dr) (c + dc) dr dc n /\
            _count_in_direction b r c dr dc p rows tester_cols = Ok n.
Proof.
  intros Hd. unfold _count_in_direction.
  destruct (count_loop_run p dr dc Hd (S (Z.to_nat rows + Z.to_nat tester_cols))
              (r + dr) (c + dc) 0) as (n & Hrun & Hn); [| lia |].
  - intros [Hr Hc]. unfold room. fold rows.
    assert (tester_cols = Z.of_nat cols) as ->.
    { unfold tester_cols. fold rows. destruct (0 <? rows) eqn:E; [reflexivity|]. apply Z.ltb_ge in E. lia. }
    destruct (dr =? 1); [lia|]. destruct (dr =? -1); [lia|]. destruct (dc =? 1); lia.
  - exists n. split; [exact Hrun|]. rewrite Hn. f_equal.
Qed.
End Board.

(** * Loops that return *)

Lemma for_return_first {A B} (l : list A) (body : A -> res (option B))
    (P : A -> Prop) (g : A -> B) :
  (forall x, x ∈ l -> (P x /\ body x = Ok (Some (g x))) \/ (~ P x /\ body x = Ok None)) ->
  (exists x, x ∈ l /\ P x /\ for_return l body = Ok (Some (g x)))
  \/ ((forall x, x ∈ l -> ~ P x) /\ for_return l body = Ok None).
Proof.
  induction l as [|a l IH]; intros H.
  - right. split; [intros x Hx; inversion Hx|reflexivity].
  - cbn [for_return]. destruct (H a) as [[HP Hb]|[HP Hb]]; [left|..].
    + rewrite Hb. cbn [bind]. left. exists a. split; [left|]. auto.
    + rewrite Hb. cbn [bind]. destruct IH as [(x & Hx & HPx & Hr)|[Hnone Hr]].
      * intros x Hx. apply H. right. exact Hx.
      * left. exists x. split; [right; exact Hx|]. auto.
      * right. split; [|exact Hr]. intros x Hx. inversion Hx; subst; auto.
Qed.

Lemma for_return_const {A B} (l : list A) (body : A -> res (option B))
    (P : A -> Prop) (v : B) :
  (forall x, x ∈ l -> (P x /\ body x = Ok (Some v)) \/ (~ P x /\ body x = Ok None)) ->
  ((exists x, x ∈ l /\ P x) /\ for_return l body = Ok (Some v))
  \/ ((forall x, x ∈ l -> ~ P x) /\ for_return l body = Ok None).
Proof.
  intros H. destruct (for_return_first l body P (fun _ => v) H) as [(x & Hx & HP & Hr)|Hn].
  - left. split; [exists x; auto|exact Hr].
  - right. exact Hn.
Qed.

(** * The axes through a cell *)

Section Axes.
Variable b : list (list string).
Variable cols : nat.
Hypothesis Hrect : rectangular b cols.

Local Abbreviation axis_total := (axis_total b).

Lemma axis_total_unique p r c d t t' :
  axis_total p r c d t -> axis_total p r c d t' -> t = t'.
Proof.
  intros (nf & nb & Hf & Hb & ->) (nf' & nb' & Hf' & Hb' & ->).
  rewrite (run_unique _ _ _ _ _ _ _ _ Hf Hf'), (run_unique _ _ _ _ _ _ _ _ Hb Hb').
  reflexivity.
Qed.

Lemma directions_unit d : d ∈ directions -> unit_step d.1 d.2 /\ unit_step (- d.1) (- d.2).
Proof.
  unfold directions. rewrite !elem_of_cons, elem_of_nil.
  intros [->|[->|[->|[->|[]]]]]; unfold unit_step; simpl; lia.
Qed.

Lemma axis_count_total p r c d :
  d ∈ directions ->
  exists t, axis_total p r c d t /\
            axis_count b r c p (Z.of_nat (length b)) (tester_cols b cols) d = Ok t.
Proof.
  intros Hd. destruct (directions_unit d Hd) as [Hu Hu']. destruct d as [dr dc].
  simpl in *. unfold axis_count.
  destruct (count_in_direction_run b cols Hrect p r c dr dc Hu) as (nf & Hf & ->).
  destruct (count_in_direction_run b cols Hrect p r c (-dr) (-dc) Hu') as (nb & Hb & ->).
  cbn [bind]. exists (1 + nf + nb). split; [|reflexivity].
  exists nf, nb. simpl. split; [exact Hf|split; [|reflexivity]].
  replace (r - dr) with (r + - dr) by lia. replace (c - dc) with (c + - dc) by lia. exact Hb.
Qed.

(** ** Windows *)

Local Abbreviation window := (window b).

Local Abbreviation run_through := (run_through b).

Lemma axis_total_reaches p k r c d t :
  cell_at b r c = Some p ->
  axis_total p r c d t ->
  1 <= k ->
  (k <= t <-> run_through p k r c d).
Proof.
  intros Hc (nf & nb & (Hf0 & Hfa & Hfb) & (Hb0 & Hba & Hbb) & ->) Hk.
  destruct d as [dr dc]. simpl in *.
  assert (Hcell : forall o, - nb <= o <= nf -> cell_at b (r + o * dr) (c + o * dc) = Some p).
  { intros o Ho. destruct (Z.lt_trichotomy o 0) as [H|[->|H]].
    - specialize (Hba (- o - 1)).
      replace (r - dr + (- o - 1) * - dr) with (r + o * dr) in Hba by lia.
      replace (c - dc + (- o - 1) * - dc) with (c + o * dc) in Hba by lia.
      apply Hba. lia.
    - rewrite !Z.mul_0_l, !Z.add_0_r. exact Hc.
    - specialize (Hfa (o - 1)).
      replace (r + dr + (o - 1) * dr) with (r + o * dr) in Hfa by lia.
      replace (c + dc + (o - 1) * dc) with (c + o * dc) in Hfa by lia.
      apply Hfa. lia. }
  split.
  - intros Hle. exists (Z.min nb (k - 1)). split; [lia|].
    intros i Hi. simpl.
    replace (r - Z.min nb (k - 1) * dr + i * dr) with (r + (i - Z.min nb (k - 1)) * dr) by lia.
    replace (c - Z.min nb (k - 1) * dc + i * dc) with (c + (i - Z.min nb (k - 1)) * dc) by lia.
    apply Hcell. lia.
  - intros (j & Hj & Hw). unfold window in Hw. simpl in Hw.
    assert (j <= nb).
    { destruct (Z.le_gt_cases j nb) as [|Hgt]; [assumption|]. exfalso. apply Hbb.
      specialize (Hw (j - nb - 1)).
      replace (r - j * dr + (j - nb - 1) * dr) with (r - dr + nb * - dr) in Hw by lia.
      replace (c - j * dc + (j - nb - 1) * dc) with (c - dc + nb * - dc) in Hw by lia.
      apply Hw. lia. }
    assert (k - 1 - j <= nf).
    { destruct (Z.le_gt_cases (k - 1 - j) nf) as [|Hgt]; [assumption|]. exfalso. apply Hfb.
      specialize (Hw (j + nf + 1)).
      replace (r - j * dr + (j + nf + 1) * dr) with (r + dr + nf * dr) in Hw by lia.
      replace (c - j * dc + (j + nf + 1) * dc) with (c + dc + nf * dc) in Hw by lia.
      apply Hw. lia. }
    lia.
Qed.

(** ** The verdict for a last move *)

Local Abbreviation axis_reaches := (axis_reaches b).

Lemma check_axes p k r c :
  (axis_reaches p k r c /\
   for_return directions (fun d =>
     count <- axis_count b r c p (Z.of_nat (length b)) (tester_cols b cols) d;;
     if k <=? count then Ok (Some p) else Ok None) = Ok (Some p))
  \/ (~ axis_reaches p k r c /\
   for_return directions (fun d =>
     count <- axis_count b r c p (Z.of_nat (length b)) (tester_cols b cols) d;;
     if k <=? count then Ok (Some p) else Ok None) = Ok None).
Proof.
  match goal with |- (_ /\ for_return _ ?body = _) \/ _ =>
    destruct (for_return_const directions body
                (fun d => exists t, axis_total p r c d t /\ k <= t) p) as [[Hex Hr]|[Hno Hr]]
  end.
  - intros d Hd. destruct (axis_count_total p r c d Hd) as (t & Ht & ->). cbn [bind].
    destruct (k <=? t) eqn:E; [left|right]; (split; [|reflexivity]).
    + exists t. split; [exact Ht|]. apply Z.leb_le. exact E.
    + intros (t' & Ht' & Hle). rewrite (axis_total_unique _ _ _ _ _ _ Ht Ht') in E.
      apply Z.leb_gt in E. lia.
  - left. split; [|exact Hr]. destruct Hex as (d & Hd & t & Ht & Hle). exists d, t. auto.
  - right. split; [|exact Hr]. intros (d & t & Hd & Ht & Hle). apply (Hno d Hd). eauto.
Qed.

Lemma check_win_condition_last_move (w : string) (k r c : Z) (p : string) :
  cell_at b r c = Some p -> p = "X" \/ p = "O" ->
  check_win_condition (mkState b w) (Some (r, c)) k =
    Ok (if _is_board_full b then Some "draw" else None)
    /\ ~ axis_reaches p k r c
  \/ check_win_condition (mkState b w) (Some (r, c)) k = Ok (Some p)
    /\ axis_reaches p k r c.
Proof.
  intros Hc Hp. unfold check_win_condition. cbn [board].
  rewrite (tester_cols_eq b cols Hrect). cbn [bind].
  assert (Hin : inside b cols r c) by (apply cell_at_inside; eauto).
  destruct (board_get_inside b cols Hrect r c Hin) as (x & Hx & ->). cbn [bind].
  assert (x = p) by congruence. subst x.
  rewrite (proj2 (str_in_XO p) Hp). cbn [negb].
  destruct (check_axes p k r c) as [[Hyes ->]|[Hno ->]]; cbn [bind].
  - right. auto.
  - left. split; [|exact Hno]. destruct (_is_board_full b); reflexivity.
Qed.
End Axes.

(** * The full scan *)

Section Scan.
Variable b : list (list string).
Variable cols : nat.
Hypothesis Hrect : rectangular b cols.

Let rows : Z := Z.of_nat (length b).
Let tcols : Z := tester_cols b cols.

Lemma all_cells_inside (p : string) (cells : list (Z * Z)) :
  (forall rc, rc ∈ cells -> inside b cols rc.1 rc.2) ->
  (all_cells b p cells = Ok true /\ forall rc, rc ∈ cells -> cell_at b rc.1 rc.2 = Some p)
  \/ (all_cells b p cells = Ok false /\ ~ forall rc, rc ∈ cells -> cell_at b rc.1 rc.2 = Some p).
Proof.
  induction cells as [|[r c] cells IH]; intros Hin.
  - left. split; [reflexivity|]. intros rc Hrc. inversion Hrc.
  - cbn [all_cells].
    destruct (board_get_inside b cols Hrect r c (Hin (r, c) (list_elem_of_here _ _)))
      as (x & Hx & ->). cbn [bind].
    destruct (String.eqb_spec x p) as [->|Hne].
    + destruct IH as [[-> Hall]|[-> Hnot]].
      * intros rc Hrc. apply Hin. right. exact Hrc.
      * left. split; [reflexivity|]. intros rc Hrc. inversion Hrc; subst; auto.
      * right. split; [reflexivity|]. intros Hall. apply Hnot. intros rc Hrc.
        apply Hall. right. exact Hrc.
    + right. split; [reflexivity|]. intros Hall.
      specialize (Hall (r, c) (list_elem_of_here _ _)). simpl in Hall. congruence.
Qed.

(** One of the four tests at an origin: the guard [g], then the cells
    [f 0 .. f (k-1)]. *)
Lemma scan_direction (p : string) (k : Z) (g : bool) (f : Z -> Z * Z) :
  (g = true -> forall i, 0 <= i < k -> inside b cols (f i).1 (f i).2) ->
  ((if g then all_cells b p (map f (py_range k)) else Ok false) = Ok true
   /\ g = true /\ forall i, 0 <= i < k -> cell_at b (f i).1 (f i).2 = Some p)
  \/ ((if g then all_cells b p (map f (py_range k)) else Ok false) = Ok false
   /\ ~ (g = true /\ forall i, 0 <= i < k -> cell_at b (f i).1 (f i).2 = Some p)).
Proof.
  intros Hin. destruct g; [|right; split; [reflexivity|intros [? _]; discriminate]].
  destruct (all_cells_inside p (map f (py_range k))) as [[-> Hall]|[-> Hnot]].
  - intros rc Hrc. apply list_elem_of_fmap in Hrc as (i & -> & Hi).
    apply py_range_elem in Hi. apply Hin; auto.
  - left. split; [reflexivity|split; [reflexivity|]]. intros i Hi.
    apply (Hall (f i)). apply list_elem_of_fmap. exists i. split; [reflexivity|].
    apply py_range_elem. exact Hi.
  - right. split; [reflexivity|]. intros [_ Hall]. apply Hnot. intros rc Hrc.
    apply list_elem_of_fmap in Hrc as (i & -> & Hi). apply py_range_elem in Hi. auto.
Qed.

Local Abbreviation win_at := (win_at b cols).

Local Abbreviation scan_cell := (scan_cell b cols).

Lemma scan_cell_spec (k : Z) (p : string) (row col : Z) :
  inside b cols row col ->
  (win_at k p row col /\ scan_cell k p row col = Ok (Some p))
  \/ (~ win_at k p row col /\ scan_cell k p row col = Ok None).
Proof.
  intros Hin. unfold scan_cell, win_at. fold rows. fold tcols.
  destruct (board_get_inside b cols Hrect row col Hin) as (x & Hx & ->). cbn [bind].
  destruct (String.eqb_spec x p) as [->|Hne];
    [|right; split; [intros [? _]; congruence|reflexivity]].
  assert (Htc : tcols = Z.of_nat cols).
  { unfold tcols, tester_cols. destruct Hin as [Hr _].
    destruct (0 <? Z.of_nat (length b)) eqn:E; [reflexivity|]. apply Z.ltb_ge in E. lia. }
  destruct Hin as [Hr Hc]. fold rows in Hr.
  destruct (scan_direction p k (col + k <=? tcols) (fun i => (row, col + i)))
    as [(-> & Hg & Hall)|(-> & Hno1)]; cbn [bind].
  { intros Hg i Hi. apply Z.leb_le in Hg. split; simpl; fold rows; lia. }
  { left. split; [|reflexivity]. split; [exact Hx|]. left. apply Z.leb_le in Hg. auto. }
  destruct (scan_direction p k (row + k <=? rows) (fun i => (row + i, col)))
    as [(-> & Hg & Hall)|(-> & Hno2)]; cbn [bind].
  { intros Hg i Hi. apply Z.leb_le in Hg. split; simpl; fold rows; lia. }
  { left. split; [|reflexivity]. split; [exact Hx|]. right; left. apply Z.leb_le in Hg. auto. }
  destruct (scan_direction p k ((row + k <=? rows) && (col + k <=? tcols))
              (fun i => (row + i, col + i)))
    as [(-> & Hg & Hall)|(-> & Hno3)]; cbn [bind].
  { intros Hg i Hi. apply andb_true_iff in Hg as [Hg1 Hg2].
    apply Z.leb_le in Hg1, Hg2. split; simpl; fold rows; lia. }
  { left. split; [|reflexivity]. split; [exact Hx|]. right; right; left.
    apply andb_true_iff in Hg as [Hg1 Hg2]. apply Z.leb_le in Hg1, Hg2. auto. }
  destruct (scan_direction p k ((row + k <=? rows) && (0 <=? col - k + 1))
              (fun i => (row + i, col - i)))
    as [(-> & Hg & Hall)|(-> & Hno4)]; cbn [bind].
  { intros Hg i Hi. apply andb_true_iff in Hg as [Hg1 Hg2].
    apply Z.leb_le in Hg1, Hg2. split; simpl; fold rows; lia. }
  { left. split; [|reflexivity]. split; [exact Hx|]. right; right; right.
    apply andb_true_iff in Hg as [Hg1 Hg2]. apply Z.leb_le in Hg1, Hg2. auto. }
  right. split; [|reflexivity]. intros [_ [[Hg Hall]|[[Hg Hall]|[[Hg Hall]|[Hg Hall]]]]].
  - apply Hno1. split; [apply Z.leb_le; exact Hg|exact Hall].
  - apply Hno2. split; [apply Z.leb_le; exact Hg|exact Hall].
  - apply Hno3. split; [|exact Hall]. apply andb_true_iff. split; apply Z.leb_le; lia.
  - apply Hno4. split; [|exact Hall]. apply andb_true_iff. split; apply Z.leb_le; lia.
Qed.

Local Abbreviation scan_finds := (scan_finds b cols).

Lemma scan_player (k : Z) (p : string) :
  (scan_finds k p /\
   for_return (py_range rows) (fun row =>
     for_return (py_range tcols) (fun col => scan_cell k p row col)) = Ok (Some p))
  \/ (~ scan_finds k p /\
   for_return (py_range rows) (fun row =>
     for_return (py_range tcols) (fun col => scan_cell k p row col)) = Ok None).
Proof.
  match goal with |- (_ /\ for_return _ ?body = _) \/ _ =>
    destruct (for_return_const (py_range rows) body
                (fun row => exists col, inside b cols row col /\ win_at k p row col) p)
      as [[Hex Hr]|[Hno Hr]]
  end.
  - intros row Hrow. apply py_range_elem in Hrow.
    destruct (for_return_const (py_range tcols) (fun col => scan_cell k p row col)
                (fun col => win_at k p row col) p) as [[Hex Hr]|[Hno Hr]].
    + intros col Hcol. apply py_range_elem in Hcol. apply scan_cell_spec.
      apply inside_tester. fold rows tcols. lia.
    + left. split; [|exact Hr]. destruct Hex as (col & Hcol & Hw). exists col.
      split; [|exact Hw]. apply py_range_elem in Hcol. apply inside_tester.
      fold rows tcols. lia.
    + right. split; [|exact Hr]. intros (col & Hin & Hw). apply (Hno col); [|exact Hw].
      apply py_range_elem. apply inside_tester in Hin. fold rows tcols in Hin. lia.
  - left. split; [|exact Hr]. destruct Hex as (row & _ & col & Hin & Hw). exists row, col. auto.
  - right. split; [|exact Hr]. intros (row & col & Hin & Hw). apply (Hno row).
    + apply py_range_elem. destruct Hin as [? _]. exact H.
    + exists col. auto.
Qed.

Lemma check_full_board_spec (k : Z) :
  (scan_finds k "X" /\ _check_full_board b k = Ok (Some "X"))
  \/ (~ scan_finds k "X" /\ scan_finds k "O" /\ _check_full_board b k = Ok (Some "O"))
  \/ (~ scan_finds k "X" /\ ~ scan_finds k "O" /\
      _check_full_board b k = Ok (if _is_board_full b then Some "draw" else None)).
Proof.
  unfold _check_full_board. rewrite (tester_cols_eq b cols Hrect). cbn [bind].
  fold rows tcols. cbn [for_return]. fold (scan_cell k "X"). fold (scan_cell k "O").
  destruct (scan_player k "X") as [[HX HrX]|[HX HrX]].
  - left. split; [exact HX|]. unfold scan_cell, rows, tcols in *. rewrite HrX. reflexivity.
  - right. destruct (scan_player k "O") as [[HO HrO]|[HO HrO]].
    + left. split; [exact HX|split; [exact HO|]]. unfold scan_cell, rows, tcols in *.
      rewrite HrX. cbn [bind]. rewrite HrO. reflexivity.
    + right. split; [exact HX|split; [exact HO|]]. unfold scan_cell, rows, tcols in *.
      rewrite HrX. cbn [bind]. rewrite HrO. cbn [bind].
      destruct (_is_board_full b); reflexivity.
Qed.
End Scan.


(** * The effect of a legal move *)

Lemma apply_move_legal st r c :
  legal st (r, c) ->
  apply_move st (r, c) =
    Ok {| board := place (board st) (Z.to_nat r) (Z.to_nat c) (whose_move st);
          whose_move := other_side (whose_move st) |}.
Proof.
  intros Hl. unfold legal in Hl. simpl in Hl.
  destruct (cell_at_Some _ _ _ _ Hl) as (Hr & Hc & row & Hrow & Hcell & Hlt).
  assert (Hget : board_get (board st) r c = Ok " ").
  { rewrite board_get_cell_at by lia. rewrite Hl. reflexivity. }
  destruct (apply_move_empty _ _ _ Hget) as (row0 & row' & b' & H1 & H2 & H3 & ->).
  rewrite py_index_nonneg in H1 by lia. rewrite Hrow in H1. injection H1 as <-.
  rewrite py_setitem_nonneg in H2 by lia. injection H2 as <-.
  rewrite py_setitem_nonneg in H3 by lia. injection H3 as <-.
  unfold place. rewrite Hrow. reflexivity.
Qed.

Lemma cell_at_place b r c tok r' c' :
  0 <= r -> 0 <= c -> (exists x, cell_at b r c = Some x) ->
  cell_at (place b (Z.to_nat r) (Z.to_nat c) tok) r' c' =
    if bool_decide (r' = r /\ c' = c) then Some tok else cell_at b r' c'.
Proof.
  intros Hr Hc [x Hx]. destruct (cell_at_Some _ _ _ _ Hx) as (Hr' & _ & row & Hrow & Hcell & Hlt).
  unfold place. rewrite Hrow. unfold cell_at.
  destruct (0 <=? r') eqn:E1; destruct (0 <=? c') eqn:E2; simpl;
    try (case_bool_decide as Hd; [destruct Hd; subst; lia||(apply Z.leb_gt in E1; lia)
                                   ||(apply Z.leb_gt in E2; lia)|reflexivity]).
  apply Z.leb_le in E1, E2.
  destruct (decide (Z.to_nat r' = Z.to_nat r)) as [Heq|Hne].
  - rewrite Heq. rewrite list_lookup_insert_eq by lia. rewrite Hrow.
    destruct (decide (Z.to_nat c' = Z.to_nat c)) as [Heq'|Hne'].
    + rewrite Heq'. rewrite list_lookup_insert_eq by lia.
      rewrite bool_decide_eq_true_2 by lia. reflexivity.
    + rewrite list_lookup_insert_ne by auto.
      rewrite bool_decide_eq_false_2 by lia. reflexivity.
  - rewrite list_lookup_insert_ne by auto.
    rewrite bool_decide_eq_false_2 by lia. reflexivity.
Qed.

Lemma place_length b r c tok : length (place b r c tok) = length b.
Proof. unfold place. destruct (b !! r); [apply length_insert|reflexivity]. Qed.

Lemma place_rectangular b cols r c tok :
  rectangular b cols -> rectangular (place b r c tok) cols.
Proof.
  intros H. unfold place. destruct (b !! r) as [row|] eqn:Hrow; [|exact H].
  unfold rectangular in *. apply Forall_insert; [exact H|].
  rewrite length_insert. eapply Forall_forall in H; [exact H|].
  eapply list_elem_of_lookup_2; eauto.
Qed.

(** * Runs found by the scan are windows *)

Section Windows.
Variable b : list (list string).
Variable cols : nat.
Hypothesis Hrect : rectangular b cols.

Lemma tester_cols_inside r c : inside b cols r c -> tester_cols b cols = Z.of_nat cols.
Proof.
  intros [Hr _]. unfold tester_cols.
  destruct (0 <? Z.of_nat (length b)) eqn:E; [reflexivity|]. apply Z.ltb_ge in E. lia.
Qed.

Lemma window_win_at p k r c d :
  1 <= k -> d ∈ directions -> window b p k r c d ->
  inside b cols r c /\ win_at b cols k p r c.
Proof.
  intros Hk Hd Hw.
  assert (H0 : cell_at b r c = Some p).
  { specialize (Hw 0). rewrite !Z.mul_0_l, !Z.add_0_r in Hw. apply Hw. lia. }
  assert (Hin : inside b cols r c) by (apply cell_at_inside; eauto).
  assert (Hlast : inside b cols (r + (k - 1) * d.1) (c + (k - 1) * d.2)).
  { apply cell_at_inside; [assumption|]. exists p. apply Hw. lia. }
  split; [exact Hin|]. split; [exact H0|].
  rewrite (tester_cols_inside r c Hin).
  unfold directions in Hd. rewrite !elem_of_cons, elem_of_nil in Hd.
  unfold window in Hw. destruct Hlast as [Hlr Hlc].
  destruct Hd as [->|[->|[->|[->|[]]]]]; simpl in *.
  - left. split; [lia|]. intros i Hi. specialize (Hw i Hi).
    replace (r + i * 0) with r in Hw by lia. replace (c + i * 1) with (c + i) in Hw by lia.
    exact Hw.
  - right; left. split; [lia|]. intros i Hi. specialize (Hw i Hi).
    replace (r + i * 1) with (r + i) in Hw by lia. replace (c + i * 0) with c in Hw by lia.
    exact Hw.
  - right; right; left. split; [lia|]. intros i Hi. specialize (Hw i Hi).
    replace (r + i * 1) with (r + i) in Hw by lia. replace (c + i * 1) with (c + i) in Hw by lia.
    exact Hw.
  - right; right; right. split; [lia|]. intros i Hi. specialize (Hw i Hi).
    replace (r + i * 1) with (r + i) in Hw by lia. replace (c + i * -1) with (c - i) in Hw by lia.
    exact Hw.
Qed.

Lemma win_at_window p k r c :
  win_at b cols k p r c -> exists d, d ∈ directions /\ window b p k r c d.
Proof.
  intros [_ [[_ H]|[[_ H]|[[_ H]|[_ H]]]]].
  - exists (0, 1). split; [unfold directions; set_solver|]. intros i Hi. simpl.
    replace (r + i * 0) with r by lia. replace (c + i * 1) with (c + i) by lia. auto.
  - exists (1, 0). split; [unfold directions; set_solver|]. intros i Hi. simpl.
    replace (r + i * 1) with (r + i) by lia. replace (c + i * 0) with c by lia. auto.
  - exists (1, 1). split; [unfold directions; set_solver|]. intros i Hi. simpl.
    replace (r + i * 1) with (r + i) by lia. replace (c + i * 1) with (c + i) by lia. auto.
  - exists (1, -1). split; [unfold directions; set_solver|]. intros i Hi. simpl.
    replace (r + i * 1) with (r + i) by lia. replace (c + i * -1) with (c - i) by lia. auto.
Qed.

Lemma scan_finds_has_run p k : 1 <= k -> (scan_finds b cols k p <-> has_run b p k).
Proof.
  intros Hk. split.
  - intros (r & c & _ & Hw). destruct (win_at_window p k r c Hw) as (d & Hd & Hwin).
    exists r, c, d. auto.
  - intros (r & c & d & Hd & Hw). exists r, c. eapply window_win_at; eauto.
Qed.

(** For [k <= 0] the scan stops at the first piece. *)
Lemma win_at_nonpos p k r c :
  k <= 0 -> inside b cols r c -> cell_at b r c = Some p -> win_at b cols k p r c.
Proof.
  intros Hk Hin Hc. split; [exact Hc|]. left.
  rewrite (tester_cols_inside r c Hin). destruct Hin as [_ ?]. split; [lia|]. intros; lia.
Qed.

Lemma axis_reaches_nonpos p k r c : k <= 0 -> axis_reaches b p k r c.
Proof.
  intros Hk.
  destruct (axis_count_total b cols Hrect p r c (0, 1)) as (t & Ht & _);
    [unfold directions; set_solver|].
  exists (0, 1), t. split; [unfold directions; set_solver|]. split; [exact Ht|].
  destruct Ht as (nf & nb & (? & _) & (? & _) & ->). lia.
Qed.

Lemma axis_reaches_run_through p k r c :
  1 <= k -> cell_at b r c = Some p ->
  (axis_reaches b p k r c <-> exists d, d ∈ directions /\ run_through b p k r c d).
Proof.
  intros Hk Hc. split.
  - intros (d & t & Hd & Ht & Hle). exists d. split; [exact Hd|].
    eapply axis_total_reaches; eauto.
  - intros (d & Hd & Hrt).
    destruct (axis_count_total b cols Hrect p r c d Hd) as (t & Ht & _).
    exists d, t. split; [exact Hd|]. split; [exact Ht|].
    eapply axis_total_reaches; eauto.
Qed.
End Windows.

(** * A piece put on a quiet board *)

Section AfterMove.
Variable b : list (list string).
Variable cols : nat.
Hypothesis Hrect : rectangular b cols.
Variables (r c : Z) (p : string) (k : Z).
Hypothesis Hempty : cell_at b r c = Some " ".
Hypothesis Hp : p = "X" \/ p = "O".

Let b' := place b (Z.to_nat r) (Z.to_nat c) p.

Lemma after_rect : rectangular b' cols.
Proof. apply place_rectangular. exact Hrect. Qed.

Lemma after_cell r' c' :
  cell_at b' r' c' = if bool_decide (r' = r /\ c' = c) then Some p else cell_at b r' c'.
Proof.
  destruct (cell_at_Some _ _ _ _ Hempty) as (? & ? & _).
  apply cell_at_place; [lia|lia|eauto].
Qed.

Lemma after_here : cell_at b' r c = Some p.
Proof. rewrite after_cell. rewrite bool_decide_eq_true_2; auto. Qed.

Lemma after_inside r' c' : inside b' cols r' c' <-> inside b cols r' c'.
Proof. unfold inside, b'. rewrite place_length. tauto. Qed.

Lemma piece_not_space : p <> " ".
Proof. destruct Hp; subst; discriminate. Qed.

Lemma reaches_then_found : axis_reaches b' p k r c -> scan_finds b' cols k p.
Proof.
  intros Hreach. destruct (Z.le_gt_cases k 0) as [Hk|Hk].
  - exists r, c. assert (inside b' cols r c).
    { apply cell_at_inside; [apply after_rect|]. exists p. apply after_here. }
    split; [assumption|]. apply win_at_nonpos; auto using after_here.
  - apply (axis_reaches_run_through b' cols after_rect p k r c) in Hreach;
      [|lia|apply after_here].
    destruct Hreach as (d & Hd & j & Hj & Hw).
    exists (r - j * d.1), (c - j * d.2).
    eapply window_win_at; eauto using after_rect. lia.
Qed.

Lemma found_then_reaches q :
  q = "X" \/ q = "O" -> quiet b cols k ->
  scan_finds b' cols k q -> q = p /\ axis_reaches b' p k r c.
Proof.
  intros Hq Hquiet (row & col & Hin & Hw).
  assert (Hnot : ~ scan_finds b cols k q) by (destruct Hquiet, Hq; subst; assumption).
  destruct (Z.le_gt_cases k 0) as [Hk|Hk].
  - split; [|apply (axis_reaches_nonpos b' cols after_rect); exact Hk].
    destruct Hw as [Hcell _]. rewrite after_cell in Hcell.
    case_bool_decide as Hd; [congruence|].
    exfalso. apply Hnot. exists row, col. split; [apply after_inside; exact Hin|].
    apply win_at_nonpos; auto. apply after_inside; exact Hin.
  - destruct (win_at_window b' cols after_rect q k row col Hw) as (d & Hd & Hwin).
    set (i0 := if d.1 =? 1 then r - row else c - col).
    destruct (decide (0 <= i0 < k /\ row + i0 * d.1 = r /\ col + i0 * d.2 = c))
      as [(Hi0 & Hr0 & Hc0)|Hmiss].
    + assert (q = p).
      { specialize (Hwin i0 Hi0). rewrite Hr0, Hc0, after_here in Hwin. congruence. }
      subst q. split; [reflexivity|].
      apply (axis_reaches_run_through b' cols after_rect p k r c); [lia|apply after_here|].
      exists d. split; [exact Hd|]. exists i0. split; [exact Hi0|].
      replace (r - i0 * d.1) with row by lia. replace (c - i0 * d.2) with col by lia.
      exact Hwin.
    + exfalso. apply Hnot. apply (scan_finds_has_run b cols Hrect q k); [lia|].
      exists row, col, d. split; [exact Hd|]. intros i Hi.
      specialize (Hwin i Hi). rewrite after_cell in Hwin.
      case_bool_decide as Hhit; [|exact Hwin].
      exfalso. apply Hmiss. destruct Hhit as [Hr1 Hc1].
      assert (i = i0).
      { unfold i0. unfold directions in Hd. rewrite !elem_of_cons, elem_of_nil in Hd.
        destruct Hd as [->|[->|[->|[->|[]]]]]; simpl in *; lia. }
      subst i. auto.
Qed.

(** Both forms of the win test give the same verdict on the new board. *)
Lemma tests_agree_after (w : string) :
  quiet b cols k ->
  check_win_condition (mkState b' w) (Some (r, c)) k =
  check_win_condition (mkState b' w) None k.
Proof.
  intros Hquiet.
  assert (HnX := fun H => found_then_reaches "X" (or_introl eq_refl) Hquiet H).
  assert (HnO := fun H => found_then_reaches "O" (or_intror eq_refl) Hquiet H).
  destruct (check_win_condition_last_move b' cols after_rect w k r c p after_here Hp)
    as [[-> Hno]|[-> Hyes]];
  unfold check_win_condition; cbn [board];
  rewrite (tester_cols_eq b' cols after_rect); cbn [bind];
  destruct (check_full_board_spec b' cols after_rect k)
    as [[HX ->]|[(HX & HO & ->)|(HX & HO & ->)]]; try reflexivity.
  - exfalso. apply Hno. apply HnX. exact HX.
  - exfalso. apply Hno. apply HnO. exact HO.
  - destruct (HnX HX) as [<- _]. reflexivity.
  - destruct (HnO HO) as [<- _]. reflexivity.
  - exfalso. apply reaches_then_found in Hyes. destruct Hp; subst; tauto.
Qed.

Lemma quiet_after (w : string) :
  quiet b cols k ->
  check_win_condition (mkState b' w) (Some (r, c)) k = Ok None ->
  quiet b' cols k.
Proof.
  intros Hquiet Hnone.
  assert (Hno : ~ axis_reaches b' p k r c).
  { destruct (check_win_condition_last_move b' cols after_rect w k r c p after_here Hp)
      as [[_ Hno]|[Heq _]]; [exact Hno|].
    rewrite Heq in Hnone. destruct Hp; subst; discriminate. }
  split; intros Hf; apply Hno.
  - apply (found_then_reaches "X"); auto.
  - apply (found_then_reaches "O"); auto.
Qed.
End AfterMove.


(** * Play, as [OfflineGameMaster.play_move] drives it *)

Lemma cell_at_elem b r c x : cell_at b r c = Some x -> exists row, row ∈ b /\ x ∈ row.
Proof.
  intros H. apply cell_at_Some in H as (_ & _ & row & Hrow & Hx & _).
  exists row. split; eapply list_elem_of_lookup_2; eauto.
Qed.

Lemma elem_cell_at b row x : row ∈ b -> x ∈ row -> exists r c, cell_at b r c = Some x.
Proof.
  intros Hrow Hx. apply list_elem_of_lookup_1 in Hrow as [i Hi].
  apply list_elem_of_lookup_1 in Hx as [j Hj].
  exists (Z.of_nat i), (Z.of_nat j). unfold cell_at.
  destruct (0 <=? Z.of_nat i) eqn:E1; [|apply Z.leb_gt in E1; lia].
  destruct (0 <=? Z.of_nat j) eqn:E2; [|apply Z.leb_gt in E2; lia]. simpl.
  rewrite !Nat2Z.id, Hi. exact Hj.
Qed.

Lemma other_side_piece w : other_side w = "X" \/ other_side w = "O".
Proof. unfold other_side. destruct (w =s? "X"); auto. Qed.

Lemma played_invariant k st last :
  played k st last ->
  exists cols, rectangular (board st) cols
    /\ (whose_move st = "X" \/ whose_move st = "O")
    /\ (still_on k st last -> quiet (board st) cols k).
Proof.
  induction 1 as [st (Hrect & Hnone & Hw)|st last mv st' Hplayed IH Hon Hlegal Happly].
  - destruct Hrect as [cols Hrect]. exists cols. split; [exact Hrect|]. split; [exact Hw|].
    intros _. split; intros (r & c & _ & Hcell & _);
      apply cell_at_elem in Hcell as (row & Hrow & Hx);
      rewrite Forall_forall in Hnone; specialize (Hnone row Hrow);
      rewrite Forall_forall in Hnone; specialize (Hnone _ Hx); tauto.
  - destruct IH as (cols & Hrect & Hw & Hquiet). specialize (Hquiet Hon).
    destruct mv as [r c]. rewrite (apply_move_legal _ _ _ Hlegal) in Happly.
    injection Happly as <-. cbn [board whose_move].
    exists cols. split; [apply place_rectangular; exact Hrect|].
    split; [apply other_side_piece|]. intros Hstill. simpl in Hstill.
    eapply quiet_after; eauto.
Qed.

(** C3: in every state that play reaches, the win test told the move just
    played and the full scan, which is told no move, return the same
    verdict. *)
Theorem win_tests_agree (k : Z) (st : State) (mv : Move) :
  played k st (Some mv) ->
  check_win_condition st (Some mv) k = check_win_condition st None k.
Proof.
  intros Hplayed. inversion Hplayed as [|st0 last mv0 st1 Hprev Hon Hlegal Happly]; subst.
  destruct (played_invariant _ _ _ Hprev) as (cols & Hrect & Hw & Hquiet).
  specialize (Hquiet Hon). destruct mv as [r c].
  rewrite (apply_move_legal _ _ _ Hlegal) in Happly. injection Happly as <-.
  eapply tests_agree_after; eauto.
Qed.

Lemma played_first_move :
  played 3 (mkState [[" "; " "; " "]; [" "; "X"; " "]; [" "; " "; " "]] "O") (Some (1, 1)).
Proof.
  apply (played_move 3 empty3 None (1, 1)).
  - apply played_start. split; [exists 3%nat; repeat constructor|].
    split; [repeat constructor; discriminate|left; reflexivity].
  - exact I.
  - reflexivity.
  - reflexivity.
Defined.

Lemma win_tests_agree_witness :
  check_win_condition (mkState [[" "; " "; " "]; [" "; "X"; " "]; [" "; " "; " "]] "O")
                      (Some (1, 1)) 3
  = check_win_condition (mkState [[" "; " "; " "]; [" "; "X"; " "]; [" "; " "; " "]] "O") None 3.
Proof. apply (win_tests_agree 3 _ (1, 1)). exact played_first_move. Defined.

(** C4: told the move just played, on a cell holding the mover's piece [p],
    the win tester takes the four axes through that cell, adds on each the
    cell itself, the run of [p] forward and the run of [p] backward, and
    reports [p] as the winner exactly when one of the four totals is at
    least [k]. *)
Theorem last_move_win_iff_axis_reaches (st : State) (cols : nat) (k r c : Z) (p : string) :
  rectangular (board st) cols ->
  cell_at (board st) r c = Some p ->
  p = "X" \/ p = "O" ->
  (check_win_condition st (Some (r, c)) k = Ok (Some p)
   <-> exists d t, d ∈ directions /\ axis_total (board st) p r c d t /\ k <= t).
Proof.
  intros Hrect Hc Hp. destruct st as [b w]. cbn [board] in *.
  destruct (check_win_condition_last_move b cols Hrect w k r c p Hc Hp) as [[-> Hno]|[-> Hyes]].
  - split; [|intros H; exfalso; apply Hno; exact H].
    destruct (_is_board_full b), Hp; subst; discriminate.
  - split; [intros _; exact Hyes|reflexivity].
Qed.

Lemma last_move_win_iff_axis_reaches_witness :
  check_win_condition (mkState [["X"; "X"; "X"]; ["O"; "O"; " "]; [" "; " "; " "]] "O")
                      (Some (0, 2)) 3 = Ok (Some "X")
  <-> exists d t, d ∈ directions /\
        axis_total [["X"; "X"; "X"]; ["O"; "O"; " "]; [" "; " "; " "]] "X" 0 2 d t /\ 3 <= t.
Proof.
  apply (last_move_win_iff_axis_reaches
           (mkState [["X"; "X"; "X"]; ["O"; "O"; " "]; [" "; " "; " "]] "O") 3 3 0 2 "X").
  - repeat constructor.
  - reflexivity.
  - left; reflexivity.
Defined.

(** * Draws *)

Lemma is_board_full_spec b : _is_board_full b = true <-> no_open_square b.
Proof.
  unfold _is_board_full, no_open_square. rewrite forallb_forall. split.
  - intros H row x Hrow Hx. apply list_elem_of_In in Hrow. specialize (H row Hrow).
    rewrite forallb_forall in H. apply list_elem_of_In in Hx. specialize (H x Hx).
    destruct (String.eqb_spec x " "), (String.eqb_spec x "-"); simpl in H;
      try discriminate; auto.
  - intros H row Hrow. apply forallb_forall. intros x Hx.
    apply list_elem_of_In in Hrow, Hx. destruct (H row x Hrow Hx).
    destruct (String.eqb_spec x " "), (String.eqb_spec x "-"); simpl; congruence.
Qed.

Lemma for_return_some {A B} (l : list A) (body : A -> res (option B)) (v : B) :
  for_return l body = Ok (Some v) -> exists x, x ∈ l /\ body x = Ok (Some v).
Proof.
  induction l as [|x l IH]; intros H; cbn [for_return] in H; [discriminate|].
  apply bind_ok in H as (r & Hx & H). destruct r as [w|].
  - injection H as ->. exists x. split; [left|exact Hx].
  - destruct (IH H) as (y & Hy & Hb). exists y. split; [right; exact Hy|exact Hb].
Qed.

(** On a board with a forbidden square the tester never reports a draw,
    with or without a last move, whatever the board holds otherwise. *)
Lemma forbidden_square_never_draw (st : State) (mv : option Move) (k : Z) :
  has_forbidden (board st) -> check_win_condition st mv k <> Ok (Some "draw").
Proof.
  intros (row & Hrow & Hcell) H.
  assert (Hfull : _is_board_full (board st) = false).
  { destruct (_is_board_full (board st)) eqn:E; [|reflexivity].
    apply is_board_full_spec in E. destruct (E row "-" Hrow Hcell) as [_ Hn]. congruence. }
  unfold check_win_condition in H. apply bind_ok in H as (cols & _ & H).
  destruct mv as [[r c]|].
  - apply bind_ok in H as (player & _ & H).
    destruct (str_in player ["X"; "O"]) eqn:Ein; cbn [negb] in H; [|discriminate].
    apply bind_ok in H as (won & Hwon & H). destruct won as [p|].
    + injection H as ->. apply for_return_some in Hwon as (d & _ & Hd).
      apply bind_ok in Hd as (count & _ & Hd). destruct (k <=? count); [|discriminate].
      injection Hd as ->. discriminate Ein.
    + rewrite Hfull in H. discriminate.
  - unfold _check_full_board in H. apply bind_ok in H as (cols' & _ & H).
    apply bind_ok in H as (won & Hwon & H). destruct won as [p|].
    + injection H as ->. apply for_return_some in Hwon as (player & Hpl & Hrows).
      assert (Hp : player <> "draw").
      { rewrite !elem_of_cons, elem_of_nil in Hpl. destruct Hpl as [->|[->|[]]]; discriminate. }
      apply for_return_some in Hrows as (r & _ & Hcols).
      apply for_return_some in Hcols as (c & _ & Hb).
      apply bind_ok in Hb as (cell & _ & Hb). destruct (cell =s? player); [|discriminate].
      apply bind_ok in Hb as (h & _ & Hb). destruct h; [congruence|].
      apply bind_ok in Hb as (v & _ & Hb). destruct v; [congruence|].
      apply bind_ok in Hb as (d & _ & Hb). destruct d; [congruence|].
      apply bind_ok in Hb as (a & _ & Hb). destruct a; [congruence|discriminate].
    + rewrite Hfull in H. discriminate.
Qed.

Lemma played_next (k : Z) (st : State) (last : option Move) (mv : Move) :
  played k st last -> still_on k st last -> legal st mv -> played k (moved st mv) (Some mv).
Proof.
  intros Hp Hon Hl. apply (played_move k st last mv); [exact Hp|exact Hon|exact Hl|].
  destruct mv as [r c]. apply apply_move_legal. exact Hl.
Qed.

(** C5: the tester at a state that play reaches from the 3 by 3 board with a
    forbidden middle square: the eight other squares are filled, no square
    is empty, neither player has three in a row, and no move is left. The
    claim says Draw. [_is_board_full] counts the forbidden square as open
    (against its docstring, which speaks of empty spaces), so the tester
    answers, for the last move and for the full scan alike, that the game
    goes on. *)
Theorem filled_board_with_forbidden_square_is_no_draw :
  played 3 (mkState board_hole_full "X") (Some (2, 2))
  /\ no_empty_square board_hole_full
  /\ ~ has_run board_hole_full "X" 3 /\ ~ has_run board_hole_full "O" 3
  /\ get_available_moves (mkState board_hole_full "X") = Ok []
  /\ _is_board_full board_hole_full = false
  /\ check_win_condition (mkState board_hole_full "X") (Some (2, 2)) 3 = Ok None
  /\ check_win_condition (mkState board_hole_full "X") None 3 = Ok None.
Proof.
  assert (Hrect : rectangular board_hole_full 3) by repeat constructor.
  assert (Hscan : _check_full_board board_hole_full 3 = Ok None) by reflexivity.
  split; [|split; [|split; [|split; [|repeat split]]]]; try reflexivity.
  - assert (Hstart : initial hole3).
    { split; [exists 3%nat; repeat constructor|].
      split; [repeat constructor; discriminate|left; reflexivity]. }
    pose proof (played_start 3 hole3 Hstart) as H.
    apply (played_next 3 _ _ (0, 0)) in H; [|exact I|reflexivity].
    apply (played_next 3 _ _ (0, 2)) in H; [|reflexivity|reflexivity].
    apply (played_next 3 _ _ (0, 1)) in H; [|reflexivity|reflexivity].
    apply (played_next 3 _ _ (1, 0)) in H; [|reflexivity|reflexivity].
    apply (played_next 3 _ _ (1, 2)) in H; [|reflexivity|reflexivity].
    apply (played_next 3 _ _ (2, 1)) in H; [|reflexivity|reflexivity].
    apply (played_next 3 _ _ (2, 0)) in H; [|reflexivity|reflexivity].
    apply (played_next 3 _ _ (2, 2)) in H; [|reflexivity|reflexivity].
    exact H.
  - intros row x Hrow Hx. unfold board_hole_full in Hrow.
    rewrite !elem_of_cons, elem_of_nil in Hrow.
    destruct Hrow as [->|[->|[->|[]]]]; rewrite !elem_of_cons, elem_of_nil in Hx;
      destruct Hx as [->|[->|[->|[]]]]; discriminate.
  - intros Hrun. apply (scan_finds_has_run _ 3%nat Hrect "X" 3) in Hrun; [|lia].
    destruct (check_full_board_spec board_hole_full 3 Hrect 3)
      as [[_ H]|[(_ & _ & H)|(HX & _ & _)]]; [congruence|congruence|tauto].
  - intros Hrun. apply (scan_finds_has_run _ 3%nat Hrect "O" 3) in Hrun; [|lia].
    destruct (check_full_board_spec board_hole_full 3 Hrect 3)
      as [[_ H]|[(_ & _ & H)|(_ & HO & _)]]; [congruence|congruence|tauto].
Qed.


(** * The static evaluation, as the design document words it *)

(** * Sums *)

Lemma sumZ_app {A} (f : A -> Z) l1 l2 : sumZ f (l1 ++ l2) = sumZ f l1 + sumZ f l2.
Proof. induction l1 as [|x l1 IH]; simpl; [reflexivity|]. rewrite IH. lia. Qed.

Lemma sumZ_flat_map {A B} (f : B -> Z) (g : A -> list B) l :
  sumZ f (flat_map g l) = sumZ (fun x => sumZ f (g x)) l.
Proof. induction l as [|x l IH]; simpl; [reflexivity|]. rewrite sumZ_app, IH. reflexivity. Qed.

Lemma sumZ_map {A B} (f : B -> Z) (g : A -> B) l : sumZ f (map g l) = sumZ (fun x => f (g x)) l.
Proof. induction l as [|x l IH]; simpl; [reflexivity|]. rewrite IH. reflexivity. Qed.

Lemma sumZ_ext {A} (f g : A -> Z) l : (forall x, x ∈ l -> f x = g x) -> sumZ f l = sumZ g l.
Proof.
  induction l as [|x l IH]; intros H; simpl; [reflexivity|].
  rewrite (H x) by left. rewrite IH; [reflexivity|]. intros y Hy. apply H. right. exact Hy.
Qed.

Lemma sumZ_zero {A} (l : list A) : sumZ (fun _ => 0) l = 0.
Proof. induction l as [|x l IH]; simpl; [reflexivity|]. rewrite IH. reflexivity. Qed.

Lemma sumZ_plus {A} (f g : A -> Z) l : sumZ (fun x => f x + g x) l = sumZ f l + sumZ g l.
Proof. induction l as [|x l IH]; simpl; [reflexivity|]. rewrite IH. lia. Qed.

Lemma sumZ_swap {A B} (f : A -> B -> Z) la lb :
  sumZ (fun a => sumZ (fun b => f a b) lb) la = sumZ (fun b => sumZ (fun a => f a b) la) lb.
Proof.
  induction la as [|a la IH]; simpl.
  - rewrite sumZ_zero. reflexivity.
  - rewrite IH. rewrite <- sumZ_plus. reflexivity.
Qed.

Lemma fold_left_sumZ {A} (f : A -> Z) l a :
  fold_left (fun count x => count + f x) l a = a + sumZ f l.
Proof.
  revert a. induction l as [|x l IH]; intros a; simpl; [lia|]. rewrite IH. lia.
Qed.

Lemma py_range_nat (n : nat) : py_range (Z.of_nat n) = map Z.of_nat (seq 0 n).
Proof. unfold py_range. rewrite Nat2Z.id. reflexivity. Qed.

(** Summing over [range(m)] what vanishes from [n] on is summing over [range(n)]. *)
Lemma sumZ_range_below (g : Z -> Z) (n m : Z) :
  n <= m ->
  sumZ (fun c => if c <? n then g c else 0) (py_range m) = sumZ g (py_range n).
Proof.
  intros Hnm. destruct (Z.le_gt_cases m 0) as [Hm|Hm].
  - rewrite !py_range_nonpos by lia. reflexivity.
  - rewrite <- (Z2Nat.id m) in * by lia. generalize dependent (Z.to_nat m). clear m.
    intros m. revert n. induction m as [|m IH]; intros n Hnm Hm; [lia|].
    replace (Z.of_nat (S m)) with (Z.of_nat m + 1) in * by lia.
    rewrite py_range_succ by lia. rewrite sumZ_app. simpl.
    destruct (Z.eq_dec n (Z.of_nat m + 1)) as [->|Hne].
    + rewrite py_range_succ by lia. rewrite sumZ_app. simpl.
      destruct (Z.of_nat m <? Z.of_nat m + 1) eqn:E; [|apply Z.ltb_ge in E; lia].
      f_equal. apply sumZ_ext. intros c Hc. apply py_range_elem in Hc.
      destruct (c <? Z.of_nat m + 1) eqn:E'; [reflexivity|apply Z.ltb_ge in E'; lia].
    + destruct (Z.of_nat m <? n) eqn:E; [apply Z.ltb_lt in E; lia|].
      destruct m as [|m].
      * simpl. rewrite py_range_nonpos by lia. reflexivity.
      * rewrite IH by lia. lia.
Qed.

(** Summing over [range(m)] what vanishes below [a] is summing over [range(a, m)]. *)
Lemma sumZ_range_from (g : Z -> Z) (a m : Z) :
  0 <= a ->
  sumZ (fun c => if a <=? c then g c else 0) (py_range m) = sumZ g (py_range2 a m).
Proof.
  intros Ha. unfold py_range2. rewrite sumZ_map.
  destruct (Z.le_gt_cases m a) as [Hm|Hm].
  - rewrite (py_range_nonpos (m - a)) by lia. simpl.
    transitivity (sumZ (fun _ : Z => 0) (py_range m)); [|apply sumZ_zero].
    apply sumZ_ext. intros c Hc.
    apply py_range_elem in Hc. destruct (a <=? c) eqn:E; [apply Z.leb_le in E; lia|reflexivity].
  - replace m with (a + (m - a)) at 1 by lia.
    assert (Hd : 0 <= m - a) by lia. clear Hm. generalize dependent (m - a). clear m.
    intros d Hd. rewrite <- (Z2Nat.id d) by lia. generalize (Z.to_nat d). clear d Hd.
    intros d. induction d as [|d IH].
    + simpl. rewrite Z.add_0_r.
      transitivity (sumZ (fun _ : Z => 0) (py_range a)); [|apply sumZ_zero]. apply sumZ_ext.
      intros c Hc. apply py_range_elem in Hc.
      destruct (a <=? c) eqn:E; [apply Z.leb_le in E; lia|reflexivity].
    + replace (Z.of_nat (S d)) with (Z.of_nat d + 1) by lia.
      rewrite Z.add_assoc. rewrite !py_range_succ by lia. rewrite !sumZ_app. simpl.
      rewrite IH. destruct (a <=? a + Z.of_nat d) eqn:E; [|apply Z.leb_gt in E; lia]. lia.
Qed.

(** * The sequences the code collects *)

Lemma for_each_collect {A B} (l : list A) (F : A -> res B) (G : A -> B) (acc : list B) :
  (forall x, x ∈ l -> F x = Ok (G x)) ->
  for_each l acc (fun x acc => s <- F x;; Ok (acc ++ [s])) = Ok (acc ++ map G l).
Proof.
  revert acc. induction l as [|x l IH]; intros acc H; simpl.
  - rewrite app_nil_r. reflexivity.
  - rewrite (H x) by left. cbn [bind]. rewrite IH.
    + rewrite <- app_assoc. reflexivity.
    + intros y Hy. apply H. right. exact Hy.
Qed.

Lemma for_each_collect2 {A B C} (la : list A) (lb : list B) (F : A -> B -> res C)
    (G : A -> B -> C) (acc : list C) :
  (forall x y, x ∈ la -> y ∈ lb -> F x y = Ok (G x y)) ->
  for_each la acc (fun x acc =>
    for_each lb acc (fun y acc => s <- F x y;; Ok (acc ++ [s])))
  = Ok (acc ++ flat_map (fun x => map (G x) lb) la).
Proof.
  revert acc. induction la as [|x la IH]; intros acc H; simpl.
  - rewrite app_nil_r. reflexivity.
  - rewrite (for_each_collect lb (F x) (G x)) by (intros y Hy; apply H; [left|exact Hy]).
    cbn [bind]. rewrite IH.
    + rewrite <- app_assoc. reflexivity.
    + intros a y Ha Hy. apply H; [right; exact Ha|exact Hy].
Qed.

Section Sequences.
Variable b : list (list string).
Variable cols : nat.
Hypothesis Hrect : rectangular b cols.
Hypothesis Hrows : b <> [].

Let rows : Z := Z.of_nat (length b).

Lemma rows_pos : 0 < rows.
Proof. unfold rows. destruct b; [congruence|simpl; lia]. Qed.

Lemma cells_of_inside (cells : list (Z * Z)) :
  (forall rc, rc ∈ cells -> inside b cols rc.1 rc.2) ->
  cells_of b cells = Ok (map (get b) cells).
Proof.
  induction cells as [|[r c] cells IH]; intros H; simpl; [reflexivity|].
  destruct (board_get_inside b cols Hrect r c (H (r, c) (list_elem_of_here _ _)))
    as (x & Hx & ->). cbn [bind].
  rewrite IH by (intros rc Hrc; apply H; right; exact Hrc). cbn [bind].
  cbn [map].
  assert (get b (r, c) = x) as -> by (unfold get; cbn [fst snd]; rewrite Hx; reflexivity).
  reflexivity.
Qed.

Local Abbreviation code_sequences := (code_sequences b cols).

Lemma py_range2_elem a n i : i ∈ py_range2 a n <-> a <= i < n.
Proof.
  unfold py_range2. rewrite list_elem_of_fmap. split.
  - intros (j & -> & Hj). apply py_range_elem in Hj. lia.
  - intros H. exists (i - a). split; [lia|]. apply py_range_elem. lia.
Qed.

Lemma get_all_possible_sequences_ok (w : string) (k : Z) :
  get_all_possible_sequences (mkState b w) k = Ok (code_sequences k).
Proof.
  unfold get_all_possible_sequences. cbn [board].
  rewrite (len0_rect b cols Hrect rows_pos). cbn [bind]. fold rows.
  rewrite (for_each_collect2 _ _ (fun r c => cells_of b (horizontal k r c))
             (fun r c => map (get b) (horizontal k r c))).
  2:{ intros r c Hr Hc. apply py_range_elem in Hr, Hc. apply cells_of_inside.
      intros rc Hrc. unfold horizontal in Hrc. apply list_elem_of_fmap in Hrc as (i & -> & Hi).
      apply py_range_elem in Hi. split; simpl; fold rows; lia. }
  cbn [bind].
  rewrite (for_each_collect2 _ _ (fun c r => cells_of b (vertical k r c))
             (fun c r => map (get b) (vertical k r c))).
  2:{ intros c r Hc Hr. apply py_range_elem in Hr, Hc. apply cells_of_inside.
      intros rc Hrc. unfold vertical in Hrc. apply list_elem_of_fmap in Hrc as (i & -> & Hi).
      apply py_range_elem in Hi. split; simpl; fold rows; lia. }
  cbn [bind].
  rewrite (for_each_collect2 _ _ (fun r c => cells_of b (diagonal k r c))
             (fun r c => map (get b) (diagonal k r c))).
  2:{ intros r c Hr Hc. apply py_range_elem in Hr, Hc. apply cells_of_inside.
      intros rc Hrc. unfold diagonal in Hrc. apply list_elem_of_fmap in Hrc as (i & -> & Hi).
      apply py_range_elem in Hi. split; simpl; fold rows; lia. }
  cbn [bind].
  rewrite (for_each_collect2 _ _ (fun r c => cells_of b (anti_diagonal k r c))
             (fun r c => map (get b) (anti_diagonal k r c))).
  2:{ intros r c Hr Hc. apply py_range_elem in Hr. apply py_range2_elem in Hc.
      apply cells_of_inside.
      intros rc Hrc. unfold anti_diagonal in Hrc.
      apply list_elem_of_fmap in Hrc as (i & -> & Hi).
      apply py_range_elem in Hi. split; simpl; fold rows; lia. }
  unfold code_sequences. rewrite app_nil_l, <- !app_assoc. reflexivity.
Qed.

(** ** The sequences of the design document *)

Lemma sequence_at_fits (k r c : Z) (d : Z * Z) :
  (forall i, 0 <= i < k -> inside b cols (r + i * d.1) (c + i * d.2)) ->
  sequence_at b k r c d =
    Some (map (fun i => get b (r + i * d.1, c + i * d.2)) (py_range k)).
Proof.
  intros H. unfold sequence_at. apply mapM_Some. apply Forall2_fmap_r.
  apply Forall_Forall2_diag. apply Forall_forall. intros i Hi.
  apply py_range_elem in Hi. destruct (proj1 (cell_at_inside b cols Hrect _ _) (H i Hi)) as [x Hx].
  unfold get. simpl. rewrite Hx. reflexivity.
Qed.

Lemma sequence_at_misses (k r c : Z) (d : Z * Z) (i : Z) :
  0 <= i < k -> ~ inside b cols (r + i * d.1) (c + i * d.2) ->
  sequence_at b k r c d = None.
Proof.
  intros Hi Hout. unfold sequence_at. apply eq_None_not_Some. intros Hsome.
  apply mapM_is_Some in Hsome. rewrite Forall_forall in Hsome.
  destruct (Hsome i) as [x Hx]; [apply py_range_elem; exact Hi|].
  apply Hout. apply cell_at_inside; [exact Hrect|]. exists x. exact Hx.
Qed.
End Sequences.

Lemma sumZ_if {A} (t : bool) (g : A -> Z) l :
  sumZ (fun x => if t then g x else 0) l = if t then sumZ g l else 0.
Proof. destruct t; [reflexivity|apply sumZ_zero]. Qed.

Section Totals.
Variable b : list (list string).
Variable cols : nat.
Hypothesis Hrect : rectangular b cols.
Hypothesis Hrows : b <> [].
Variable k : Z.
Hypothesis Hk : 1 <= k.
Variable f : list string -> Z.

Let rows : Z := Z.of_nat (length b).

Lemma sequence_sum (r c : Z) (d : Z * Z) (fits : bool) (cells : list (Z * Z)) :
  cells = map (fun i => (r + i * d.1, c + i * d.2)) (py_range k) ->
  (fits = true -> forall i, 0 <= i < k -> inside b cols (r + i * d.1) (c + i * d.2)) ->
  (fits = false -> ~ inside b cols (r + (k - 1) * d.1) (c + (k - 1) * d.2)) ->
  sumZ f (option_list (sequence_at b k r c d)) = if fits then f (map (get b) cells) else 0.
Proof.
  intros -> Hyes Hno. destruct fits.
  - rewrite (sequence_at_fits b cols Hrect k r c d (Hyes eq_refl)). simpl.
    rewrite map_map. lia.
  - rewrite (sequence_at_misses b cols Hrect k r c d (k - 1)); [reflexivity|lia|auto].
Qed.

Lemma horizontal_sum r c :
  0 <= r < rows -> 0 <= c < Z.of_nat cols ->
  sumZ f (option_list (sequence_at b k r c (0, 1))) =
    if c <? Z.of_nat cols - k + 1 then f (map (get b) (horizontal k r c)) else 0.
Proof.
  intros Hr Hc. apply sequence_sum.
  - unfold horizontal. apply map_ext. intros i. simpl. f_equal; lia.
  - intros E i Hi. apply Z.ltb_lt in E. split; simpl; fold rows; lia.
  - intros E [_ H]. apply Z.ltb_ge in E. simpl in H. lia.
Qed.

Lemma vertical_sum r c :
  0 <= r < rows -> 0 <= c < Z.of_nat cols ->
  sumZ f (option_list (sequence_at b k r c (1, 0))) =
    if r <? rows - k + 1 then f (map (get b) (vertical k r c)) else 0.
Proof.
  intros Hr Hc. apply sequence_sum.
  - unfold vertical. apply map_ext. intros i. simpl. f_equal; lia.
  - intros E i Hi. apply Z.ltb_lt in E. split; simpl; fold rows; lia.
  - intros E [H _]. apply Z.ltb_ge in E. simpl in H. fold rows in H. lia.
Qed.

Lemma diagonal_sum r c :
  0 <= r < rows -> 0 <= c < Z.of_nat cols ->
  sumZ f (option_list (sequence_at b k r c (1, 1))) =
    if (r <? rows - k + 1) && (c <? Z.of_nat cols - k + 1)
    then f (map (get b) (diagonal k r c)) else 0.
Proof.
  intros Hr Hc. apply sequence_sum.
  - unfold diagonal. apply map_ext. intros i. simpl. f_equal; lia.
  - intros E i Hi. apply andb_true_iff in E as [E1 E2]. apply Z.ltb_lt in E1, E2.
    split; simpl; fold rows; lia.
  - intros E [H1 H2]. apply andb_false_iff in E. simpl in H1, H2. fold rows in H1.
    destruct E as [E|E]; apply Z.ltb_ge in E; lia.
Qed.

Lemma anti_diagonal_sum r c :
  0 <= r < rows -> 0 <= c < Z.of_nat cols ->
  sumZ f (option_list (sequence_at b k r c (1, -1))) =
    if (r <? rows - k + 1) && (k - 1 <=? c)
    then f (map (get b) (anti_diagonal k r c)) else 0.
Proof.
  intros Hr Hc. apply sequence_sum.
  - unfold anti_diagonal. apply map_ext. intros i. simpl. f_equal; lia.
  - intros E i Hi. apply andb_true_iff in E as [E1 E2]. apply Z.ltb_lt in E1.
    apply Z.leb_le in E2. split; simpl; fold rows; lia.
  - intros E [H1 H2]. apply andb_false_iff in E. simpl in H1, H2. fold rows in H1.
    destruct E as [E|E]; [apply Z.ltb_ge in E|apply Z.leb_gt in E]; lia.
Qed.

(** Both enumerations give every function the same sum. *)
Lemma spec_sequences_sum :
  sumZ f (spec_sequences b (Z.of_nat cols) k) = sumZ f (code_sequences b cols k).
Proof.
  unfold spec_sequences, code_sequences, directions. fold rows.
  cbn [flat_map]. rewrite app_nil_r. rewrite !sumZ_app. rewrite !sumZ_flat_map.
  f_equal; [|f_equal; [|f_equal]].
  - apply sumZ_ext. intros r Hr. apply py_range_elem in Hr.
    rewrite sumZ_flat_map, sumZ_map.
    rewrite <- (sumZ_range_below _ (Z.of_nat cols - k + 1) (Z.of_nat cols)) by lia.
    apply sumZ_ext. intros c Hc. apply py_range_elem in Hc. apply horizontal_sum; lia.
  - transitivity (sumZ (fun r => sumZ (fun c => if r <? rows - k + 1
                    then f (map (get b) (vertical k r c)) else 0)
                    (py_range (Z.of_nat cols))) (py_range rows)).
    + apply sumZ_ext. intros r Hr. apply py_range_elem in Hr.
      rewrite sumZ_flat_map. apply sumZ_ext. intros c Hc. apply py_range_elem in Hc.
      apply vertical_sum; lia.
    + erewrite sumZ_ext by (intros r _; apply sumZ_if).
      rewrite (sumZ_range_below (fun r => sumZ (fun c => f (map (get b) (vertical k r c)))
                 (py_range (Z.of_nat cols)))) by lia.
      rewrite sumZ_swap. apply sumZ_ext. intros c _. rewrite sumZ_map. reflexivity.
  - transitivity (sumZ (fun r => if r <? rows - k + 1 then
                    sumZ (fun c => if c <? Z.of_nat cols - k + 1
                      then f (map (get b) (diagonal k r c)) else 0)
                    (py_range (Z.of_nat cols)) else 0) (py_range rows)).
    + apply sumZ_ext. intros r Hr. apply py_range_elem in Hr.
      rewrite sumZ_flat_map. rewrite <- sumZ_if. apply sumZ_ext. intros c Hc.
      apply py_range_elem in Hc. rewrite diagonal_sum by lia.
      destruct (r <? rows - k + 1); reflexivity.
    + rewrite (sumZ_range_below (fun r => sumZ (fun c => if c <? Z.of_nat cols - k + 1
                      then f (map (get b) (diagonal k r c)) else 0)
                    (py_range (Z.of_nat cols)))) by lia.
      apply sumZ_ext. intros r _. rewrite sumZ_map.
      apply (sumZ_range_below (fun c => f (map (get b) (diagonal k r c)))). lia.
  - transitivity (sumZ (fun r => if r <? rows - k + 1 then
                    sumZ (fun c => if k - 1 <=? c
                      then f (map (get b) (anti_diagonal k r c)) else 0)
                    (py_range (Z.of_nat cols)) else 0) (py_range rows)).
    + apply sumZ_ext. intros r Hr. apply py_range_elem in Hr.
      rewrite sumZ_flat_map. rewrite <- sumZ_if. apply sumZ_ext. intros c Hc.
      apply py_range_elem in Hc. rewrite anti_diagonal_sum by lia.
      destruct (r <? rows - k + 1); reflexivity.
    + rewrite (sumZ_range_below (fun r => sumZ (fun c => if k - 1 <=? c
                      then f (map (get b) (anti_diagonal k r c)) else 0)
                    (py_range (Z.of_nat cols)))) by lia.
      apply sumZ_ext. intros r _. rewrite sumZ_map.
      apply (sumZ_range_from (fun c => f (map (get b) (anti_diagonal k r c)))). lia.
Qed.
End Totals.

(** * What one sequence is worth *)

Lemma py_count_cons x y l :
  py_count x (y :: l) = (if bool_decide (y = x) then 1 else 0) + py_count x l.
Proof.
  unfold py_count. rewrite filter_cons. case_decide as H.
  - rewrite bool_decide_eq_true_2 by assumption. simpl length. lia.
  - rewrite bool_decide_eq_false_2 by assumption. lia.
Qed.

Lemma count_facts (p : string) (seq : list string) :
  p <> " " ->
  0 <= py_count p seq /\ 0 <= py_count " " seq
  /\ py_count p seq + py_count " " seq <= Z.of_nat (length seq)
  /\ (forallb (fun x => x =s? p) seq = true <-> py_count p seq = Z.of_nat (length seq))
  /\ (forallb (fun x => (x =s? p) || (x =s? " ")) seq = true
      <-> py_count p seq + py_count " " seq = Z.of_nat (length seq)).
Proof.
  intros Hp. induction seq as [|x seq (H1 & H2 & H3 & H4 & H5)].
  - unfold py_count. simpl. repeat split; auto; lia.
  - rewrite !py_count_cons. cbn [forallb length].
    destruct (String.eqb_spec x p) as [Hxp|Hxp]; destruct (String.eqb_spec x " ") as [Hs|Hxs];
      try congruence.
    + rewrite (bool_decide_eq_true_2 (x = p)) by assumption.
      rewrite (bool_decide_eq_false_2 (x = " ")) by assumption.
      cbn [andb orb]. rewrite H4, H5. repeat split; intros; lia.
    + rewrite (bool_decide_eq_false_2 (x = p)) by assumption.
      rewrite (bool_decide_eq_true_2 (x = " ")) by assumption.
      cbn [andb orb]. rewrite H5. repeat split; intros; try lia; discriminate.
    + rewrite !bool_decide_eq_false_2 by assumption.
      cbn [andb orb]. repeat split; intros; try lia; discriminate.
Qed.

Lemma sequence_score_spec (k : Z) (p : string) (seq : list string) :
  Z.of_nat (length seq) = k -> p <> " " ->
  sequence_score k p seq = spec_contribution k p seq.
Proof.
  intros Hlen Hp. destruct (count_facts p seq Hp) as (H1 & H2 & H3 & H4 & H5).
  unfold sequence_score, spec_contribution. fold (py_count p seq).
  destruct (forallb (fun x => x =s? p) seq).
  - assert (py_count p seq = k) by (rewrite <- Hlen; apply H4; reflexivity).
    rewrite (proj2 (Z.eqb_eq _ _)) by lia. reflexivity.
  - assert (py_count p seq <> k).
    { intros Heq. assert (false = true) by (apply H4; lia). discriminate. }
    rewrite (proj2 (Z.eqb_neq (py_count p seq) k)) by assumption.
    destruct (forallb (fun x => (x =s? p) || (x =s? " ")) seq).
    + assert (py_count p seq + py_count " " seq = k) by (rewrite <- Hlen; apply H5; reflexivity).
      destruct (py_count p seq =? k - 1) eqn:E1.
      * apply Z.eqb_eq in E1. rewrite (proj2 (Z.eqb_eq (py_count " " seq) 1)) by lia. reflexivity.
      * apply Z.eqb_neq in E1. cbn [andb].
        destruct (py_count p seq =? k - 2) eqn:E2; [|reflexivity].
        apply Z.eqb_eq in E2. rewrite (proj2 (Z.eqb_eq (py_count " " seq) 2)) by lia. reflexivity.
    + assert (py_count p seq + py_count " " seq <> k).
      { intros Heq. assert (false = true) by (apply H5; lia). discriminate. }
      rewrite !andb_false_r.
      destruct (py_count p seq =? k - 1) eqn:E1.
      * apply Z.eqb_eq in E1. rewrite (proj2 (Z.eqb_neq (py_count " " seq) 1)) by lia.
        cbn [andb]. destruct (py_count p seq =? k - 2) eqn:E2; [|reflexivity].
        apply Z.eqb_eq in E2. lia.
      * cbn [andb]. destruct (py_count p seq =? k - 2) eqn:E2; [|reflexivity].
        apply Z.eqb_eq in E2. rewrite (proj2 (Z.eqb_neq (py_count " " seq) 2)) by lia.
        reflexivity.
Qed.

Lemma py_range_length (k : Z) : 0 <= k -> Z.of_nat (length (py_range k)) = k.
Proof. intros H. unfold py_range. rewrite length_map, length_seq. lia. Qed.

Lemma code_sequences_length b cols k seq :
  0 <= k -> seq ∈ code_sequences b cols k -> Z.of_nat (length seq) = k.
Proof.
  intros Hk. unfold code_sequences. rewrite !elem_of_app. rewrite !list_elem_of_In, !in_flat_map.
  intros [H|[H|[H|H]]]; destruct H as (x & _ & H); apply in_map_iff in H as (y & <- & _);
    rewrite length_map;
    unfold horizontal, vertical, diagonal, anti_diagonal; rewrite length_map;
    apply py_range_length; exact Hk.
Qed.

Lemma code_sequences_nonpos b cols k seq :
  k <= 0 -> seq ∈ code_sequences b cols k -> seq = [].
Proof.
  intros Hk. unfold code_sequences, horizontal, vertical, diagonal, anti_diagonal.
  rewrite (py_range_nonpos k Hk). cbn [map].
  rewrite !elem_of_app. rewrite !list_elem_of_In, !in_flat_map.
  intros [H|[H|[H|H]]]; destruct H as (x & _ & H); apply in_map_iff in H as (y & <- & _);
    reflexivity.
Qed.

Lemma spec_sequences_nonpos b cols k seq :
  k <= 0 -> seq ∈ spec_sequences b cols k -> seq = [].
Proof.
  intros Hk. unfold spec_sequences, sequence_at. rewrite (py_range_nonpos k Hk).
  rewrite list_elem_of_In, in_flat_map. intros (d & _ & H).
  apply in_flat_map in H as (r & _ & H). apply in_flat_map in H as (c & _ & H).
  simpl in H. destruct H as [<-|[]]. reflexivity.
Qed.

Lemma sumZ_all_nil (f g : list string -> Z) (l : list (list string)) :
  (forall seq, seq ∈ l -> seq = []) -> f [] = g [] -> sumZ f l = sumZ g l.
Proof. intros Hl Hfg. apply sumZ_ext. intros seq Hseq. rewrite (Hl seq Hseq). exact Hfg. Qed.

(** C6: on a rectangular board with at least one row, the static evaluation
    does not fail, and its value is the total of ["X"] minus the total of
    ["O"], each total being the sum, over every length-[k] sequence of the
    four orientations, of 1000 for a sequence all of the player's, 50 for one
    with [k - 1] cells of the player's and the rest empty, 10 for one with
    [k - 2] cells of the player's and the rest empty, and 0 otherwise. *)
Theorem static_eval_is_spec_score (self : OurAgent) (st : State) (gt : Game_Type) (cols : nat) :
  current_game_type self = Some gt ->
  rectangular (board st) cols ->
  board st <> [] ->
  static_eval self st = Ok (spec_score (board st) (Z.of_nat cols) (k gt)).
Proof.
  intros Hgt Hrect Hne. destruct st as [b w]. cbn [board] in *.
  unfold static_eval, count_sequences, game_type_of. rewrite Hgt. cbn [bind].
  rewrite (get_all_possible_sequences_ok b cols Hrect Hne w (k gt)). cbn [bind].
  rewrite !fold_left_sumZ, !Z.add_0_l. f_equal. unfold spec_score, spec_total.
  destruct (Z.le_gt_cases (k gt) 0) as [Hk|Hk].
  - rewrite (sumZ_all_nil (sequence_score (k gt) "X") (sequence_score (k gt) "O"));
      [|intros seq; apply code_sequences_nonpos; exact Hk|reflexivity].
    rewrite (sumZ_all_nil (spec_contribution (k gt) "X") (spec_contribution (k gt) "O")
               (spec_sequences b (Z.of_nat cols) (k gt)));
      [|intros seq; apply spec_sequences_nonpos; exact Hk|reflexivity].
    lia.
  - rewrite !(spec_sequences_sum b cols Hrect (k gt)) by lia.
    f_equal; apply sumZ_ext; intros seq Hseq; apply sequence_score_spec;
      try discriminate; eapply code_sequences_length; eauto; lia.
Qed.

Lemma static_eval_is_spec_score_witness :
  static_eval (agent_for ttt "X") (mkState board_e2e "X")
  = Ok (spec_score board_e2e 3 3).
Proof.
  apply (static_eval_is_spec_score (agent_for ttt "X") (mkState board_e2e "X") ttt 3).
  - reflexivity.
  - repeat constructor.
  - discriminate.
Defined.


(** * The position hash, as the design document words it *)

(** * Exclusive or over lists *)

Lemma xor_all_app l1 l2 : xor_all (l1 ++ l2) = Z.lxor (xor_all l1) (xor_all l2).
Proof.
  induction l1 as [|x l1 IH]; simpl; [reflexivity|]. rewrite IH, Z.lxor_assoc. reflexivity.
Qed.

Lemma xor_all_perm l1 l2 : Permutation l1 l2 -> xor_all l1 = xor_all l2.
Proof.
  induction 1 as [|x l l' _ IH|x y l|l l' l'' _ IH1 _ IH2]; simpl.
  - reflexivity.
  - rewrite IH. reflexivity.
  - rewrite <- !Z.lxor_assoc. rewrite (Z.lxor_comm y x). reflexivity.
  - congruence.
Qed.

Lemma xor_all_bound (l : list Z) :
  Forall (fun x => 0 <= x < 2 ^ 64) l -> 0 <= xor_all l < 2 ^ 64.
Proof.
  induction 1 as [|x l Hx _ IH]; simpl; [lia|].
  split; [apply Z.lxor_nonneg; lia|].
  destruct (Z.eq_dec (Z.lxor x (xor_all l)) 0) as [->|Hne]; [lia|].
  apply Z.log2_lt_pow2; [pose proof (Z.lxor_nonneg x (xor_all l)); lia|].
  eapply Z.le_lt_trans; [apply Z.log2_lxor; lia|].
  apply Z.max_lub_lt.
  - destruct (Z.eq_dec x 0) as [->|?]; [simpl; lia|]. apply Z.log2_lt_pow2; lia.
  - destruct (Z.eq_dec (xor_all l) 0) as [->|?]; [simpl; lia|]. apply Z.log2_lt_pow2; lia.
Qed.

(** * The loops of [compute_zobrist] *)

Lemma for_each_fold {A} (l : list A) (F : A -> Z -> res Z) (g : A -> Z) (h : Z) :
  (forall x h, x ∈ l -> F x h = Ok (Z.lxor h (g x))) ->
  for_each l h F = Ok (Z.lxor h (xor_all (map g l))).
Proof.
  revert h. induction l as [|x l IH]; intros h H; simpl.
  - rewrite Z.lxor_0_r. reflexivity.
  - rewrite (H x h) by left. cbn [bind]. rewrite IH by (intros y h' Hy; apply H; right; exact Hy).
    rewrite Z.lxor_assoc. reflexivity.
Qed.

Lemma xor_all_flat_map {A B} (f : B -> Z) (g : A -> list B) (l : list A) :
  xor_all (map f (flat_map g l)) = xor_all (map (fun x => xor_all (map f (g x))) l).
Proof.
  induction l as [|x l IH]; simpl; [reflexivity|]. rewrite map_app, xor_all_app, IH. reflexivity.
Qed.

Lemma spec_hash_cells keys b cols :
  spec_hash keys b cols =
  xor_all (map (fun r => xor_all (map (fun c => cell_key keys b r c) (py_range cols)))
               (py_range (Z.of_nat (length b)))).
Proof.
  unfold spec_hash, occupied_cells. rewrite xor_all_flat_map.
  f_equal. apply map_ext. intros r. rewrite xor_all_flat_map.
  f_equal. apply map_ext. intros c. unfold cell_key.
  destruct (cell_at b r c) as [token|]; [|reflexivity].
  destruct (str_in token ["X"; "O"]); simpl; [apply Z.lxor_0_r|reflexivity].
Qed.

Lemma compute_zobrist_spec self st keys cols :
  zobrist_keys self = Some keys ->
  rectangular (board st) cols ->
  compute_zobrist self st = Ok (spec_hash keys (board st) (Z.of_nat cols)).
Proof.
  intros Hkeys Hrect. destruct st as [b w]. cbn [board] in *.
  unfold compute_zobrist. cbn [board]. rewrite spec_hash_cells.
  rewrite (for_each_fold _ _ (fun r => xor_all (map (fun c => cell_key keys b r c)
                                          (py_range (Z.of_nat cols))))).
  - rewrite Z.lxor_0_l. reflexivity.
  - intros r h Hr. apply py_range_elem in Hr.
    rewrite (len0_rect b cols Hrect) by lia. cbn [bind].
    apply for_each_fold. intros c h' Hc. apply py_range_elem in Hc.
    destruct (board_get_inside b cols Hrect r c) as (x & Hx & ->); [split; lia|].
    cbn [bind]. unfold cell_key. rewrite Hx, Hkeys.
    destruct (str_in x ["X"; "O"]); [reflexivity|]. rewrite Z.lxor_0_r. reflexivity.
Qed.

(** * The keys drawn at setup *)

Lemma draw_key_covers r c acc token T :
  covers acc T -> covers (draw_key r c acc token) (fun t => T t \/ t = (r, c, token)).
Proof.
  destruct acc as [keys g]. intros [Hdom Hran]. unfold draw_key, getrandbits. simpl in *.
  split; simpl.
  - intros t [Ht| ->].
    + destruct (decide ((r, c, token) = t)) as [<-|Hne].
      * rewrite lookup_insert_eq. eauto.
      * rewrite lookup_insert_ne by assumption. auto.
    + rewrite lookup_insert_eq. eauto.
  - intros t v. destruct (decide ((r, c, token) = t)) as [<-|Hne].
    + rewrite lookup_insert_eq. intros [= <-]. apply Z.mod_pos_bound. lia.
    + rewrite lookup_insert_ne by assumption. apply Hran.
Qed.

Lemma covers_weaken acc (T T' : Z * Z * string -> Prop) :
  (forall t, T' t -> T t) -> covers acc T -> covers acc T'.
Proof. intros H [Hdom Hran]. split; auto. Qed.

Lemma fold_left_covers {A} (l : list A)
    (F : gmap (Z * Z * string) Z * Rng -> A -> gmap (Z * Z * string) Z * Rng)
    (Q : A -> Z * Z * string -> Prop) :
  (forall acc T x, covers acc T -> covers (F acc x) (fun t => T t \/ Q x t)) ->
  forall acc T, covers acc T ->
    covers (fold_left F l acc) (fun t => T t \/ exists x, x ∈ l /\ Q x t).
Proof.
  intros HF. induction l as [|x l IH]; intros acc T Hc; simpl.
  - eapply covers_weaken; [|exact Hc]. intros t [Ht|(x & Hx & _)]; [exact Ht|inversion Hx].
  - eapply covers_weaken; [|apply (IH _ _ (HF acc T x Hc))].
    intros t [Ht|(y & Hy & HQ)]; [left; left; exact Ht|].
    inversion Hy; subst; [left; right; exact HQ|right; eauto].
Qed.

Lemma init_zobrist_keys (self self' : OurAgent) (g g' : Rng) (gt : Game_Type) :
  current_game_type self = Some gt ->
  init_zobrist self g = Ok (self', g') ->
  exists keys, zobrist_keys self' = Some keys
    /\ covers (keys, g') (fun t => 0 <= t.1.1 < n gt /\ 0 <= t.1.2 < m gt
                                   /\ (t.2 = "X" \/ t.2 = "O")).
Proof.
  intros Hgt. unfold init_zobrist, game_type_of. rewrite Hgt. cbn [bind].
  set (Q := fun (r : Z) (t : Z * Z * string) =>
              exists c, c ∈ py_range (m gt) /\
                exists token, token ∈ ["X"; "O"] /\ t = (r, c, token)).
  match goal with |- context [fold_left ?F ?l ?a] => set (F0 := F) end.
  assert (HF : forall acc T r, covers acc T -> covers (F0 acc r) (fun t => T t \/ Q r t)).
  { intros acc T r Hcov. unfold F0, Q.
    apply (fold_left_covers (py_range (m gt)) _
             (fun c t => exists token, token ∈ ["X"; "O"] /\ t = (r, c, token))); [|exact Hcov].
    intros acc' T' c Hcov'.
    apply (fold_left_covers ["X"; "O"] (draw_key r c) (fun token t => t = (r, c, token)));
      [|exact Hcov'].
    intros acc'' T'' token Hcov''. apply draw_key_covers. exact Hcov''. }
  assert (H0 : covers (∅, g) (fun _ => False)).
  { split; [intros t []|]. intros t v. simpl. rewrite lookup_empty. discriminate. }
  pose proof (fold_left_covers (py_range (n gt)) F0 Q HF _ _ H0) as Hc.
  destruct (fold_left F0 (py_range (n gt)) (∅, g)) as [keys gfin].
  intros [= <- <-]. exists keys. split; [reflexivity|].
  eapply covers_weaken; [|exact Hc].
  intros [[r c] token] (Hr & Hc' & Htok). simpl in *. right. exists r.
  split; [apply py_range_elem; exact Hr|]. exists c. split; [apply py_range_elem; exact Hc'|].
  exists token. split; [|reflexivity]. destruct Htok as [-> | ->]; repeat constructor.
Qed.

(** * Occupied cells *)

Lemma str_in_XO_false (s : string) : str_in s ["X"; "O"] = false <-> s <> "X" /\ s <> "O".
Proof.
  pose proof (str_in_XO s) as H. destruct (str_in s ["X"; "O"]).
  - split; [discriminate|]. intros [H1 H2]. destruct (proj1 H eq_refl); contradiction.
  - split; [|reflexivity]. intros _.
    split; intros ->; assert (false = true) by (apply H; auto); discriminate.
Qed.

Lemma occupied_cells_elem b cols r c token :
  (r, c, token) ∈ occupied_cells b cols <->
  0 <= r < Z.of_nat (length b) /\ 0 <= c < cols
  /\ cell_at b r c = Some token /\ (token = "X" \/ token = "O").
Proof.
  unfold occupied_cells. rewrite list_elem_of_In, in_flat_map. split.
  - intros (r' & Hr' & H). apply in_flat_map in H as (c' & Hc' & H).
    apply list_elem_of_In, py_range_elem in Hr', Hc'.
    destruct (cell_at b r' c') as [tok|] eqn:Hcell; [|destruct H].
    destruct (str_in tok ["X"; "O"]) eqn:Htok; [|destruct H].
    destruct H as [[= -> -> ->]|[]]. apply str_in_XO in Htok. auto.
  - intros (Hr & Hc & Hcell & Htok). exists r.
    split; [apply list_elem_of_In, py_range_elem; exact Hr|].
    apply in_flat_map. exists c. split; [apply list_elem_of_In, py_range_elem; exact Hc|].
    rewrite Hcell. rewrite (proj2 (str_in_XO token) Htok). left. reflexivity.
Qed.

Lemma flat_map_ext_in {A B} (f g : A -> list B) (l : list A) :
  (forall x, x ∈ l -> f x = g x) -> flat_map f l = flat_map g l.
Proof.
  induction l as [|x l IH]; intros H; simpl; [reflexivity|].
  rewrite (H x) by left. rewrite IH; [reflexivity|]. intros y Hy. apply H. right. exact Hy.
Qed.

(** Boards of the same size on which the same cells hold the same pieces
    have the same list of occupied cells. *)
Lemma occupied_cells_ext b b' cols :
  length b = length b' ->
  (forall t, t ∈ occupied_cells b cols <-> t ∈ occupied_cells b' cols) ->
  occupied_cells b cols = occupied_cells b' cols.
Proof.
  intros Hlen Hsame. unfold occupied_cells. rewrite <- Hlen.
  apply flat_map_ext_in. intros r Hr. apply flat_map_ext_in. intros c Hc.
  apply py_range_elem in Hr, Hc.
  assert (Hiff : forall token, token = "X" \/ token = "O" ->
            (cell_at b r c = Some token <-> cell_at b' r c = Some token)).
  { intros token Htok. split; intros Hcell.
    - apply (occupied_cells_elem b' cols r c token). apply Hsame.
      apply occupied_cells_elem. auto.
    - apply (occupied_cells_elem b cols r c token). apply Hsame.
      apply occupied_cells_elem. rewrite <- Hlen. auto. }
  destruct (cell_at b r c) as [tok|] eqn:H1; destruct (cell_at b' r c) as [tok'|] eqn:H2.
  - destruct (str_in tok ["X"; "O"]) eqn:E1.
    + apply str_in_XO in E1. pose proof (proj1 (Hiff tok E1) eq_refl) as [= ->].
      rewrite (proj2 (str_in_XO tok) E1). reflexivity.
    + destruct (str_in tok' ["X"; "O"]) eqn:E2; [|reflexivity].
      apply str_in_XO in E2. pose proof (proj2 (Hiff tok' E2) eq_refl) as [= ->].
      apply str_in_XO in E2. congruence.
  - destruct (str_in tok ["X"; "O"]) eqn:E1; [|reflexivity].
    apply str_in_XO in E1. pose proof (proj1 (Hiff tok E1) eq_refl). discriminate.
  - destruct (str_in tok' ["X"; "O"]) eqn:E2; [|reflexivity].
    apply str_in_XO in E2. pose proof (proj2 (Hiff tok' E2) eq_refl). discriminate.
  - reflexivity.
Qed.

(** C7: after setup for an [n] by [m] game, the hash of a state with an
    [n] by [m] board is the exclusive or, over the occupied cells, of the
    64-bit key drawn at setup for the cell and its token; empty (and
    forbidden) squares add nothing. The order in which the occupied cells are
    taken does not matter, so two states on which the same cells hold the
    same tokens have the same hash, however they were reached and whoever is
    to move; and hashing again, whatever the counters and the cache of the
    agent have become meanwhile, gives the same value. *)
Theorem zobrist_hash_is_xor_of_keys (self0 self : OurAgent) (g g' : Rng) (gt : Game_Type)
    (keys : gmap (Z * Z * string) Z) (st : State) (cols : nat) :
  current_game_type self0 = Some gt ->
  init_zobrist self0 g = Ok (self, g') ->
  zobrist_keys self = Some keys ->
  rectangular (board st) cols ->
  n gt = Z.of_nat (length (board st)) ->
  m gt = Z.of_nat cols ->
  (forall t, t ∈ occupied_cells (board st) (Z.of_nat cols) ->
     exists key, keys !! t = Some key /\ 0 <= key < 2 ^ 64)
  /\ compute_zobrist self st = Ok (spec_hash keys (board st) (Z.of_nat cols))
  /\ 0 <= spec_hash keys (board st) (Z.of_nat cols) < 2 ^ 64
  /\ (forall l, Permutation l (occupied_cells (board st) (Z.of_nat cols)) ->
        xor_all (map (key_of keys) l) = spec_hash keys (board st) (Z.of_nat cols))
  /\ (forall self' st',
        zobrist_keys self' = Some keys ->
        rectangular (board st') cols ->
        length (board st') = length (board st) ->
        (forall t, t ∈ occupied_cells (board st') (Z.of_nat cols)
                   <-> t ∈ occupied_cells (board st) (Z.of_nat cols)) ->
        compute_zobrist self' st' = compute_zobrist self st).
Proof.
  intros Hgt Hinit Hkeys Hrect Hn Hm.
  destruct (init_zobrist_keys _ _ _ _ _ Hgt Hinit) as (keys' & Hkeys' & Hdom & Hran).
  rewrite Hkeys in Hkeys'. injection Hkeys' as <-. simpl in Hdom, Hran.
  assert (Hocc : forall t, t ∈ occupied_cells (board st) (Z.of_nat cols) ->
            exists key, keys !! t = Some key /\ 0 <= key < 2 ^ 64).
  { intros [[r c] token] Ht. apply occupied_cells_elem in Ht as (Hr & Hc & _ & Htok).
    destruct (Hdom (r, c, token)) as [key Hkey]; [simpl; rewrite Hn, Hm; auto|].
    exists key. split; [exact Hkey|]. eapply Hran; eauto. }
  split; [exact Hocc|]. split; [apply compute_zobrist_spec; assumption|].
  split; [|split].
  - apply xor_all_bound. apply Forall_forall. intros x Hx.
    apply list_elem_of_fmap in Hx as (t & -> & Ht). unfold key_of.
    destruct (keys !! t) as [v|] eqn:Hv; simpl; [eapply Hran; eauto|lia].
  - intros l Hperm. unfold spec_hash. apply xor_all_perm. apply Permutation_map. exact Hperm.
  - intros self' st' Hkeys' Hrect' Hlen Hsame.
    rewrite (compute_zobrist_spec self' st' keys cols Hkeys' Hrect').
    rewrite (compute_zobrist_spec self st keys cols Hkeys Hrect).
    unfold spec_hash. rewrite (occupied_cells_ext (board st') (board st)); auto.
Qed.

Lemma zobrist_hash_is_xor_of_keys_witness :
  compute_zobrist (agent_for ttt "X") (mkState board_e2e "X")
  = Ok (spec_hash (default ∅ (zobrist_keys (agent_for ttt "X"))) board_e2e 3).
Proof.
  refine (proj1 (proj2 (zobrist_hash_is_xor_of_keys
           (set_game new_agent (Some "X") (Some ttt) 0 []) (agent_for ttt "X")
           rng0 {| draws := draws rng0; cursor := 18 |} ttt
           (default ∅ (zobrist_keys (agent_for ttt "X"))) (mkState board_e2e "X") 3
           _ _ _ _ _ _))).
  - reflexivity.
  - vm_compute. reflexivity.
  - vm_compute. reflexivity.
  - repeat constructor.
  - reflexivity.
  - reflexivity.
Defined.


(** * The order on the numbers of the search *)

Lemma rank_value_range (a : num) : -1 <= rank a <= 1 /\ (rank a <> 0 -> value a = 0).
Proof. destruct a; simpl; lia. Qed.

Lemma num_lt_spec (a b : num) :
  num_lt a b <-> rank a < rank b \/ (rank a = rank b /\ value a < value b).
Proof.
  unfold num_lt. destruct a, b; simpl; try (split; [intros; lia|reflexivity]);
    try (split; [discriminate|lia]).
  rewrite Z.ltb_lt. lia.
Qed.

Lemma num_le_spec (a b : num) :
  num_le a b <-> rank a < rank b \/ (rank a = rank b /\ value a <= value b).
Proof.
  unfold num_le, num_leb. rewrite negb_true_iff, <- not_true_iff_false.
  fold (num_lt b a). rewrite num_lt_spec.
  pose proof (rank_value_range a). pose proof (rank_value_range b). lia.
Qed.

Lemma num_eq_spec (a b : num) : a = b <-> rank a = rank b /\ value a = value b.
Proof.
  split; [intros ->; auto|]. destruct a, b; simpl; intros [H1 H2]; try lia; congruence.
Qed.

Lemma num_max_spec (a b : num) :
  (num_lt a b /\ num_max a b = b) \/ (~ num_lt a b /\ num_max a b = a).
Proof.
  unfold num_max, num_lt. destruct (num_ltb a b); [left|right]; split; auto.
Qed.

Lemma num_min_spec (a b : num) :
  (num_lt b a /\ num_min a b = b) \/ (~ num_lt b a /\ num_min a b = a).
Proof.
  unfold num_min, num_lt. destruct (num_ltb b a); [left|right]; split; auto.
Qed.

Lemma num_ltb_lt a b : num_ltb a b = true <-> num_lt a b.
Proof. reflexivity. Qed.

Lemma num_ltb_nlt a b : num_ltb a b = false <-> ~ num_lt a b.
Proof. unfold num_lt. destruct (num_ltb a b); split; congruence. Qed.

Lemma num_leb_le a b : num_leb a b = true <-> num_le a b.
Proof. reflexivity. Qed.

Lemma num_leb_nle a b : num_leb a b = false <-> ~ num_le a b.
Proof. unfold num_le. destruct (num_leb a b); split; congruence. Qed.

(** ** Order goals as integer goals

    Below a bound [M] on the integers at hand, the order on [num] is the
    order of the integers [enc M]. *)

Lemma enc_range M a : fits M a -> - M - 1 <= enc M a <= M + 1.
Proof. unfold fits. destruct a; simpl; lia. Qed.

Lemma enc_lt M a b : fits M a -> fits M b -> (num_lt a b <-> enc M a < enc M b).
Proof.
  unfold fits, num_lt. destruct a, b; simpl; intros; rewrite ?Z.ltb_lt;
    (split; [intros; try discriminate; lia|intros; try reflexivity; lia]).
Qed.

Lemma enc_le M a b : fits M a -> fits M b -> (num_le a b <-> enc M a <= enc M b).
Proof.
  unfold fits, num_le, num_leb. destruct a, b; simpl; intros;
    rewrite ?negb_true_iff, ?Z.ltb_ge;
    (split; [intros; try discriminate; lia|intros; try reflexivity; lia]).
Qed.

Lemma enc_eq M a b : fits M a -> fits M b -> (a = b <-> enc M a = enc M b).
Proof.
  unfold fits. destruct a, b; simpl; intros;
    (split; [intros; try discriminate; try congruence; lia|intros; try reflexivity; try lia]).
  f_equal. lia.
Qed.

Ltac num_case_max a b :=
  let Heq := fresh "Heq" in
  destruct (num_max_spec a b) as [[? Heq]|[? Heq]]; rewrite Heq in *; clear Heq.

Ltac num_case_min a b :=
  let Heq := fresh "Heq" in
  destruct (num_min_spec a b) as [[? Heq]|[? Heq]]; rewrite Heq in *; clear Heq.

Ltac num_cases :=
  repeat match goal with
  | |- context [num_max ?a ?b] => num_case_max a b
  | H : context [num_max ?a ?b] |- _ => num_case_max a b
  | |- context [num_min ?a ?b] => num_case_min a b
  | H : context [num_min ?a ?b] |- _ => num_case_min a b
  end.

Ltac num_fits := first [assumption | unfold fits; simpl value; lia].

Ltac num_encode M :=
  repeat match goal with
  | |- context [num_lt ?a ?b] => rewrite (enc_lt M a b) by num_fits
  | H : context [num_lt ?a ?b] |- _ => rewrite (enc_lt M a b) in H by num_fits
  | |- context [num_le ?a ?b] => rewrite (enc_le M a b) by num_fits
  | H : context [num_le ?a ?b] |- _ => rewrite (enc_le M a b) in H by num_fits
  | |- context [@eq num ?a ?b] => rewrite (enc_eq M a b) by num_fits
  | H : context [@eq num ?a ?b] |- _ => rewrite (enc_eq M a b) in H by num_fits
  end.

Ltac num_finish M :=
  let M0 := fresh "M" in
  pose (M0 := M);
  assert (0 <= M0) by (subst M0; lia);
  repeat match goal with
  | Hs : seen ?x |- _ =>
      let Hf := fresh "Hfit" in
      assert (Hf : fits M0 x) by (unfold fits; subst M0; lia);
      pose proof (enc_range M0 x Hf); clear Hs
  end;
  clearbody M0;
  num_encode M0;
  simpl enc in *; lia.

Ltac num_collect M :=
  first
    [ match goal with
      | x : num |- _ =>
          lazymatch goal with
          | _ : seen x |- _ => fail
          | _ => idtac
          end;
          pose proof (I : seen x);
          num_collect constr:(M + Z.abs (value x))
      end
    | num_finish M ].

Ltac num_arith :=
  rewrite ?num_ltb_lt, ?num_ltb_nlt, ?num_leb_le, ?num_leb_nle in *;
  num_collect constr:(0).

Ltac num_solve := num_cases; num_arith.

Lemma num_le_antisym (a b : num) : num_le a b -> num_le b a -> a = b.
Proof. intros. num_solve. Qed.

(** * Agents that differ in their counters only *)

Lemma only_counters_refl self : only_counters self self.
Proof.
  exists (alpha_beta_cutoffs_this_turn self), (num_static_evals_this_turn self).
  destruct self; reflexivity.
Qed.

Lemma only_counters_cutoff self0 self :
  only_counters self0 self -> only_counters self0 (add_cutoff self).
Proof. intros (c & e & ->). eexists _, _. reflexivity. Qed.

Lemma only_counters_eval self0 self :
  only_counters self0 self -> only_counters self0 (add_static_eval self).
Proof. intros (c & e & ->). eexists _, _. reflexivity. Qed.

Lemma only_counters_static_eval self0 self st :
  only_counters self0 self -> static_eval self st = static_eval self0 st.
Proof. intros (c & e & ->). reflexivity. Qed.

Lemma only_counters_is_terminal self0 self st :
  only_counters self0 self -> is_terminal self st = is_terminal self0 st.
Proof. intros (c & e & ->). reflexivity. Qed.

Lemma only_counters_plays self0 self side :
  only_counters self0 self -> plays self side = plays self0 side.
Proof. intros (c & e & ->). reflexivity. Qed.

Lemma for_each_ext {A S} (l : list A) (s : S) (F F' : A -> S -> res S) :
  (forall x s, x ∈ l -> F x s = F' x s) -> for_each l s F = for_each l s F'.
Proof.
  revert s. induction l as [|x l IH]; intros s H; simpl; [reflexivity|].
  rewrite (H x s) by left. destruct (F' x s) as [s'|e]; simpl; [|reflexivity].
  apply IH. intros y s'' Hy. apply H. right. exact Hy.
Qed.

Lemma only_counters_expand self0 self st moves :
  only_counters self0 self -> expand self st moves = expand self0 st moves.
Proof. intros (c & e & ->). reflexivity. Qed.

(** * Available moves *)

Lemma for_each_append {A B} (l : list A) (F : A -> list B -> res (list B))
    (G : A -> list B) (acc : list B) :
  (forall x acc, x ∈ l -> F x acc = Ok (acc ++ G x)) ->
  for_each l acc F = Ok (acc ++ flat_map G l).
Proof.
  revert acc. induction l as [|x l IH]; intros acc H; simpl.
  - rewrite app_nil_r. reflexivity.
  - rewrite (H x acc) by left. cbn [bind]. rewrite IH.
    + rewrite <- app_assoc. reflexivity.
    + intros y acc' Hy. apply H. right. exact Hy.
Qed.

Lemma get_available_moves_ok st cols :
  rectangular (board st) cols ->
  get_available_moves st = Ok (empty_squares (board st) (Z.of_nat cols)).
Proof.
  intros Hrect. unfold get_available_moves, empty_squares.
  rewrite (for_each_append _ _ (fun r =>
             flat_map (fun c => match cell_at (board st) r c with
                                | Some cell => if cell =s? " " then [(r, c)] else []
                                | None => []
                                end) (py_range (Z.of_nat cols)))); [reflexivity|].
  intros r acc Hr. apply py_range_elem in Hr.
  rewrite (len0_rect _ cols Hrect) by lia. cbn [bind].
  apply for_each_append. intros c acc' Hc. apply py_range_elem in Hc.
  destruct (board_get_inside _ cols Hrect r c) as (x & Hx & ->); [split; lia|].
  cbn [bind]. rewrite Hx. destruct (x =s? " "); [reflexivity|]. rewrite app_nil_r. reflexivity.
Qed.

Lemma empty_squares_elem b cols mv :
  mv ∈ empty_squares b cols ->
  cell_at b mv.1 mv.2 = Some " " /\ 0 <= mv.2 < cols.
Proof.
  unfold empty_squares. rewrite list_elem_of_In, in_flat_map.
  intros (r & Hr & H). apply in_flat_map in H as (c & Hc & H).
  apply list_elem_of_In, py_range_elem in Hc.
  destruct (cell_at b r c) as [cell|] eqn:Hcell; [|destruct H].
  destruct (String.eqb_spec cell " ") as [->|]; [|destruct H].
  destruct H as [<-|[]]. simpl. auto.
Qed.

Lemma empty_squares_complete b cols r c :
  0 <= c < cols -> cell_at b r c = Some " " -> (r, c) ∈ empty_squares b cols.
Proof.
  intros Hc Hcell. unfold empty_squares. apply list_elem_of_In, in_flat_map.
  destruct (cell_at_Some _ _ _ _ Hcell) as (Hr & _).
  exists r. split; [apply list_elem_of_In, py_range_elem; exact Hr|].
  apply in_flat_map. exists c. split; [apply list_elem_of_In, py_range_elem; exact Hc|].
  rewrite Hcell. left. reflexivity.
Qed.

(** * Counting empty squares *)

Lemma count_empty_app b1 b2 : count_empty (b1 ++ b2) = (count_empty b1 + count_empty b2)%nat.
Proof. unfold count_empty. rewrite concat_app, filter_app, length_app. reflexivity. Qed.

Lemma count_empty_cons row b :
  count_empty (row :: b) = (length (filter (fun cell => cell = " ") row) + count_empty b)%nat.
Proof. unfold count_empty. simpl. rewrite filter_app, length_app. reflexivity. Qed.

Lemma count_empty_place b r c tok :
  (exists row, b !! r = Some row /\ row !! c = Some " ") -> tok <> " " ->
  S (count_empty (place b r c tok)) = count_empty b.
Proof.
  intros (row & Hrow & Hcell) Htok. unfold place. rewrite Hrow.
  rewrite insert_take_drop by (eapply lookup_lt_Some; eauto).
  rewrite <- (take_drop_middle b r row Hrow) at 3.
  rewrite !count_empty_app, !count_empty_cons.
  rewrite insert_take_drop by (eapply lookup_lt_Some; eauto).
  rewrite <- (take_drop_middle row c " " Hcell) at 3.
  rewrite !filter_app, !length_app, !filter_cons.
  destruct (decide (tok = " ")); [contradiction|].
  destruct (decide (" " = " ")); [|contradiction]. simpl. lia.
Qed.

(** * Pruned and unpruned search *)

Lemma fold_max_ge (l : list num) (x : num) : num_le x (fold_left num_max l x).
Proof.
  revert x. induction l as [|y l IH]; intros x; cbn [fold_left]; [num_solve|].
  specialize (IH (num_max x y)). revert IH. generalize (fold_left num_max l (num_max x y)).
  intros. num_solve.
Qed.

Lemma fold_min_le (l : list num) (x : num) : num_le (fold_left num_min l x) x.
Proof.
  revert x. induction l as [|y l IH]; intros x; cbn [fold_left]; [num_solve|].
  specialize (IH (num_min x y)). revert IH. generalize (fold_left num_min l (num_min x y)).
  intros. num_solve.
Qed.

Section Loops.
Variable self0 : OurAgent.

Local Abbreviation exact_value := (exact_value self0).

Local Abbreviation exact_children := (exact_children self0).

Lemma max_loop_unpruned S children Vs :
  exact_children S children Vs ->
  forall self a b best, only_counters self0 self ->
    exists self', max_loop (S false) false children a b best self
                  = Ok (fold_left num_max Vs best, self')
                  /\ only_counters self0 self'.
Proof.
  induction 1 as [|[[mv st] z] V children Vs [Hun _] _ IH]; intros self a b best Hself.
  - exists self. auto.
  - cbn [max_loop fold_left]. simpl in Hun.
    destruct (Hun self a b Hself) as (self1 & -> & Hself1). cbn [bind]. apply IH. exact Hself1.
Qed.

Lemma min_loop_unpruned S children Vs :
  exact_children S children Vs ->
  forall self a b best, only_counters self0 self ->
    exists self', min_loop (S false) false children a b best self
                  = Ok (fold_left num_min Vs best, self')
                  /\ only_counters self0 self'.
Proof.
  induction 1 as [|[[mv st] z] V children Vs [Hun _] _ IH]; intros self a b best Hself.
  - exists self. auto.
  - cbn [min_loop fold_left]. simpl in Hun.
    destruct (Hun self a b Hself) as (self1 & -> & Hself1). cbn [bind]. apply IH. exact Hself1.
Qed.

Lemma max_loop_pruned S children Vs :
  exact_children S children Vs ->
  forall self a b best bestV,
    only_counters self0 self -> num_lt a b -> num_le best a -> num_le bestV a ->
    exists rl self',
      max_loop (S true) true children (Some a) (Some b) best self = Ok (rl, self')
      /\ only_counters self0 self'
      /\ (num_le (fold_left num_max Vs bestV) a -> num_le rl a)
      /\ (num_le b (fold_left num_max Vs bestV) -> num_le b rl)
      /\ (num_lt a (fold_left num_max Vs bestV) -> num_lt (fold_left num_max Vs bestV) b ->
          rl = fold_left num_max Vs bestV)
      /\ num_le best rl.
Proof.
  induction 1 as [|[[mv st] z] V children Vs [_ Hpr] _ IH];
    intros self a b best bestV Hself Hab Hbest HbestV.
  - exists best, self. cbn [max_loop fold_left].
    split; [reflexivity|]. split; [exact Hself|]. repeat split; intros; num_solve.
  - cbn [max_loop fold_left]. simpl in Hpr.
    destruct (Hpr self a b Hself Hab) as (r & self1 & -> & Hself1 & Hw1 & Hw2 & Hw3).
    cbn [bind bounds].
    pose proof (fold_max_ge Vs (num_max bestV V)) as Hge.
    destruct (num_leb b (num_max a (num_max best r))) eqn:Hcut.
    + exists (num_max best r), (add_cutoff self1).
      split; [reflexivity|]. split; [apply only_counters_cutoff; exact Hself1|].
      revert Hge. generalize (fold_left num_max Vs (num_max bestV V)). intros Vl Hge.
      repeat split; intros; num_solve.
    + destruct (IH self1 (num_max a (num_max best r)) b (num_max best r) (num_max bestV V))
        as (rl & self2 & -> & Hself2 & H1 & H2 & H3 & H4);
        [exact Hself1|num_solve|num_solve|num_solve|].
      exists rl, self2. split; [reflexivity|]. split; [exact Hself2|].
      revert Hge H1 H2 H3. generalize (fold_left num_max Vs (num_max bestV V)).
      intros Vl Hge H1 H2 H3.
      repeat split; intros; num_solve.
Qed.

Lemma min_loop_pruned S children Vs :
  exact_children S children Vs ->
  forall self a b best bestV,
    only_counters self0 self -> num_lt a b -> num_le b best -> num_le b bestV ->
    exists rl self',
      min_loop (S true) true children (Some a) (Some b) best self = Ok (rl, self')
      /\ only_counters self0 self'
      /\ (num_le (fold_left num_min Vs bestV) a -> num_le rl a)
      /\ (num_le b (fold_left num_min Vs bestV) -> num_le b rl)
      /\ (num_lt a (fold_left num_min Vs bestV) -> num_lt (fold_left num_min Vs bestV) b ->
          rl = fold_left num_min Vs bestV)
      /\ num_le rl best.
Proof.
  induction 1 as [|[[mv st] z] V children Vs [_ Hpr] _ IH];
    intros self a b best bestV Hself Hab Hbest HbestV.
  - exists best, self. cbn [min_loop fold_left].
    split; [reflexivity|]. split; [exact Hself|]. repeat split; intros; num_solve.
  - cbn [min_loop fold_left]. simpl in Hpr.
    destruct (Hpr self a b Hself Hab) as (r & self1 & -> & Hself1 & Hw1 & Hw2 & Hw3).
    cbn [bind bounds].
    pose proof (fold_min_le Vs (num_min bestV V)) as Hge.
    destruct (num_leb (num_min b (num_min best r)) a) eqn:Hcut.
    + exists (num_min best r), (add_cutoff self1).
      split; [reflexivity|]. split; [apply only_counters_cutoff; exact Hself1|].
      revert Hge. generalize (fold_left num_min Vs (num_min bestV V)). intros Vl Hge.
      repeat split; intros; num_solve.
    + destruct (IH self1 a (num_min b (num_min best r)) (num_min best r) (num_min bestV V))
        as (rl & self2 & -> & Hself2 & H1 & H2 & H3 & H4);
        [exact Hself1|num_solve|num_solve|num_solve|].
      exists rl, self2. split; [reflexivity|]. split; [exact Hself2|].
      revert Hge H1 H2 H3. generalize (fold_left num_min Vs (num_min bestV V)).
      intros Vl Hge H1 H2 H3.
      repeat split; intros; num_solve.
Qed.
End Loops.


(** * The search on a rectangular board *)

Lemma for_return_either {A B} (l : list A) (body : A -> res (option B)) (v : B) :
  (forall x, x ∈ l -> body x = Ok (Some v) \/ body x = Ok None) ->
  for_return l body = Ok (Some v) \/ for_return l body = Ok None.
Proof.
  induction l as [|x l IH]; intros H; simpl; [right; reflexivity|].
  destruct (H x) as [-> | ->]; [left| |]; cbn [bind]; [left; reflexivity|].
  apply IH. intros y Hy. apply H. right. exact Hy.
Qed.

Lemma sort_children_perm (reverse : bool) (l : list Child) :
  Permutation (sort_children reverse l) l.
Proof.
  unfold sort_children. induction l as [|x l IH]; simpl; [reflexivity|].
  rewrite <- IH at 2. generalize (foldr (insert_child (if reverse then Z.geb else Z.leb)) [] l).
  clear IH. intros s. induction s as [|y s IHs]; simpl; [reflexivity|].
  destruct ((if reverse then Z.geb else Z.leb) (child_key x) (child_key y)); [reflexivity|].
  rewrite IHs. apply perm_swap.
Qed.

Lemma apply_move_moved st mv : legal st mv -> apply_move st mv = Ok (moved st mv).
Proof. destruct mv as [r c]. apply apply_move_legal. Qed.

Lemma count_empty_moved st mv :
  legal st mv ->
  (count_empty (board (moved st mv)) <= count_empty (board st))%nat
  /\ (whose_move st <> " " -> S (count_empty (board (moved st mv))) = count_empty (board st)).
Proof.
  intros Hl. unfold legal in Hl.
  destruct (cell_at_Some _ _ _ _ Hl) as (Hr & Hc & row & Hrow & Hcell & _).
  assert (Hex : exists row, board st !! Z.to_nat mv.1 = Some row
                            /\ row !! Z.to_nat mv.2 = Some " ") by eauto.
  unfold moved. cbn [board].
  destruct (decide (whose_move st = " ")) as [Heq|Hne].
  - split; [|contradiction]. rewrite Heq. unfold place. rewrite Hrow.
    rewrite (list_insert_id row) by exact Hcell. rewrite list_insert_id by exact Hrow. lia.
  - pose proof (count_empty_place _ _ _ _ Hex Hne). split; [lia|auto].
Qed.

Section Search.
Variable self0 : OurAgent.
Variable gt : Game_Type.
Hypothesis Hgt : current_game_type self0 = Some gt.
Variable cols : nat.

Local Abbreviation good := (good cols).

Lemma good_moved st mv : good st -> good (moved st mv).
Proof.
  intros [Hrect Hne]. split; cbn [moved board].
  - apply place_rectangular. exact Hrect.
  - intros Heq. apply (f_equal length) in Heq. rewrite place_length in Heq.
    destruct (board st); [congruence|discriminate].
Qed.

Lemma static_eval_total st : good st -> exists v, static_eval self0 st = Ok v.
Proof.
  intros [Hrect Hne]. destruct st as [b w]. cbn [board] in *.
  unfold static_eval, count_sequences, game_type_of. rewrite Hgt. cbn [bind].
  rewrite (get_all_possible_sequences_ok b cols Hrect Hne w (k gt)). cbn [bind]. eauto.
Qed.

Lemma expand_total st moves :
  good st -> Forall (legal st) moves ->
  exists children, expand self0 st moves = Ok children
    /\ Forall2 (fun mv ch => ch.1 = (mv, moved st mv)) moves children.
Proof.
  intros Hgood Hlegal. unfold expand.
  assert (H : forall acc, exists children,
            for_each moves acc (fun move children =>
              child_state <- apply_move st move;;
              child_eval <- static_eval self0 child_state;;
              Ok (children ++ [(move, child_state, child_eval)])) = Ok (acc ++ children)
            /\ Forall2 (fun mv ch => ch.1 = (mv, moved st mv)) moves children).
  { induction Hlegal as [|mv moves Hmv _ IH]; intros acc.
    - exists []. rewrite app_nil_r. split; [reflexivity|constructor].
    - cbn [for_each]. rewrite (apply_move_moved st mv Hmv). cbn [bind].
      destruct (static_eval_total (moved st mv) (good_moved st mv Hgood)) as [v ->].
      cbn [bind]. destruct (IH (acc ++ [(mv, moved st mv, v)])) as (cs & -> & HF).
      exists ((mv, moved st mv, v) :: cs). rewrite <- app_assoc. split; [reflexivity|].
      constructor; [reflexivity|exact HF]. }
  destruct (H []) as (cs & Heq & HF). exists cs. split; [exact Heq|exact HF].
Qed.

Lemma available_moves_legal st :
  good st ->
  get_available_moves st = Ok (empty_squares (board st) (Z.of_nat cols))
  /\ Forall (legal st) (empty_squares (board st) (Z.of_nat cols)).
Proof.
  intros [Hrect _]. split; [apply get_available_moves_ok; exact Hrect|].
  apply Forall_forall. intros mv Hmv. apply empty_squares_elem in Hmv as [H _]. exact H.
Qed.

(** The terminal test does not fail, and a state it finds not terminal
    has an empty square. *)
Lemma is_terminal_total st :
  good st ->
  exists t, is_terminal self0 st = Ok t
    /\ (t = false -> empty_squares (board st) (Z.of_nat cols) <> []).
Proof.
  intros [Hrect Hne]. destruct st as [b w]. cbn [board] in *.
  unfold is_terminal. rewrite Hgt. cbn [board].
  rewrite (tester_cols_eq b cols Hrect). cbn [bind].
  match goal with |- context [for_return ?l ?body] =>
    destruct (for_return_either l body true) as [-> | ->]
  end.
  - intros r Hr. apply py_range_elem in Hr. apply for_return_either.
    intros c Hc. apply py_range_elem in Hc.
    assert (Hin : inside b cols r c) by (apply inside_tester; lia).
    destruct (board_get_inside b cols Hrect r c Hin) as (x & Hx & ->). cbn [bind].
    destruct (str_in x ["X"; "O"]) eqn:Hpiece; [|right; reflexivity].
    apply str_in_XO in Hpiece. unfold winTesterForK.
    destruct (check_win_condition_last_move b cols Hrect w (k gt) r c x Hx Hpiece)
      as [[-> _]|[-> _]]; cbn [bind];
      match goal with |- context [bool_decide ?P] => destruct (bool_decide P) end;
      cbn [negb]; auto.
  - cbn [bind]. exists true. split; [reflexivity|discriminate].
  - cbn [bind]. eexists. split; [reflexivity|]. intros Hfalse.
    apply not_true_iff_false in Hfalse. rewrite forallb_forall in Hfalse.
    intros Hnil. apply Hfalse. intros row Hrow.
    destruct (str_in " " row) eqn:Hsp; [|reflexivity]. exfalso.
    unfold str_in in Hsp. apply existsb_exists in Hsp as (x & Hx & Heq).
    apply String.eqb_eq in Heq. subst x.
    apply list_elem_of_In in Hrow, Hx.
    destruct (elem_cell_at b row " " Hrow Hx) as (r & c & Hcell).
    assert (Hin : inside b cols r c) by (apply cell_at_inside; eauto).
    pose proof (empty_squares_complete b (Z.of_nat cols) r c (proj2 Hin) Hcell) as Hel.
    rewrite Hnil in Hel. inversion Hel.
Qed.

Lemma bind_pair {A B} (m : res (A * B)) :
  bind m (fun p => let '(a, b) := p in Ok (a, b)) = m.
Proof. destruct m as [[a b]|e]; reflexivity. Qed.

(** One level of [minimax], with everything that does not depend on the
    counters evaluated on [self0]. *)
Lemma minimax_unfold fuel self st depth pruning alpha beta :
  only_counters self0 self -> good st ->
  minimax (S fuel) self st depth pruning alpha beta false true =
   (leaf <- (if depth =? 0 then Ok true else is_terminal self0 st);;
    if leaf then
      v <- static_eval self0 st;; Ok (Int v, add_static_eval self)
    else
      children <- expand self0 st (empty_squares (board st) (Z.of_nat cols));;
      let child_list := sort_children (whose_move st =s? "X") children in
      let alpha := if pruning then Some (default NegInf alpha) else alpha in
      let beta := if pruning then Some (default PosInf beta) else beta in
      if whose_move st =s? "X"
      then max_loop (searcher fuel (depth - 1) pruning) pruning child_list alpha beta NegInf self
      else min_loop (searcher fuel (depth - 1) pruning) pruning child_list alpha beta PosInf self).
Proof.
  intros Hself Hgood. cbn [minimax].
  rewrite (only_counters_is_terminal self0 self st Hself).
  destruct (if depth =? 0 then Ok true else is_terminal self0 st) as [leaf|e];
    [|reflexivity].
  cbn [bind]. destruct leaf.
  - rewrite (only_counters_static_eval self0 (add_static_eval self) st)
      by (apply only_counters_eval; exact Hself).
    reflexivity.
  - rewrite (proj1 (available_moves_legal st Hgood)). cbn [bind].
    rewrite (only_counters_expand self0 self st _ Hself).
    destruct (expand self0 st (empty_squares (board st) (Z.of_nat cols))) as [children|e];
      [|reflexivity].
    cbn [bind]. unfold searcher.
    destruct (whose_move st =s? "X"); apply bind_pair.
Qed.

Lemma fold_max_int (Vs : list num) (x : num) :
  Forall is_int Vs -> (is_int x \/ (x = NegInf /\ Vs <> [])) ->
  is_int (fold_left num_max Vs x).
Proof.
  intros HVs. revert x. induction HVs as [|V Vs [v ->] _ IH]; intros x Hx; cbn [fold_left].
  - destruct Hx as [Hx|[_ Hx]]; [exact Hx|congruence].
  - apply IH. left. destruct Hx as [[z ->]|[-> _]]; unfold num_max; simpl.
    + destruct (z <? v); eexists; reflexivity.
    + eexists; reflexivity.
Qed.

Lemma fold_min_int (Vs : list num) (x : num) :
  Forall is_int Vs -> (is_int x \/ (x = PosInf /\ Vs <> [])) ->
  is_int (fold_left num_min Vs x).
Proof.
  intros HVs. revert x. induction HVs as [|V Vs [v ->] _ IH]; intros x Hx; cbn [fold_left].
  - destruct Hx as [Hx|[_ Hx]]; [exact Hx|congruence].
  - apply IH. left. destruct Hx as [[z ->]|[-> _]]; unfold num_min; simpl.
    + destruct (v <? z); eexists; reflexivity.
    + eexists; reflexivity.
Qed.

Lemma exact_children_exist (S : bool -> Search) (children : list Child) :
  Forall (fun ch => exists V, exact_value self0 S ch.1.2 V /\ is_int V) children ->
  exists Vs, exact_children self0 S children Vs /\ Forall is_int Vs
             /\ length Vs = length children.
Proof.
  induction 1 as [|ch children (V & HV & Hint) _ (Vs & HVs & Hints & Hlen)].
  - exists []. repeat split; constructor.
  - exists (V :: Vs). split; [constructor; assumption|].
    split; [constructor; assumption|]. simpl. congruence.
Qed.

Lemma minimax_exact (fuel : nat) : forall st depth,
  good st -> whose_move st <> " " -> (count_empty (board st) < fuel)%nat ->
  exists V, exact_value self0 (searcher fuel depth) st V /\ is_int V.
Proof.
  induction fuel as [|fuel IH]; intros st depth Hgood Hwho Hfuel; [lia|].
  destruct (is_terminal_total st Hgood) as (t & Ht & Hopen).
  destruct (static_eval_total st Hgood) as (v & Hv).
  destruct (available_moves_legal st Hgood) as (_ & Hlegal).
  destruct (expand_total st _ Hgood Hlegal) as (children & Hexp & Hch).
  set (leaf := if depth =? 0 then true else t).
  assert (Hleaf : (if depth =? 0 then Ok true else is_terminal self0 st) = Ok leaf).
  { unfold leaf. destruct (depth =? 0); [reflexivity|exact Ht]. }
  destruct leaf eqn:Eleaf.
  - (* a leaf: the static value *)
    exists (Int v). split; [|eexists; reflexivity]. split.
    + intros self a b Hself. unfold searcher. rewrite minimax_unfold by assumption.
      rewrite Hleaf. cbn [bind]. rewrite Hv. cbn [bind]. eexists. split; [reflexivity|].
      apply only_counters_eval. exact Hself.
    + intros self a b Hself Hab. unfold searcher. rewrite minimax_unfold by assumption.
      rewrite Hleaf. cbn [bind]. rewrite Hv. cbn [bind]. eexists _, _. split; [reflexivity|].
      split; [apply only_counters_eval; exact Hself|]. unfold within. auto.
  - (* an inner node *)
    assert (Ht' : t = false) by (unfold leaf in Eleaf; destruct (depth =? 0); congruence).
    specialize (Hopen Ht').
    set (child_list := sort_children (whose_move st =s? "X") children).
    assert (Hkids : Forall (fun ch => exists V,
              exact_value self0 (searcher fuel (depth - 1)) ch.1.2 V /\ is_int V) child_list).
    { unfold child_list. rewrite sort_children_perm. apply Forall_forall. intros ch Hin.
      apply list_elem_of_lookup_1 in Hin as [i Hi].
      destruct (Forall2_lookup_r _ _ _ _ _ Hch Hi) as (mv & Hmv & Heq).
      assert (Hl : legal st mv).
      { eapply Forall_forall in Hlegal; [exact Hlegal|]. eapply list_elem_of_lookup_2; eauto. }
      destruct ch as [[mv' st'] z]. simpl in Heq. injection Heq as -> ->. simpl.
      apply IH.
      - apply good_moved. exact Hgood.
      - cbn [moved whose_move]. unfold other_side. destruct (whose_move st =s? "X"); discriminate.
      - destruct (count_empty_moved st mv Hl) as [_ Hdec]. specialize (Hdec Hwho). lia. }
    destruct (exact_children_exist _ _ Hkids) as (Vs & HVs & Hints & Hlen).
    assert (HVne : Vs <> []).
    { intros ->. simpl in Hlen. symmetry in Hlen. apply length_zero_iff_nil in Hlen.
      unfold child_list in Hlen.
      pose proof (sort_children_perm (whose_move st =s? "X") children) as Hperm.
      rewrite Hlen in Hperm. apply Permutation_nil in Hperm. subst children.
      inversion Hch as [Hnil|]. congruence. }
    destruct (whose_move st =s? "X") eqn:Eside.
    + exists (fold_left num_max Vs NegInf).
      split; [|apply fold_max_int; [exact Hints|right; auto]]. split.
      * intros self a b Hself. unfold searcher. rewrite minimax_unfold by assumption.
        rewrite Hleaf. cbn [bind]. rewrite Hexp. cbn [bind]. rewrite Eside.
        apply (max_loop_unpruned self0 _ _ _ HVs). exact Hself.
      * intros self a b Hself Hab. unfold searcher. rewrite minimax_unfold by assumption.
        rewrite Hleaf. cbn [bind]. rewrite Hexp. cbn [bind]. rewrite Eside. cbn [default].
        destruct (max_loop_pruned self0 _ _ _ HVs self a b NegInf NegInf Hself Hab)
          as (rl & self' & Heq & Hself' & H1 & H2 & H3 & _); [num_solve|num_solve|].
        exists rl, self'. split; [exact Heq|]. split; [exact Hself'|].
        unfold within. auto.
    + exists (fold_left num_min Vs PosInf).
      split; [|apply fold_min_int; [exact Hints|right; auto]]. split.
      * intros self a b Hself. unfold searcher. rewrite minimax_unfold by assumption.
        rewrite Hleaf. cbn [bind]. rewrite Hexp. cbn [bind]. rewrite Eside.
        apply (min_loop_unpruned self0 _ _ _ HVs). exact Hself.
      * intros self a b Hself Hab. unfold searcher. rewrite minimax_unfold by assumption.
        rewrite Hleaf. cbn [bind]. rewrite Hexp. cbn [bind]. rewrite Eside. cbn [default].
        destruct (min_loop_pruned self0 _ _ _ HVs self a b PosInf PosInf Hself Hab)
          as (rl & self' & Heq & Hself' & H1 & H2 & H3 & _); [num_solve|num_solve|].
        exists rl, self'. split; [exact Heq|]. split; [exact Hself'|].
        unfold within. auto.
Qed.
End Search.


(** * The store *)

Lemma view_rows_Some h rows b :
  view_rows h rows = Some b <-> Forall2 (is_row h) rows b.
Proof.
  unfold view_rows. rewrite mapM_Some. split; intros H; eapply Forall2_impl; eauto.
  - intros l cells Hl. simpl in Hl. unfold is_row.
    destruct (h !! l) as [[cells0| |]|]; try discriminate Hl. injection Hl as ->. reflexivity.
  - intros l cells Hl. unfold is_row in Hl. rewrite Hl. reflexivity.
Qed.

Lemma is_row_mono h h' l cells : h ⊆ h' -> is_row h l cells -> is_row h' l cells.
Proof. intros Hsub Hl. eapply lookup_weaken; eauto. Qed.

Lemma alloc_fresh h o : h !! (alloc h o).1 = None.
Proof. unfold alloc. simpl. apply not_elem_of_dom. apply is_fresh. Qed.

Lemma alloc_subseteq h o : h ⊆ (alloc h o).2.
Proof. unfold alloc. simpl. apply insert_subseteq. apply (alloc_fresh h o). Qed.

Lemma alloc_lookup h o : (alloc h o).2 !! (alloc h o).1 = Some o.
Proof. unfold alloc. simpl. apply lookup_insert_eq. Qed.

(** Copying distinct rows gives distinct new rows with the same cells. *)
Lemma deepcopy_rows_spec (rows : list loc) :
  forall h memo b,
    Forall2 (is_row h) rows b ->
    (forall l, l ∈ rows -> memo !! l = None) ->
    NoDup rows ->
    exists rows' h' memo',
      deepcopy_rows h memo rows = Ok (rows', h', memo')
      /\ h ⊆ h'
      /\ Forall2 (is_row h') rows' b
      /\ (forall l, l ∈ rows' -> h !! l = None)
      /\ NoDup rows'.
Proof.
  induction rows as [|l rows IH]; intros h memo b Hview Hmemo Hnd.
  - inversion Hview; subst. exists [], h, memo. repeat split; auto; try constructor.
    intros l Hl. inversion Hl.
  - inversion Hview as [|? cells ? b' Hl Hrest]; subst.
    apply NoDup_cons in Hnd as [Hnotin Hnd].
    cbn [deepcopy_rows]. rewrite (Hmemo l) by left. unfold is_row in Hl. rewrite Hl.
    destruct (alloc h (RowObj cells)) as [l' h1] eqn:Ealloc.
    assert (Hfresh : h !! l' = None).
    { pose proof (alloc_fresh h (RowObj cells)) as H. rewrite Ealloc in H. exact H. }
    assert (Hsub : h ⊆ h1).
    { pose proof (alloc_subseteq h (RowObj cells)) as H. rewrite Ealloc in H. exact H. }
    assert (Hnew : h1 !! l' = Some (RowObj cells)).
    { pose proof (alloc_lookup h (RowObj cells)) as H. rewrite Ealloc in H. exact H. }
    destruct (IH h1 (<[l := l']> memo) b') as (rows' & h' & memo' & -> & Hsub' & Hview' & Hfr & Hnd').
    + eapply Forall2_impl; [exact Hrest|]. intros x y. apply is_row_mono. exact Hsub.
    + intros x Hx. rewrite lookup_insert_ne; [apply Hmemo; right; exact Hx|].
      intros ->. contradiction.
    + exact Hnd.
    + cbn [bind]. exists (l' :: rows'), h', memo'. split; [reflexivity|].
      split; [etrans; eauto|]. split; [|split].
      * constructor; [|exact Hview']. eapply is_row_mono; eauto.
      * intros x Hx. inversion Hx; subst; [exact Hfresh|].
        specialize (Hfr x ltac:(assumption)). eapply lookup_weaken_None; eauto.
      * apply NoDup_cons. split; [|exact Hnd']. intros Hin. specialize (Hfr l' Hin). congruence.
Qed.

(** Writing a row that occurs once among distinct rows changes that row of
    the view. *)
Lemma is_row_insert h rows b (i : nat) l cells cells' :
  Forall2 (is_row h) rows b -> NoDup rows -> rows !! i = Some l -> b !! i = Some cells ->
  Forall2 (is_row (<[l := RowObj cells']> h)) rows (<[i := cells']> b).
Proof.
  intros Hview Hnd Hi Hb. apply Forall2_same_length_lookup. split.
  - rewrite length_insert. eapply Forall2_length; eauto.
  - intros j x y Hx Hy. destruct (decide (j = i)) as [->|Hne].
    + rewrite Hi in Hx. injection Hx as <-.
      rewrite list_lookup_insert_eq in Hy by (eapply lookup_lt_Some; eauto).
      injection Hy as <-. unfold is_row. apply lookup_insert_eq.
    + rewrite list_lookup_insert_ne in Hy by auto.
      unfold is_row. rewrite lookup_insert_ne.
      * eapply Forall2_lookup_lr in Hview; eauto.
      * intros ->. apply Hne. eapply NoDup_lookup; eauto.
Qed.

(** C9: applying a legal move to a state whose rows are distinct objects
    succeeds; every object that existed before the call is the same after it,
    so the input state still stands for the same state; the result is a new
    object, and the state it stands for differs from the input only at the
    target cell, which holds the mover's token, and in the side to move,
    which is flipped. *)
Theorem apply_move_leaves_input (h : gmap loc object) (state : loc) (st : State) (r c : Z) :
  view h state = Some st ->
  distinct_rows h state ->
  legal st (r, c) ->
  exists new_state h',
    store_apply_move h state (r, c) = Ok (new_state, h')
    /\ (forall l o, h !! l = Some o -> h' !! l = Some o)
    /\ view h' state = Some st
    /\ h !! new_state = None
    /\ view h' new_state = Some (moved st (r, c))
    /\ apply_move st (r, c) = Ok (moved st (r, c))
    /\ cell_at (board (moved st (r, c))) r c = Some (whose_move st)
    /\ (forall r' c', (r', c') <> (r, c) ->
          cell_at (board (moved st (r, c))) r' c' = cell_at (board st) r' c')
    /\ length (board (moved st (r, c))) = length (board st)
    /\ (whose_move st = "X" -> whose_move (moved st (r, c)) = "O")
    /\ (whose_move st = "O" -> whose_move (moved st (r, c)) = "X").
Proof.
  intros Hview (bl0 & w0 & rows0 & Hst0 & Hbl0 & Hnd) Hlegal.
  unfold view in Hview. rewrite Hst0, Hbl0 in Hview.
  destruct (view_rows h rows0) as [b|] eqn:Hrows; [|discriminate].
  injection Hview as <-. rename bl0 into bl, w0 into w, rows0 into rows.
  apply view_rows_Some in Hrows.
  unfold legal in Hlegal. cbn [board fst snd] in Hlegal.
  destruct (cell_at_Some _ _ _ _ Hlegal) as (Hr & Hc & cells & Hcells & Hcell & Hclt).
  (* the copy *)
  destruct (deepcopy_rows_spec rows h ∅ b Hrows) as (rows' & h1 & memo' & Hcopy & Hsub1 & Hrows' & Hfr & Hnd');
    [intros l _; apply lookup_empty|exact Hnd|].
  destruct (alloc h1 (BoardObj rows')) as [bl' h2] eqn:Ebl.
  destruct (alloc h2 (StateObj bl' w)) as [s' h3] eqn:Es.
  assert (Hbl_fresh : h1 !! bl' = None).
  { pose proof (alloc_fresh h1 (BoardObj rows')) as H. rewrite Ebl in H. exact H. }
  assert (Hsub2 : h1 ⊆ h2).
  { pose proof (alloc_subseteq h1 (BoardObj rows')) as H. rewrite Ebl in H. exact H. }
  assert (Hbl2 : h2 !! bl' = Some (BoardObj rows')).
  { pose proof (alloc_lookup h1 (BoardObj rows')) as H. rewrite Ebl in H. exact H. }
  assert (Hs_fresh : h2 !! s' = None).
  { pose proof (alloc_fresh h2 (StateObj bl' w)) as H. rewrite Es in H. exact H. }
  assert (Hsub3 : h2 ⊆ h3).
  { pose proof (alloc_subseteq h2 (StateObj bl' w)) as H. rewrite Es in H. exact H. }
  assert (Hs3 : h3 !! s' = Some (StateObj bl' w)).
  { pose proof (alloc_lookup h2 (StateObj bl' w)) as H. rewrite Es in H. exact H. }
  assert (Hsub : h ⊆ h3) by (etrans; [exact Hsub1|etrans; eauto]).
  assert (Hbl3 : h3 !! bl' = Some (BoardObj rows')) by (eapply lookup_weaken; eauto).
  assert (Hrows3 : Forall2 (is_row h3) rows' b).
  { eapply Forall2_impl; [exact Hrows'|]. intros x y. apply is_row_mono. etrans; eauto. }
  (* the row that is written *)
  destruct (Forall2_lookup_r _ _ _ _ _ Hrows3 Hcells) as (row & Hrow & Hrow3).
  unfold is_row in Hrow3.
  assert (Hrow_new : h !! row = None) by (apply Hfr; eapply list_elem_of_lookup_2; eauto).
  assert (Hs_new : h !! s' = None).
  { eapply lookup_weaken_None; [exact Hs_fresh|]. etrans; [exact Hsub1|exact Hsub2]. }
  assert (Hlen : length rows' = length b) by (eapply Forall2_length; eauto).
  set (cells' := <[Z.to_nat c := w]> cells).
  set (h4 := <[row := RowObj cells']> h3).
  set (h5 := <[s' := StateObj bl' (if w =s? "X" then "O" else "X")]> h4).
  assert (Hrun : store_apply_move h state (r, c) = Ok (s', h5)).
  { unfold store_apply_move, deepcopy_state. rewrite Hst0, Hbl0, Hcopy. cbn [bind].
    rewrite Ebl, Es. cbn [bind]. rewrite Hs3, Hbl3.
    rewrite py_index_nonneg by lia. rewrite Hrow. cbn [bind]. rewrite Hrow3.
    rewrite py_index_nonneg by lia. rewrite Hcell. cbn [bind].
    rewrite (lookup_weaken _ _ _ _ Hst0 Hsub).
    rewrite py_setitem_nonneg by lia. reflexivity. }
  assert (Hframe : forall l o, h !! l = Some o -> h5 !! l = Some o).
  { intros l o Hl. unfold h5, h4.
    rewrite lookup_insert_ne by (intros ->; congruence).
    rewrite lookup_insert_ne by (intros ->; congruence).
    eapply lookup_weaken; eauto. }
  assert (Hmoved : moved (mkState b w) (r, c) = mkState (<[Z.to_nat r := cells']> b) (other_side w)).
  { unfold moved, place. cbn [board whose_move fst snd]. rewrite Hcells. reflexivity. }
  exists s', h5. split; [exact Hrun|]. split; [exact Hframe|].
  split; [|split; [exact Hs_new|split; [|split; [|split; [|split; [|split; [|split]]]]]]].
  - unfold view. rewrite (Hframe _ _ Hst0), (Hframe _ _ Hbl0).
    assert (Hv : view_rows h5 rows = Some b).
    { apply view_rows_Some. eapply Forall2_impl; [exact Hrows|]. intros x y Hx. apply Hframe, Hx. }
    rewrite Hv. reflexivity.
  - rewrite Hmoved. unfold view.
    assert (H5s : h5 !! s' = Some (StateObj bl' (other_side w))) by apply lookup_insert_eq.
    assert (Hne1 : s' <> bl') by (intros ->; congruence).
    assert (Hne2 : row <> bl') by (intros ->; congruence).
    assert (H5b : h5 !! bl' = Some (BoardObj rows')).
    { unfold h5, h4. rewrite !lookup_insert_ne by auto. exact Hbl3. }
    rewrite H5s, H5b.
    assert (Hv : view_rows h5 rows' = Some (<[Z.to_nat r := cells']> b)).
    { apply view_rows_Some.
      pose proof (is_row_insert h3 rows' b (Z.to_nat r) row cells cells' Hrows3 Hnd' Hrow Hcells)
        as H4.
      eapply Forall2_impl; [exact H4|]. intros x y Hx. unfold is_row, h5.
      rewrite lookup_insert_ne; [exact Hx|]. intros <-. unfold is_row, h4 in Hx.
      destruct (decide (row = s')) as [->|Hne]; [congruence|].
      rewrite lookup_insert_ne in Hx by auto. congruence. }
    rewrite Hv. reflexivity.
  - apply apply_move_moved. exact Hlegal.
  - cbn [moved board whose_move fst snd]. rewrite cell_at_place by (try lia; eauto).
    rewrite bool_decide_eq_true_2 by auto. reflexivity.
  - intros r' c' Hne. cbn [moved board whose_move fst snd].
    rewrite cell_at_place by (try lia; eauto).
    rewrite bool_decide_eq_false_2; [reflexivity|]. intros [-> ->]. congruence.
  - cbn [moved board]. apply place_length.
  - cbn [moved whose_move]. intros ->. reflexivity.
  - cbn [moved whose_move]. intros ->. reflexivity.
Qed.

Lemma apply_move_leaves_input_witness :
  exists new_state h',
    store_apply_move store_e2e 5%positive (0, 2) = Ok (new_state, h')
    /\ (forall l o, store_e2e !! l = Some o -> h' !! l = Some o)
    /\ view h' 5%positive = Some (mkState board_e2e "X")
    /\ view h' new_state = Some (moved (mkState board_e2e "X") (0, 2)).
Proof.
  destruct (apply_move_leaves_input store_e2e 5%positive (mkState board_e2e "X") 0 2)
    as (new_state & h' & H1 & H2 & H3 & _ & H5 & _).
  - vm_compute. reflexivity.
  - exists 4%positive, "X", [1%positive; 2%positive; 3%positive].
    split; [vm_compute; reflexivity|]. split; [vm_compute; reflexivity|].
    repeat (apply NoDup_cons_2;
            [rewrite ?elem_of_cons, ?elem_of_nil; intuition discriminate|]).
    apply NoDup_nil_2.
  - reflexivity.
  - exists new_state, h'. auto.
Defined.


(** * The loop of the move choice *)

Lemma plays_X_not_O self : plays self "X" = true -> plays self "O" = false.
Proof.
  unfold plays. destruct (playing self) as [p|]; [|discriminate].
  intros H. apply String.eqb_eq in H. subst p. reflexivity.
Qed.

Section Root.
Variable self0 : OurAgent.
Variable S : bool -> Search.

Local Abbreviation root_inv := (root_inv self0).

(** Once the bounds have met, the unpruned loop changes nothing more. *)
Lemma root_loop_saturated children Vs :
  exact_children self0 S children Vs ->
  forall self alpha beta bm bv,
    only_counters self0 self -> root_inv alpha beta bv -> num_le beta alpha ->
    exists self', root_loop (S false) false children alpha beta bm bv self = Ok (bm, bv, self')
                  /\ only_counters self0 self'.
Proof.
  induction 1 as [|[[mv st] z] V children Vs [Hun _] _ IH];
    intros self alpha beta bm bv Hself Hinv Hmet.
  - exists self. auto.
  - cbn [root_loop]. simpl in Hun.
    destruct (Hun self (Some alpha) (Some beta) Hself) as (self1 & -> & Hself1).
    cbn [bind]. rewrite !(only_counters_plays self0 self1 _ Hself1).
    unfold root_inv in Hinv.
    destruct (plays self0 "X") eqn:EX.
    + rewrite (plays_X_not_O _ EX). destruct Hinv as [-> ->].
      assert (num_ltb bv V = false) as -> by (apply num_ltb_nlt; num_solve).
      cbn [andb]. apply IH; [exact Hself1| |exact Hmet].
      unfold root_inv. rewrite EX. auto.
    + destruct (plays self0 "O") eqn:EO.
      * destruct Hinv as [-> ->].
        assert (num_ltb V bv = false) as -> by (apply num_ltb_nlt; num_solve).
        cbn [andb]. apply IH; [exact Hself1| |exact Hmet].
        unfold root_inv. rewrite EX, EO. auto.
      * cbn [andb]. apply IH; [exact Hself1| |exact Hmet].
        unfold root_inv. rewrite EX, EO. exact Hinv.
Qed.

(** With and without pruning the loop ends with the same best move and
    the same best value. *)
Lemma root_loop_same children Vs :
  exact_children self0 S children Vs ->
  forall self1 self2 alpha beta bm bv,
    only_counters self0 self1 -> only_counters self0 self2 ->
    root_inv alpha beta bv -> num_lt alpha beta ->
    exists bm' bv' self1' self2',
      root_loop (S true) true children alpha beta bm bv self1 = Ok (bm', bv', self1')
      /\ root_loop (S false) false children alpha beta bm bv self2 = Ok (bm', bv', self2')
      /\ only_counters self0 self1' /\ only_counters self0 self2'.
Proof.
  intros Hex. pose proof Hex as Hall.
  induction Hex as [|[[mv st] z] V children Vs [Hun Hpr] Hrest IH];
    intros self1 self2 alpha beta bm bv Hself1 Hself2 Hinv Hab.
  - exists bm, bv, self1, self2. auto.
  - inversion Hall as [|? ? ? ? _ Hall']; subst. specialize (IH Hall').
    cbn [root_loop]. simpl in Hun, Hpr.
    destruct (Hpr self1 alpha beta Hself1 Hab) as (r & s1 & -> & Hs1 & Hw1 & Hw2 & Hw3).
    destruct (Hun self2 (Some alpha) (Some beta) Hself2) as (s2 & -> & Hs2).
    cbn [bind]. rewrite !(only_counters_plays self0 s1 _ Hs1).
    rewrite !(only_counters_plays self0 s2 _ Hs2).
    unfold root_inv in Hinv.
    destruct (plays self0 "X") eqn:EX.
    + rewrite (plays_X_not_O _ EX). destruct Hinv as [-> ->]. cbn [andb].
      destruct (num_ltb bv V) eqn:Elt.
      * assert (r = V) as -> by num_solve. rewrite Elt.
        destruct (num_leb PosInf (num_max bv V)) eqn:Ecut.
        -- destruct (root_loop_saturated children Vs Hall' s2 (num_max bv V) PosInf
                       (Some mv) V Hs2) as (s2' & -> & Hs2').
           { unfold root_inv. rewrite EX. split; [num_solve|reflexivity]. }
           { num_solve. }
           exists (Some mv), V, (add_cutoff s1), s2'.
           repeat split; auto. apply only_counters_cutoff. exact Hs1.
        -- apply IH; auto.
           ++ unfold root_inv. rewrite EX. split; [num_solve|reflexivity].
           ++ num_solve.
      * assert (num_ltb bv r = false) as -> by (apply num_ltb_nlt; num_solve).
        assert (num_leb PosInf bv = false) as -> by (apply num_leb_nle; num_solve).
        apply IH; auto. unfold root_inv. rewrite EX. auto.
    + destruct (plays self0 "O") eqn:EO.
      * destruct Hinv as [-> ->]. cbn [andb].
        destruct (num_ltb V bv) eqn:Elt.
        -- assert (r = V) as -> by num_solve. rewrite Elt.
           destruct (num_leb (num_min bv V) NegInf) eqn:Ecut.
           ++ destruct (root_loop_saturated children Vs Hall' s2 NegInf (num_min bv V)
                          (Some mv) V Hs2) as (s2' & -> & Hs2').
              { unfold root_inv. rewrite EX, EO. split; [num_solve|reflexivity]. }
              { num_solve. }
              exists (Some mv), V, (add_cutoff s1), s2'.
              repeat split; auto. apply only_counters_cutoff. exact Hs1.
           ++ apply IH; auto.
              ** unfold root_inv. rewrite EX, EO. split; [num_solve|reflexivity].
              ** num_solve.
        -- assert (num_ltb r bv = false) as -> by (apply num_ltb_nlt; num_solve).
           assert (num_leb bv NegInf = false) as -> by (apply num_leb_nle; num_solve).
           apply IH; auto. unfold root_inv. rewrite EX, EO. auto.
      * destruct Hinv as [-> ->]. cbn [andb]. simpl num_leb. cbn [andb].
        apply IH; auto. unfold root_inv. rewrite EX, EO. auto.
Qed.

(** Without pruning, a best move once found stays found. *)
Lemma root_loop_keeps_move children Vs :
  exact_children self0 S children Vs ->
  forall self alpha beta m bv,
    only_counters self0 self ->
    exists m' bv' self',
      root_loop (S false) false children alpha beta (Some m) bv self = Ok (Some m', bv', self').
Proof.
  induction 1 as [|[[mv st] z] V children Vs [Hun _] _ IH]; intros self alpha beta m bv Hself.
  - eexists _, _, _. reflexivity.
  - cbn [root_loop]. simpl in Hun.
    destruct (Hun self (Some alpha) (Some beta) Hself) as (self1 & -> & Hself1).
    cbn [bind].
    destruct (plays self1 "X" && num_ltb bv V); [apply IH; exact Hself1|].
    destruct (plays self1 "O" && num_ltb V bv); apply IH; exact Hself1.
Qed.

(** An agent that plays ["X"] or ["O"] finds a best move as soon as there
    is a child, the values of the children being integers. *)
Lemma root_loop_finds_move children Vs self bm bv self' :
  exact_children self0 S children Vs -> Forall is_int Vs -> children <> [] ->
  plays self0 "X" = true \/ plays self0 "O" = true ->
  only_counters self0 self ->
  root_loop (S false) false children NegInf PosInf None
            (if plays self0 "X" then NegInf else PosInf) self = Ok (bm, bv, self') ->
  bm <> None.
Proof.
  intros Hex Hint Hne Hside Hself.
  destruct children as [|[[mv st] z] children]; [congruence|].
  inversion Hex as [|? V ? Vs' [Hun _] Hrest]; subst.
  inversion Hint as [|? ? [v Hv] _]; subst.
  cbn [root_loop]. simpl in Hun.
  destruct (Hun self (Some NegInf) (Some PosInf) Hself) as (self1 & -> & Hself1).
  cbn [bind]. rewrite !(only_counters_plays self0 self1 _ Hself1).
  destruct (plays self0 "X") eqn:EX.
  - cbn [andb num_ltb].
    destruct (root_loop_keeps_move children Vs' Hrest self1 (num_max NegInf (Int v)) PosInf
                mv (Int v) Hself1) as (m' & bv' & s' & ->).
    intros [= <- _ _]. discriminate.
  - destruct Hside as [Hside|Hside]; [discriminate|]. rewrite Hside. cbn [andb num_ltb].
    destruct (root_loop_keeps_move children Vs' Hrest self1 NegInf (num_min PosInf (Int v))
                mv (Int v) Hself1) as (m' & bv' & s' & ->).
    intros [= <- _ _]. discriminate.
Qed.
End Root.

(** * States with a piece are terminal for the agent *)

Lemma for_return_hit {A B} (l : list A) (body : A -> res (option B)) (v : B) (x : A) :
  (forall y, y ∈ l -> body y = Ok (Some v) \/ body y = Ok None) ->
  x ∈ l -> body x = Ok (Some v) -> for_return l body = Ok (Some v).
Proof.
  induction l as [|y l IH]; intros H Hx Hb; [inversion Hx|].
  cbn [for_return]. destruct (H y) as [-> | Hy]; [left|reflexivity|].
  rewrite Hy. cbn [bind]. apply IH.
  - intros y' Hy'. apply H. right. exact Hy'.
  - inversion Hx; subst; [congruence|assumption].
  - exact Hb.
Qed.

Section Terminal.
Variable self0 : OurAgent.
Variable gt : Game_Type.
Hypothesis Hgt : current_game_type self0 = Some gt.
Variable cols : nat.

(** The verdict of the win tester is never the string ["No win"], so the
    first piece met ends the terminal test. *)
Lemma is_terminal_piece st r c x :
  good cols st -> cell_at (board st) r c = Some x -> x = "X" \/ x = "O" ->
  is_terminal self0 st = Ok true.
Proof.
  intros [Hrect Hne] Hcell Hpiece. destruct st as [b w]. cbn [board] in *.
  assert (Hbody : forall r c, inside b cols r c ->
    (cell <- board_get b r c;;
     if str_in cell ["X"; "O"] then
       v <- winTesterForK (mkState b w) (Some (r, c)) (k gt);;
       if negb (bool_decide (v = Some "No win")) then Ok (Some true) else Ok None
     else Ok None) = Ok (if str_in (default EmptyString (cell_at b r c)) ["X"; "O"]
                         then Some true else None)).
  { intros r' c' Hin. destruct (board_get_inside b cols Hrect r' c' Hin) as (y & Hy & ->).
    cbn [bind]. rewrite Hy. cbn [default from_option id].
    destruct (str_in y ["X"; "O"]) eqn:Hp; [|reflexivity].
    apply str_in_XO in Hp. unfold winTesterForK.
    destruct (check_win_condition_last_move b cols Hrect w (k gt) r' c' y Hy Hp)
      as [[-> _]|[-> _]]; cbn [bind].
    - destruct (_is_board_full b); reflexivity.
    - destruct Hp; subst; reflexivity. }
  assert (Hin : inside b cols r c) by (apply cell_at_inside; eauto).
  unfold is_terminal. rewrite Hgt. cbn [board].
  rewrite (tester_cols_eq b cols Hrect). cbn [bind].
  rewrite (for_return_hit _ _ true r); [reflexivity| | |].
  - intros r' Hr'. apply py_range_elem in Hr'. apply for_return_either.
    intros c' Hc'. apply py_range_elem in Hc'. rewrite Hbody by (apply inside_tester; lia).
    destruct (str_in _ _); auto.
  - apply py_range_elem. destruct Hin; assumption.
  - apply (for_return_hit _ _ true c).
    + intros c' Hc'. apply py_range_elem in Hc'. rewrite Hbody.
      * destruct (str_in _ _); auto.
      * apply inside_tester. apply inside_tester in Hin. lia.
    + apply py_range_elem. apply inside_tester in Hin. lia.
    + rewrite Hbody by exact Hin. rewrite Hcell. cbn [default from_option id].
      rewrite (proj2 (str_in_XO x) Hpiece). reflexivity.
Qed.

(** On a terminal state [minimax] is the static evaluation, whatever the
    flags. *)
Lemma minimax_terminal fuel self st depth pruning alpha beta use_zobrist order_moves :
  only_counters self0 self -> is_terminal self0 st = Ok true ->
  minimax (S fuel) self st depth pruning alpha beta use_zobrist order_moves =
    (v <- static_eval self0 st;; Ok (Int v, add_static_eval self)).
Proof.
  intros Hself Hterm. cbn [minimax].
  rewrite (only_counters_is_terminal self0 self st Hself), Hterm.
  replace (if depth =? 0 then Ok true else Ok true) with (@Ok bool true)
    by (destruct (depth =? 0); reflexivity).
  cbn [bind].
  rewrite (only_counters_static_eval self0 (add_static_eval self) st)
    by (apply only_counters_eval; exact Hself).
  reflexivity.
Qed.

(** Every child of the root has an exact value: with the cache off by the
    correctness of pruning, with the cache on because a child that holds a
    piece is a leaf. *)
Lemma child_exact (st : State) (mv : Move) (depth : Z) (use_zobrist : bool) :
  good cols st -> legal st mv ->
  use_zobrist = false \/ whose_move st = "X" \/ whose_move st = "O" ->
  exists V,
    exact_value self0
      (fun pruning self s alpha beta =>
         minimax (S (count_empty (board st))) self s depth pruning alpha beta use_zobrist true)
      (moved st mv) V
    /\ is_int V.
Proof.
  intros Hgood Hlegal Hcase.
  destruct (decide (whose_move st = "X" \/ whose_move st = "O")) as [Hpiece|Hnot].
  - assert (Hterm : is_terminal self0 (moved st mv) = Ok true).
    { destruct (cell_at_Some _ _ _ _ Hlegal) as (Hr & Hc & _).
      apply (is_terminal_piece _ mv.1 mv.2 (whose_move st)).
      - apply good_moved. exact Hgood.
      - cbn [moved board]. rewrite cell_at_place by (try lia; eauto).
        rewrite bool_decide_eq_true_2 by auto. reflexivity.
      - exact Hpiece. }
    destruct (static_eval_total self0 gt Hgt cols (moved st mv) (good_moved cols st mv Hgood))
      as (v & Hv).
    exists (Int v). split; [|eexists; reflexivity]. split.
    + intros self a b Hself. rewrite minimax_terminal by assumption. rewrite Hv. cbn [bind].
      eexists. split; [reflexivity|]. apply only_counters_eval. exact Hself.
    + intros self a b Hself Hab. rewrite minimax_terminal by assumption. rewrite Hv.
      cbn [bind]. eexists _, _. split; [reflexivity|].
      split; [apply only_counters_eval; exact Hself|]. unfold within. auto.
  - assert (use_zobrist = false) as -> by tauto.
    apply (minimax_exact self0 gt Hgt cols (S (count_empty (board st))) (moved st mv) depth).
    + apply good_moved. exact Hgood.
    + cbn [moved whose_move]. unfold other_side. destruct (whose_move st =s? "X"); discriminate.
    + destruct (count_empty_moved st mv Hlegal) as [Hle _]. lia.
Qed.
End Terminal.

(** * The move choice with and without pruning *)

Lemma root_search_same (self : OurAgent) (gt : Game_Type) (st : State) (cols : nat)
    (max_ply : Z) (use_zobrist : bool) :
  current_game_type self = Some gt ->
  rectangular (board st) cols ->
  use_zobrist = false \/ whose_move st = "X" \/ whose_move st = "O" ->
  exists bm bv s1 s2,
    root_search self st true use_zobrist max_ply
      = Ok (empty_squares (board st) (Z.of_nat cols), bm, bv, s1)
    /\ root_search self st false use_zobrist max_ply
      = Ok (empty_squares (board st) (Z.of_nat cols), bm, bv, s2)
    /\ only_counters (at_turn self) s1 /\ only_counters (at_turn self) s2
    /\ (plays self "X" = true \/ plays self "O" = true ->
        empty_squares (board st) (Z.of_nat cols) <> [] -> bm <> None).
Proof.
  intros Hgt Hrect Hcase. unfold root_search. fold (at_turn self).
  rewrite (get_available_moves_ok st cols Hrect). cbn [bind].
  assert (Hgt' : current_game_type (at_turn self) = Some gt) by exact Hgt.
  destruct (decide (board st = [])) as [Hnil|Hne].
  - rewrite Hnil. unfold empty_squares. cbn.
    eexists _, _, _, _. split; [reflexivity|]. split; [reflexivity|].
    split; [apply only_counters_refl|]. split; [apply only_counters_refl|].
    intros _ H. exfalso. apply H. reflexivity.
  - assert (Hgood : good cols st) by (split; assumption).
    destruct (available_moves_legal cols st Hgood) as (_ & Hlegal).
    destruct (expand_total (at_turn self) gt Hgt' cols st _ Hgood Hlegal)
      as (children & -> & Hch).
    cbn [bind].
    set (S := fun (pruning : bool) (self : OurAgent) (s : State) (alpha beta : option num) =>
                minimax (Datatypes.S (count_empty (board st))) self s (max_ply - 1)
                        pruning alpha beta use_zobrist true).
    set (sorted := sort_children (plays (at_turn self) "X") children).
    assert (Hkids : Forall (fun ch => exists V, exact_value (at_turn self) S ch.1.2 V /\ is_int V)
                           sorted).
    { unfold sorted. rewrite sort_children_perm. apply Forall_forall. intros ch Hin.
      apply list_elem_of_lookup_1 in Hin as [i Hi].
      destruct (Forall2_lookup_r _ _ _ _ _ Hch Hi) as (mv & Hmv & Heq).
      assert (Hl : legal st mv).
      { eapply Forall_forall in Hlegal; [exact Hlegal|]. eapply list_elem_of_lookup_2; eauto. }
      destruct ch as [[mv' st'] z]. simpl in Heq. injection Heq as -> ->. simpl.
      apply (child_exact (at_turn self) gt Hgt' cols st mv (max_ply - 1) use_zobrist);
        assumption. }
    destruct (exact_children_exist _ _ _ Hkids) as (Vs & HVs & Hints & _).
    destruct (root_loop_same (at_turn self) S sorted Vs HVs (at_turn self) (at_turn self)
                NegInf PosInf None (if plays (at_turn self) "X" then NegInf else PosInf))
      as (bm & bv & s1 & s2 & H1 & H2 & Hs1 & Hs2).
    + apply only_counters_refl.
    + apply only_counters_refl.
    + unfold root_inv. destruct (plays (at_turn self) "X"); [auto|].
      destruct (plays (at_turn self) "O"); auto.
    + reflexivity.
    + exists bm, bv, s1, s2. fold sorted. change (fun self0 candidate_state alpha beta =>
          minimax (Datatypes.S (count_empty (board st))) self0 candidate_state (max_ply - 1)
                  true alpha beta use_zobrist true) with (S true).
      change (fun self0 candidate_state alpha beta =>
          minimax (Datatypes.S (count_empty (board st))) self0 candidate_state (max_ply - 1)
                  false alpha beta use_zobrist true) with (S false).
      rewrite H1, H2. cbn [bind]. repeat split; auto.
      intros Hside Hmoves.
      apply (root_loop_finds_move (at_turn self) S sorted Vs (at_turn self) bm bv s2 HVs Hints);
        [|exact Hside|apply only_counters_refl|exact H2].
      unfold sorted. intros Hnil.
      pose proof (sort_children_perm (plays (at_turn self) "X") children) as Hperm.
      rewrite Hnil in Hperm. apply Permutation_nil in Hperm. subst children.
      inversion Hch as [Hm|]. congruence.
Qed.

(** C1: for every rectangular board, every side to move and every ply
    depth, the move choice with pruning and the move choice without end the
    same way: the same move, the same value of that move and the same new
    state (or the same failure when no move is available); only the counters
    of the agent differ. With the cache on this holds in every state whose
    side to move is ["X"] or ["O"]. *)
Theorem alpha_beta_same_decision (self : OurAgent) (gt : Game_Type) (st : State) (cols : nat)
    (max_ply : Z) (use_zobrist_hashing : bool) (g : Rng) :
  current_game_type self = Some gt ->
  rectangular (board st) cols ->
  use_zobrist_hashing = false \/ whose_move st = "X" \/ whose_move st = "O" ->
  outcome (make_move self st true use_zobrist_hashing max_ply g)
  = outcome (make_move self st false use_zobrist_hashing max_ply g).
Proof.
  intros Hgt Hrect Hcase.
  destruct (root_search_same self gt st cols max_ply use_zobrist_hashing Hgt Hrect Hcase)
    as (bm & bv & s1 & s2 & H1 & H2 & (c1 & e1 & ->) & (c2 & e2 & ->) & _).
  unfold make_move. rewrite H1, H2. cbn [bind].
  destruct (match bm with
            | Some move => Ok (move, g)
            | None => match empty_squares (board st) (Z.of_nat cols) with
                      | [] => Raise NoValidMoves
                      | _ :: _ => random_choice (empty_squares (board st) (Z.of_nat cols)) g
                      end
            end) as [[mv g']|e]; [|reflexivity].
  cbn [bind]. destruct (apply_move st mv) as [st'|e]; reflexivity.
Qed.

Lemma alpha_beta_same_decision_witness :
  outcome (make_move (agent_for ttt "X") (mkState board_e2e "X") true false 3 rng0)
  = outcome (make_move (agent_for ttt "X") (mkState board_e2e "X") false false 3 rng0).
Proof.
  apply (alpha_beta_same_decision (agent_for ttt "X") ttt (mkState board_e2e "X") 3 3 false rng0).
  - reflexivity.
  - repeat constructor.
  - left; reflexivity.
Defined.


(** * The moves of the root search *)

Lemma for_each_inv {A S} (Inv : S -> Prop) (l : list A) (body : A -> S -> res S) (s0 s : S) :
  (forall x s s', body x s = Ok s' -> Inv s -> Inv s') ->
  Inv s0 -> for_each l s0 body = Ok s -> Inv s.
Proof.
  intros Hbody. revert s0. induction l as [|x l IH]; intros s0 H0 Hrun; simpl in Hrun.
  - injection Hrun as <-. exact H0.
  - apply bind_ok in Hrun as (s1 & H1 & Hrest). eapply IH; [|exact Hrest]. eauto.
Qed.

(** Every move [get_available_moves] lists points at an empty square. *)
Lemma available_moves_empty st moves :
  get_available_moves st = Ok moves ->
  Forall (fun mv => board_get (board st) mv.1 mv.2 = Ok " ") moves.
Proof.
  unfold get_available_moves.
  apply (for_each_inv (Forall (fun mv => board_get (board st) mv.1 mv.2 = Ok " ")));
    [|constructor].
  intros r moves0 moves1 Hrow Hinv. apply bind_ok in Hrow as (cols & _ & Hrow).
  revert Hrow. apply for_each_inv; [|exact Hinv].
  intros c ms ms' Hcell Hms. apply bind_ok in Hcell as (cell & Hget & Hret).
  destruct (String.eqb_spec cell " ") as [->|]; injection Hret as <-; [|exact Hms].
  apply Forall_app. split; [exact Hms|]. constructor; [exact Hget|constructor].
Qed.

Lemma root_search_moves self st ab zob ply moves bm bv self' :
  root_search self st ab zob ply = Ok (moves, bm, bv, self') ->
  get_available_moves st = Ok moves.
Proof.
  unfold root_search. intros H. apply bind_ok in H as (moves0 & Hmoves & H).
  apply bind_ok in H as (children & _ & H). apply bind_ok in H as ([[bm0 bv0] s0] & _ & H).
  injection H as <- _ _ _. exact Hmoves.
Qed.


(** * More on the win tester *)

Lemma full_scan_is_check_full_board b cols w k :
  rectangular b cols ->
  check_win_condition (mkState b w) None k = _check_full_board b k.
Proof.
  intros Hrect. unfold check_win_condition. cbn [board].
  rewrite (tester_cols_eq b cols Hrect). reflexivity.
Qed.

Lemma rectangular_x_row : rectangular board_x_row 3.
Proof. repeat constructor. Qed.

(** X1: told no last move, the tester scans for ["X"] first: it reports
    ["X"] exactly when some axis of the board holds [k] pieces of ["X"] in a
    row, and ["O"] exactly when ["O"] has such a run and ["X"] has none. *)
Theorem full_scan_winner (st : State) (cols : nat) (k : Z) :
  rectangular (board st) cols -> 1 <= k ->
  (check_win_condition st None k = Ok (Some "X") <-> has_run (board st) "X" k)
  /\ (check_win_condition st None k = Ok (Some "O")
      <-> ~ has_run (board st) "X" k /\ has_run (board st) "O" k).
Proof.
  intros Hrect Hk. destruct st as [b w]. cbn [board] in *.
  rewrite (full_scan_is_check_full_board b cols w k Hrect).
  pose proof (scan_finds_has_run b cols Hrect "X" k Hk) as HrX.
  pose proof (scan_finds_has_run b cols Hrect "O" k Hk) as HrO.
  destruct (check_full_board_spec b cols Hrect k) as [[HX ->]|[(HX & HO & ->)|(HX & HO & ->)]].
  - split; [tauto|]. split; [discriminate|]. tauto.
  - split; [|tauto]. split; [discriminate|]. tauto.
  - destruct (_is_board_full b); (split; split; try discriminate; tauto).
Qed.

Lemma full_scan_winner_witness :
  check_win_condition (mkState board_x_row "O") None 3 = Ok (Some "X")
  <-> has_run board_x_row "X" 3.
Proof.
  refine (proj1 (full_scan_winner (mkState board_x_row "O") 3 3 _ _)).
  - exact rectangular_x_row.
  - lia.
Defined.

(** X2: a last move that wins for [k] wins for every smaller run length. *)
Theorem last_move_win_monotone (st : State) (cols : nat) (k k' r c : Z) (p : string) :
  rectangular (board st) cols ->
  cell_at (board st) r c = Some p -> p = "X" \/ p = "O" ->
  k' <= k ->
  check_win_condition st (Some (r, c)) k = Ok (Some p) ->
  check_win_condition st (Some (r, c)) k' = Ok (Some p).
Proof.
  intros Hrect Hc Hp Hle Hwin. destruct st as [b w]. cbn [board] in *.
  assert (Hreach : axis_reaches b p k r c).
  { destruct (check_win_condition_last_move b cols Hrect w k r c p Hc Hp) as [[H _]|[_ H]];
      [|exact H].
    rewrite H in Hwin. destruct (_is_board_full b); destruct Hp; subst; discriminate. }
  destruct (check_win_condition_last_move b cols Hrect w k' r c p Hc Hp) as [[_ H]|[H _]];
    [|exact H].
  exfalso. apply H. destruct Hreach as (d & t & Hd & Ht & Hkt). exists d, t.
  split; [exact Hd|]. split; [exact Ht|lia].
Qed.

Lemma last_move_win_monotone_witness :
  check_win_condition (mkState board_x_row "O") (Some (0, 1)) 2 = Ok (Some "X").
Proof.
  refine (last_move_win_monotone (mkState board_x_row "O") 3 3 2 0 1 "X" _ _ _ _ _).
  - exact rectangular_x_row.
  - reflexivity.
  - left. reflexivity.
  - lia.
  - reflexivity.
Defined.

(** ** Runs and further moves *)

Lemma window_place_keeps b r c tok p k r0 c0 d :
  cell_at b r c = Some " " -> p <> " " ->
  window b p k r0 c0 d ->
  window (place b (Z.to_nat r) (Z.to_nat c) tok) p k r0 c0 d.
Proof.
  intros Hempty Hp Hw i Hi.
  destruct (cell_at_Some _ _ _ _ Hempty) as ([Hr _] & Hc & _).
  rewrite cell_at_place by eauto.
  destruct (bool_decide_reflect (r0 + i * d.1 = r /\ c0 + i * d.2 = c)) as [[E1 E2]|_].
  - specialize (Hw i Hi). rewrite E1, E2, Hempty in Hw. congruence.
  - apply Hw. exact Hi.
Qed.

Lemma window_place_new b r c tok p k r0 c0 d :
  cell_at b r c = Some " " -> tok <> p ->
  window (place b (Z.to_nat r) (Z.to_nat c) tok) p k r0 c0 d ->
  window b p k r0 c0 d.
Proof.
  intros Hempty Hp Hw i Hi.
  destruct (cell_at_Some _ _ _ _ Hempty) as ([Hr _] & Hc & _).
  specialize (Hw i Hi). rewrite cell_at_place in Hw by eauto.
  destruct (bool_decide_reflect (r0 + i * d.1 = r /\ c0 + i * d.2 = c)) as [_|_];
    [congruence|exact Hw].
Qed.

Lemma has_run_moved st mv p k :
  legal st mv -> p <> " " -> has_run (board st) p k -> has_run (board (moved st mv)) p k.
Proof.
  intros Hl Hp (r & c & d & Hd & Hw). exists r, c, d. split; [exact Hd|].
  unfold moved. cbn [board]. apply window_place_keeps; assumption.
Qed.

Lemma has_run_moved_other st mv p k :
  legal st mv -> whose_move st <> p ->
  has_run (board (moved st mv)) p k -> has_run (board st) p k.
Proof.
  intros Hl Hp (r & c & d & Hd & Hw). exists r, c, d. split; [exact Hd|].
  unfold moved in Hw. cbn [board] in Hw. eapply window_place_new; eassumption.
Qed.

(** X3: a win that the full scan sees is not lost by playing on. Once it
    reports ["X"] it reports ["X"] after every further legal move; once it
    reports ["O"] it goes on reporting ["O"] after every legal move that does
    not place an ["X"]. *)
Theorem full_scan_win_is_kept (st st' : State) (cols : nat) (k : Z) (mv : Move) :
  rectangular (board st) cols -> 1 <= k ->
  legal st mv -> apply_move st mv = Ok st' ->
  (check_win_condition st None k = Ok (Some "X") ->
   check_win_condition st' None k = Ok (Some "X"))
  /\ (check_win_condition st None k = Ok (Some "O") -> whose_move st <> "X" ->
      check_win_condition st' None k = Ok (Some "O")).
Proof.
  intros Hrect Hk Hl Happ. rewrite (apply_move_moved st mv Hl) in Happ. injection Happ as <-.
  assert (Hrect' : rectangular (board (moved st mv)) cols)
    by (apply place_rectangular; exact Hrect).
  pose proof (scan_finds_has_run _ cols Hrect "X" k Hk) as HX.
  pose proof (scan_finds_has_run _ cols Hrect "O" k Hk) as HO.
  pose proof (scan_finds_has_run _ cols Hrect' "X" k Hk) as HX'.
  pose proof (scan_finds_has_run _ cols Hrect' "O" k Hk) as HO'.
  assert (Hst : check_win_condition st None k = _check_full_board (board st) k).
  { destruct st as [b w]. apply (full_scan_is_check_full_board b cols w k Hrect). }
  assert (Hst' : check_win_condition (moved st mv) None k
                 = _check_full_board (board (moved st mv)) k).
  { apply (full_scan_is_check_full_board _ cols _ k Hrect'). }
  rewrite Hst, Hst'. clear Hst Hst'.
  assert (Hdraw : forall b0 p, Ok (if _is_board_full b0 then Some "draw" else None)
                            = Ok (Some p) -> p = "draw").
  { intros b0 p H. destruct (_is_board_full b0); congruence. }
  split.
  - intros Hw.
    assert (H1 : has_run (board st) "X" k).
    { apply HX. destruct (check_full_board_spec _ cols Hrect k)
        as [[H1 _]|[(_ & _ & E)|(_ & _ & E)]]; [exact H1| |]; rewrite E in Hw;
        [discriminate|]. apply Hdraw in Hw. discriminate. }
    apply (has_run_moved st mv "X" k Hl) in H1; [|discriminate]. apply HX' in H1.
    destruct (check_full_board_spec _ cols Hrect' k)
      as [[_ ->]|[(H & _)|(H & _)]]; [reflexivity| |]; tauto.
  - intros Hw Hmover.
    assert (H1 : ~ has_run (board st) "X" k /\ has_run (board st) "O" k).
    { rewrite <- HX, <- HO. destruct (check_full_board_spec _ cols Hrect k)
        as [[_ E]|[(H1 & H2 & _)|(_ & _ & E)]]; [|tauto|]; rewrite E in Hw;
        [discriminate|]. apply Hdraw in Hw. discriminate. }
    destruct H1 as [H1 H2].
    apply (has_run_moved st mv "O" k Hl) in H2; [|discriminate]. apply HO' in H2.
    destruct (check_full_board_spec _ cols Hrect' k)
      as [[H _]|[(_ & _ & ->)|(_ & H & _)]]; [|reflexivity|tauto].
    exfalso. apply H1. apply (has_run_moved_other st mv "X" k Hl Hmover). apply HX'. exact H.
Qed.

Lemma full_scan_win_is_kept_witness :
  check_win_condition (moved (mkState board_x_row "O") (1, 2)) None 3 = Ok (Some "X").
Proof.
  refine (proj1 (full_scan_win_is_kept (mkState board_x_row "O") _ 3 3 (1, 2) _ _ _ _) _).
  - exact rectangular_x_row.
  - lia.
  - reflexivity.
  - reflexivity.
  - reflexivity.
Defined.

(** ** Counting along a direction *)

Lemma run_bound b cols p r c dr dc n :
  rectangular b cols -> unit_step dr dc -> run b p r c dr dc n ->
  n <= Z.max (Z.of_nat (length b)) (Z.of_nat cols).
Proof.
  intros Hrect (Hdr & Hdc & Hnz) (Hn & Hcells & _).
  destruct (Z.eq_dec n 0) as [->|Hpos]; [lia|].
  assert (H0 : inside b cols (r + 0 * dr) (c + 0 * dc)).
  { apply (cell_at_inside b cols Hrect). exists p. apply Hcells. lia. }
  assert (H1 : inside b cols (r + (n - 1) * dr) (c + (n - 1) * dc)).
  { apply (cell_at_inside b cols Hrect). exists p. apply Hcells. lia. }
  unfold inside in H0, H1.
  assert (dr = -1 \/ dr = 0 \/ dr = 1) as [->|[->| ->]] by lia;
  assert (dc = -1 \/ dc = 0 \/ dc = 1) as [->|[->| ->]] by lia; lia.
Qed.

(** X4: [_count_in_direction], called as the tester calls it (with the
    number of rows and the length of the first row), never fails; it returns
    the number [n] of cells that hold the player's piece in a row after the
    start cell (the start cell itself is not looked at, and may lie off the
    board): the next [n] cells along the direction hold it and the one after
    does not. That number is at most the larger side of the board. *)
Theorem count_in_direction_counts (b : list (list string)) (cols : nat) (p : string)
    (r c dr dc : Z) :
  rectangular b cols -> unit_step dr dc ->
  exists n,
    _count_in_direction b r c dr dc p (Z.of_nat (length b)) (tester_cols b cols) = Ok n
    /\ 0 <= n <= Z.max (Z.of_nat (length b)) (Z.of_nat cols)
    /\ (forall i, 1 <= i <= n -> cell_at b (r + i * dr) (c + i * dc) = Some p)
    /\ cell_at b (r + (n + 1) * dr) (c + (n + 1) * dc) <> Some p.
Proof.
  intros Hrect Hd.
  destruct (count_in_direction_run b cols Hrect p r c dr dc Hd) as (n & Hrun & Hcount).
  exists n. split; [exact Hcount|].
  pose proof (run_bound b cols p _ _ dr dc n Hrect Hd Hrun) as Hb.
  destruct Hrun as (Hn & Hcells & Hend). split; [lia|]. split.
  - intros i Hi. specialize (Hcells (i - 1)).
    replace (r + dr + (i - 1) * dr) with (r + i * dr) in Hcells by lia.
    replace (c + dc + (i - 1) * dc) with (c + i * dc) in Hcells by lia.
    apply Hcells. lia.
  - replace (r + (n + 1) * dr) with (r + dr + n * dr) by lia.
    replace (c + (n + 1) * dc) with (c + dc + n * dc) by lia. exact Hend.
Qed.

Lemma count_in_direction_counts_witness :
  exists n,
    _count_in_direction board_x_row 0 0 0 1 "X" 3 3 = Ok n
    /\ 0 <= n <= 3
    /\ (forall i, 1 <= i <= n -> cell_at board_x_row (0 + i * 0) (0 + i * 1) = Some "X")
    /\ cell_at board_x_row (0 + (n + 1) * 0) (0 + (n + 1) * 1) <> Some "X".
Proof.
  refine (count_in_direction_counts board_x_row 3 "X" 0 0 0 1 _ _).
  - exact rectangular_x_row.
  - unfold unit_step. lia.
Defined.

(** ** The verdicts *)

Lemma check_win_condition_no_piece b cols w k r c x :
  rectangular b cols -> cell_at b r c = Some x -> x <> "X" -> x <> "O" ->
  check_win_condition (mkState b w) (Some (r, c)) k = Ok None.
Proof.
  intros Hrect Hc HX HO. unfold check_win_condition. cbn [board].
  rewrite (tester_cols_eq b cols Hrect). cbn [bind].
  assert (Hin : inside b cols r c) by (apply (cell_at_inside b cols Hrect); eauto).
  destruct (board_get_inside b cols Hrect r c Hin) as (y & Hy & ->). cbn [bind].
  assert (y = x) by congruence. subst y.
  rewrite (proj2 (str_in_XO_false x)) by tauto. reflexivity.
Qed.

(** X5: on a rectangular board the tester, told no last move or a last move
    on the board, does not fail, and its answer is [None], ['draw'], ['X'] or
    ['O']; when it is told a last move and names a winner, the winner is the
    piece on the cell of that move. *)
Theorem tester_verdicts (st : State) (cols : nat) (k : Z) (mv : option (Z * Z)) :
  rectangular (board st) cols ->
  (forall r c, mv = Some (r, c) -> inside (board st) cols r c) ->
  exists v, check_win_condition st mv k = Ok v /\ is_verdict v
    /\ (forall r c, mv = Some (r, c) -> v = Some "X" \/ v = Some "O" ->
         cell_at (board st) r c = v).
Proof.
  intros Hrect Hin. destruct st as [b w]. cbn [board] in *. unfold is_verdict.
  destruct mv as [[r c]|].
  - specialize (Hin r c eq_refl).
    destruct (proj1 (cell_at_inside b cols Hrect r c) Hin) as [x Hx].
    destruct (decide (x = "X" \/ x = "O")) as [Hp|Hp].
    + destruct (check_win_condition_last_move b cols Hrect w k r c x Hx Hp) as [[-> _]|[-> _]].
      * eexists. split; [reflexivity|]. split.
        { destruct (_is_board_full b); auto. }
        intros ? ? _ H. destruct (_is_board_full b); destruct H; discriminate.
      * eexists. split; [reflexivity|]. split.
        { destruct Hp; subst; auto. }
        intros r' c' [= <- <-] _. exact Hx.
    + rewrite (check_win_condition_no_piece b cols w k r c x Hrect Hx) by tauto.
      eexists. split; [reflexivity|]. split; [auto|]. intros ? ? _ [H|H]; discriminate.
  - pose proof (full_scan_is_check_full_board b cols w k Hrect) as E.
    destruct (check_full_board_spec b cols Hrect k) as [[_ E2]|[(_ & _ & E2)|(_ & _ & E2)]];
      rewrite E2 in E; eexists; (split; [exact E|]); (split; [|intros ? ? [=]]); auto.
    destruct (_is_board_full b); auto.
Qed.

Lemma tester_verdicts_witness :
  exists v, check_win_condition (mkState board_x_row "O") (Some (0, 1)) 3 = Ok v /\ is_verdict v
    /\ (forall r c, Some (0, 1) = Some (r, c) -> v = Some "X" \/ v = Some "O" ->
         cell_at board_x_row r c = v).
Proof.
  refine (tester_verdicts (mkState board_x_row "O") 3 3 (Some (0, 1)) _ _).
  - exact rectangular_x_row.
  - intros r c [= <- <-]. unfold inside. simpl. lia.
Defined.


(** * The available moves *)

Lemma sorted_py_range (n : Z) : StronglySorted Z.lt (py_range n).
Proof.
  unfold py_range. induction (Z.to_nat n) as [|j IH]; [constructor|].
  rewrite seq_S, map_app. apply StronglySorted_app_2; [|exact IH|repeat constructor].
  intros x y Hx Hy. apply list_elem_of_In, in_map_iff in Hx as (i & <- & Hi).
  apply in_seq in Hi. simpl in Hy. apply list_elem_of_singleton in Hy. subst y. lia.
Qed.

Lemma sorted_flat_map {A B} (RA : relation A) (RB : relation B) (g : A -> list B) (l : list A) :
  StronglySorted RA l ->
  (forall x, x ∈ l -> StronglySorted RB (g x)) ->
  (forall x y u v, RA x y -> u ∈ g x -> v ∈ g y -> RB u v) ->
  StronglySorted RB (flat_map g l).
Proof.
  intros Hl Hg Hcross. induction Hl as [|x l Hl IH Hx]; simpl; [constructor|].
  apply StronglySorted_app_2; [|apply Hg; left|apply IH; intros y Hy; apply Hg; right; exact Hy].
  - intros u v Hu Hv. apply list_elem_of_In, in_flat_map in Hv as (y & Hy & Hv).
    rewrite Forall_forall in Hx. apply (Hcross x y); [apply Hx|exact Hu|];
      apply list_elem_of_In; assumption.
Qed.

Lemma sorted_empty_squares b cols : StronglySorted row_major (empty_squares b cols).
Proof.
  unfold empty_squares.
  apply (sorted_flat_map Z.lt); [apply sorted_py_range| |].
  - intros r _. apply (sorted_flat_map Z.lt); [apply sorted_py_range| |].
    + intros c _. destruct (cell_at b r c) as [cell|]; [|constructor].
      destruct (cell =s? " "); repeat constructor.
    + intros c c' u v Hlt Hu Hv.
      destruct (cell_at b r c) as [cell|]; [|inversion Hu].
      destruct (cell =s? " "); [|inversion Hu].
      destruct (cell_at b r c') as [cell'|]; [|inversion Hv].
      destruct (cell' =s? " "); [|inversion Hv].
      apply list_elem_of_singleton in Hu, Hv. subst. right. simpl. auto.
  - intros r r' u v Hlt Hu Hv.
    apply list_elem_of_In, in_flat_map in Hu as (c & _ & Hu).
    apply list_elem_of_In, in_flat_map in Hv as (c' & _ & Hv).
    destruct (cell_at b r c) as [cell|]; [|inversion Hu].
    destruct (cell =s? " "); [|inversion Hu].
    destruct (cell_at b r' c') as [cell'|]; [|inversion Hv].
    destruct (cell' =s? " "); [|inversion Hv].
    destruct Hu as [<-|[]], Hv as [<-|[]]. left. simpl. exact Hlt.
Qed.

Lemma sorted_row_major_NoDup (l : list Move) : StronglySorted row_major l -> NoDup l.
Proof.
  induction 1 as [|x l Hl IH Hx]; [constructor|]. constructor; [|exact IH].
  intros Hin. rewrite Forall_forall in Hx. specialize (Hx x Hin).
  unfold row_major in Hx. lia.
Qed.

(** X6: on a rectangular board [get_available_moves] does not fail and
    returns exactly the empty squares, each once, listed row by row and from
    left to right within a row. *)
Theorem available_moves_are_empty_squares (st : State) (cols : nat) :
  rectangular (board st) cols ->
  exists moves,
    get_available_moves st = Ok moves
    /\ (forall r c, (r, c) ∈ moves <-> cell_at (board st) r c = Some " ")
    /\ StronglySorted row_major moves
    /\ NoDup moves.
Proof.
  intros Hrect. exists (empty_squares (board st) (Z.of_nat cols)).
  split; [apply get_available_moves_ok; exact Hrect|]. split; [|split].
  - intros r c. split.
    + intros H. apply empty_squares_elem in H. tauto.
    + intros H. apply empty_squares_complete; [|exact H].
      assert (Hin : inside (board st) cols r c) by (apply cell_at_inside; eauto).
      exact (proj2 Hin).
  - apply sorted_empty_squares.
  - apply sorted_row_major_NoDup, sorted_empty_squares.
Qed.

Lemma available_moves_are_empty_squares_witness :
  exists moves,
    get_available_moves (mkState board_x_row "O") = Ok moves
    /\ (forall r c, (r, c) ∈ moves <-> cell_at board_x_row r c = Some " ")
    /\ StronglySorted row_major moves
    /\ NoDup moves.
Proof.
  refine (available_moves_are_empty_squares (mkState board_x_row "O") 3 _).
  exact rectangular_x_row.
Defined.

(** ** Boards that are not rectangular *)

Lemma is_ok_bind {A B} (m : res A) (f : A -> res B) :
  is_ok (bind m f) <-> exists a, m = Ok a /\ is_ok (f a).
Proof.
  unfold is_ok. destruct m as [a|e]; simpl; split.
  - intros [b Hb]. eauto.
  - intros (a' & [= <-] & H). exact H.
  - intros [b Hb]. discriminate.
  - intros (a' & H & _). discriminate.
Qed.

Lemma for_each_ok_iff {A S} (l : list A) (F : A -> S -> res S) (P : A -> Prop) (s : S) :
  (forall x s, x ∈ l -> (is_ok (F x s) <-> P x)) ->
  (is_ok (for_each l s F) <-> Forall P l).
Proof.
  revert s. induction l as [|x l IH]; intros s H; simpl.
  - split; [constructor|]. intros _. eexists. reflexivity.
  - rewrite is_ok_bind, Forall_cons. split.
    + intros (s' & Hs' & Hrest). split.
      * apply (H x s); [left|]. eexists. exact Hs'.
      * apply (IH s'); [|exact Hrest]. intros y s0 Hy. apply H. right. exact Hy.
    + intros [Hx Hrest]. destruct (proj2 (H x s (list_elem_of_here _ _)) Hx) as [s' Hs'].
      exists s'. split; [exact Hs'|]. apply IH; [|exact Hrest].
      intros y s0 Hy. apply H. right. exact Hy.
Qed.

Lemma for_each_raise_kind {A S} (l : list A) (F : A -> S -> res S) (e0 e : exn) (s : S) :
  (forall x s e, x ∈ l -> F x s = Raise e -> e = e0) ->
  for_each l s F = Raise e -> e = e0.
Proof.
  revert s. induction l as [|x l IH]; intros s H Hr; simpl in Hr; [discriminate|].
  apply bind_raise in Hr as [Hr|(s' & _ & Hr)].
  - eapply H; [left|exact Hr].
  - eapply IH; [|exact Hr]. intros y s0 e1 Hy. apply H. right. exact Hy.
Qed.

Lemma res_ok_or_raise {A} (r : res A) : is_ok r \/ exists e, r = Raise e.
Proof. destruct r as [a|e]; [left; eexists; reflexivity|right; eauto]. Qed.

Lemma board_get_row_ok b r c row :
  0 <= r -> 0 <= c -> b !! Z.to_nat r = Some row ->
  (is_ok (board_get b r c) <-> c < Z.of_nat (length row)).
Proof.
  intros Hr Hc Hrow. unfold board_get. rewrite py_index_nonneg by exact Hr. rewrite Hrow.
  cbn [bind]. rewrite py_index_ok_iff. unfold py_in_range. split; lia.
Qed.

(** The loop over the columns of row [r] goes through when the row is at
    least as long as the first one. *)
Lemma scan_row_ok b r row (cols : Z) (moves : list Move) :
  0 <= r -> b !! Z.to_nat r = Some row ->
  (is_ok (for_each (py_range cols) moves (fun c moves =>
            cell <- board_get b r c;;
            Ok (if cell =s? " " then moves ++ [(r, c)] else moves)))
   <-> cols <= Z.of_nat (length row)).
Proof.
  intros Hr Hrow.
  rewrite (for_each_ok_iff _ _ (fun c => c < Z.of_nat (length row))).
  - rewrite Forall_forall. split.
    + intros H. destruct (Z_lt_le_dec (Z.of_nat (length row)) cols) as [Hlt|]; [|lia].
      specialize (H (Z.of_nat (length row))). rewrite py_range_elem in H. lia.
    + intros H c Hc. apply py_range_elem in Hc. lia.
  - intros c s Hc. apply py_range_elem in Hc. rewrite is_ok_bind.
    rewrite <- (board_get_row_ok b r c row) by (lia || exact Hrow). split.
    + intros (cell & Hcell & _). eexists. exact Hcell.
    + intros [cell Hcell]. exists cell. split; [exact Hcell|]. eexists. reflexivity.
Qed.

Lemma get_available_moves_ok_iff st :
  is_ok (get_available_moves st) <-> ~ short_row (board st).
Proof.
  unfold get_available_moves. set (b := board st).
  destruct b as [|row0 rest] eqn:Eb.
  - simpl. split; [|intros _; eexists; reflexivity].
    intros _ (row0 & row & H & _). discriminate.
  - rewrite <- Eb.
    assert (Hlen0 : len0 b = Ok (Z.of_nat (length row0))) by (rewrite Eb; reflexivity).
    rewrite (for_each_ok_iff _ _ (fun r => forall row, b !! Z.to_nat r = Some row ->
                                        (length row0 <= length row)%nat)).
    + rewrite Forall_forall. split.
      * intros H (row0' & row & H0 & Hrow & Hshort). rewrite Eb in H0. injection H0 as <-.
        apply list_elem_of_lookup in Hrow as [i Hi].
        specialize (H (Z.of_nat i)). rewrite py_range_elem, Nat2Z.id in H.
        apply lookup_lt_Some in Hi as Hlt. specialize (H ltac:(lia) row Hi). lia.
      * intros H r Hr row Hrow.
        destruct (le_lt_dec (length row0) (length row)) as [|Hlt]; [assumption|].
        exfalso. apply H. exists row0, row. rewrite Eb. split; [reflexivity|].
        split; [|exact Hlt]. rewrite <- Eb. eapply list_elem_of_lookup_2. exact Hrow.
    + intros r s Hr. apply py_range_elem in Hr. rewrite Hlen0. cbn [bind].
      destruct (lookup_lt_is_Some_2 b (Z.to_nat r)) as [row Hrow]; [lia|].
      rewrite (scan_row_ok b r row _ s) by (lia || exact Hrow). split.
      * intros H row' Hrow'. assert (row' = row) by congruence. subst. lia.
      * intros H. specialize (H row Hrow). lia.
Qed.

Lemma get_available_moves_raise st e : get_available_moves st = Raise e -> e = IndexError.
Proof.
  unfold get_available_moves. apply for_each_raise_kind.
  intros r s e' _ H. apply bind_raise in H as [H|(cols & _ & H)].
  - unfold len0 in H. apply bind_raise in H as [H|(? & _ & H)]; [|discriminate].
    eapply py_index_raise. exact H.
  - revert H. apply for_each_raise_kind.
    intros c s' e'' _ H. apply bind_raise in H as [H|(? & _ & H)]; [|discriminate].
    eapply board_get_raise. exact H.
Qed.

(** X7: [get_available_moves] measures every row by the length of the first
    one. It raises [IndexError] exactly when some row is shorter than the
    first row, and succeeds on every other board (on the board without rows
    it returns no move). No other error is raised. *)
Theorem available_moves_index_error (st : State) :
  (get_available_moves st = Raise IndexError <-> short_row (board st))
  /\ (is_ok (get_available_moves st) <-> ~ short_row (board st))
  /\ (board st = [] -> get_available_moves st = Ok []).
Proof.
  pose proof (get_available_moves_ok_iff st) as Hok.
  split; [|split; [exact Hok|]].
  - split.
    + intros Hr. destruct (board st) as [|row0 rest] eqn:Eb.
      { unfold get_available_moves in Hr. rewrite Eb in Hr. discriminate. }
      destruct (decide (Exists (fun row => (length row < length row0)%nat) (row0 :: rest)))
        as [Hex|Hno].
      * apply Exists_exists in Hex as (row & Hrow & Hlt). exists row0, row.
        split; [reflexivity|]. split; [exact Hrow|exact Hlt].
      * exfalso. assert (H : is_ok (get_available_moves st)).
        { apply Hok. intros (row0' & row & [= <-] & Hrow & Hlt). apply Hno.
          apply Exists_exists. exists row. split; [exact Hrow|exact Hlt]. }
        destruct H as [moves H]. congruence.
    + intros Hs. destruct (res_ok_or_raise (get_available_moves st)) as [H|[e H]].
      * apply Hok in H. tauto.
      * rewrite H. f_equal. eapply get_available_moves_raise. exact H.
  - intros Hb. unfold get_available_moves. rewrite Hb. reflexivity.
Qed.

(** ** The moves left after a move *)

Lemma filter_flat_map {A B} (P : B -> Prop) `{forall x, base.Decision (P x)}
    (f : A -> list B) (l : list A) :
  filter P (flat_map f l) = flat_map (fun x => filter P (f x)) l.
Proof.
  induction l as [|x l IH]; simpl; [reflexivity|]. rewrite filter_app, IH. reflexivity.
Qed.

Lemma empty_squares_place b cols r c tok :
  cell_at b r c = Some " " -> tok <> " " ->
  empty_squares (place b (Z.to_nat r) (Z.to_nat c) tok) cols
  = filter (fun mv => mv <> (r, c)) (empty_squares b cols).
Proof.
  intros Hempty Htok. destruct (cell_at_Some _ _ _ _ Hempty) as ([Hr _] & Hc & _).
  unfold empty_squares. rewrite place_length, filter_flat_map.
  apply flat_map_ext_in. intros r' _. rewrite filter_flat_map.
  apply flat_map_ext_in. intros c' _.
  rewrite cell_at_place by eauto.
  destruct (bool_decide_reflect (r' = r /\ c' = c)) as [[-> ->]|Hne].
  - rewrite Hempty, String.eqb_refl, (proj2 (String.eqb_neq tok " ") Htok).
    rewrite filter_cons_False by (intros H; apply H; reflexivity). reflexivity.
  - destruct (cell_at b r' c') as [cell|]; [|reflexivity].
    destruct (cell =s? " "); [|reflexivity].
    rewrite filter_cons_True by (intros [= -> ->]; tauto). reflexivity.
Qed.

(** X8: on a rectangular board, while the side to move is not the blank,
    every move that [get_available_moves] lists is accepted by [apply_move],
    and on the resulting state the list is the same with that one move taken
    out: same moves, same order. *)
Theorem available_moves_after_move (st : State) (cols : nat) (moves : list Move) (mv : Move) :
  rectangular (board st) cols -> whose_move st <> " " ->
  get_available_moves st = Ok moves -> mv ∈ moves ->
  exists st',
    apply_move st mv = Ok st'
    /\ get_available_moves st' = Ok (filter (fun other => other <> mv) moves).
Proof.
  intros Hrect Hside Hmoves Hin.
  rewrite (get_available_moves_ok st cols Hrect) in Hmoves. injection Hmoves as <-.
  assert (Hl : legal st mv) by (apply empty_squares_elem in Hin; tauto).
  exists (moved st mv). split; [apply apply_move_moved; exact Hl|].
  rewrite (get_available_moves_ok (moved st mv) cols) by (apply place_rectangular; exact Hrect).
  f_equal. destruct mv as [r c]. unfold moved. cbn [board fst snd].
  apply empty_squares_place; assumption.
Qed.

Lemma available_moves_after_move_witness :
  exists st',
    apply_move (mkState board_x_row "O") (1, 2) = Ok st'
    /\ get_available_moves st'
       = Ok (filter (fun other => other <> (1, 2)) [(1, 2); (2, 0); (2, 1); (2, 2)]).
Proof.
  refine (available_moves_after_move (mkState board_x_row "O") 3 _ (1, 2) _ _ _ _).
  - exact rectangular_x_row.
  - discriminate.
  - reflexivity.
  - set_solver.
Defined.


(** * The terminal test *)

Lemma cell_at_nil r c : cell_at [] r c = None.
Proof. unfold cell_at. destruct ((0 <=? r) && (0 <=? c)); reflexivity. Qed.

Lemma has_piece_cell b : has_piece b <-> exists r c x, cell_at b r c = Some x /\ (x = "X" \/ x = "O").
Proof.
  unfold has_piece. rewrite Exists_exists. split.
  - intros (row & Hrow & Hx). apply Exists_exists in Hx as (x & Hx & Hp).
    destruct (elem_cell_at b row x Hrow Hx) as (r & c & Hc). eauto.
  - intros (r & c & x & Hc & Hp). destruct (cell_at_elem b r c x Hc) as (row & Hrow & Hx).
    exists row. split; [exact Hrow|]. apply Exists_exists. eauto.
Qed.

Lemma no_space_spec b :
  forallb (fun row => negb (str_in " " row)) b = true <-> no_empty_square b.
Proof.
  unfold no_empty_square. rewrite forallb_forall. split.
  - intros H row x Hrow Hx ->. specialize (H row (proj1 (list_elem_of_In _ _) Hrow)).
    apply negb_true_iff in H. unfold str_in in H.
    assert (Ht : existsb (String.eqb " ") row = true); [|congruence].
    apply existsb_exists. exists " ". split; [apply list_elem_of_In; exact Hx|reflexivity].
  - intros H row Hrow. apply negb_true_iff. apply not_true_iff_false. intros Hs.
    unfold str_in in Hs. apply existsb_exists in Hs as (x & Hx & Heq).
    apply String.eqb_eq in Heq. subst x.
    apply (H row " "); [apply list_elem_of_In; exact Hrow|apply list_elem_of_In; exact Hx|].
    reflexivity.
Qed.

Lemma for_return_none {A B} (l : list A) (body : A -> res (option B)) :
  (forall x, x ∈ l -> body x = Ok None) -> for_return l body = Ok None.
Proof.
  induction l as [|x l IH]; intros H; simpl; [reflexivity|].
  rewrite (H x) by left. cbn [bind]. apply IH. intros y Hy. apply H. right. exact Hy.
Qed.

Lemma is_terminal_no_piece self gt st cols :
  current_game_type self = Some gt -> rectangular (board st) cols ->
  ~ has_piece (board st) ->
  is_terminal self st = Ok (forallb (fun row => negb (str_in " " row)) (board st)).
Proof.
  intros Hgt Hrect Hno. destruct st as [b w]. cbn [board] in *.
  unfold is_terminal. rewrite Hgt. cbn [board].
  rewrite (tester_cols_eq b cols Hrect). cbn [bind].
  rewrite (for_return_none (py_range (Z.of_nat (length b)))).
  - reflexivity.
  - intros r Hr. apply py_range_elem in Hr. apply for_return_none.
    intros c Hc. apply py_range_elem in Hc.
    assert (Hin : inside b cols r c) by (apply inside_tester; lia).
    destruct (board_get_inside b cols Hrect r c Hin) as (x & Hx & ->). cbn [bind].
    rewrite (proj2 (str_in_XO_false x)); [reflexivity|].
    split; intros ->; apply Hno; apply has_piece_cell; exists r, c; eexists;
      (split; [exact Hx|auto]).
Qed.

(** X9: what [is_terminal] answers on a rectangular board. Without a game
    type it answers [False]. With one it answers [True] as soon as the board
    holds a piece of a player, whatever [k] is and whether or not anybody has
    a run (the verdict of the win tester is compared with a text that the
    tester never returns); on a board without pieces it answers [True]
    exactly when no square is empty. *)
Theorem is_terminal_spec (self : OurAgent) (st : State) (cols : nat) :
  rectangular (board st) cols ->
  (current_game_type self = None -> is_terminal self st = Ok false)
  /\ (forall gt, current_game_type self = Some gt ->
        exists t, is_terminal self st = Ok t
          /\ (t = true <-> has_piece (board st) \/ no_empty_square (board st))).
Proof.
  intros Hrect. split.
  - intros Hnone. unfold is_terminal. rewrite Hnone. reflexivity.
  - intros gt Hgt. destruct (decide (has_piece (board st))) as [Hp|Hp].
    + exists true. split; [|tauto].
      apply has_piece_cell in Hp as (r & c & x & Hc & Hx).
      apply (is_terminal_piece self gt Hgt cols st r c x); [|exact Hc|exact Hx].
      split; [exact Hrect|]. intros Hnil. rewrite Hnil, cell_at_nil in Hc. discriminate.
    + eexists. split; [apply (is_terminal_no_piece self gt st cols Hgt Hrect Hp)|].
      rewrite no_space_spec. tauto.
Qed.

Lemma is_terminal_spec_witness :
  exists t, is_terminal (agent_for ttt "X") (mkState board_e2e "X") = Ok t
    /\ (t = true <-> has_piece board_e2e \/ no_empty_square board_e2e).
Proof.
  refine (proj2 (is_terminal_spec (agent_for ttt "X") (mkState board_e2e "X") 3 _) ttt _).
  - repeat constructor.
  - reflexivity.
Defined.

(** X10: below a state that holds a piece of a player the search does not
    look any further: whatever the remaining depth, the window, and the
    pruning, cache and ordering flags, [minimax] returns the static
    evaluation of the state and counts one evaluation; it touches nothing
    else of the agent. *)
Theorem minimax_stops_at_pieces (self : OurAgent) (gt : Game_Type) (st : State) (cols : nat)
    (fuel : nat) (depth_remaining : Z) (pruning : bool) (alpha beta : option num)
    (use_zobrist order_moves : bool) :
  current_game_type self = Some gt -> rectangular (board st) cols ->
  has_piece (board st) ->
  exists v, static_eval self st = Ok v
    /\ minimax (S fuel) self st depth_remaining pruning alpha beta use_zobrist order_moves
       = Ok (Int v, add_static_eval self).
Proof.
  intros Hgt Hrect Hp. apply has_piece_cell in Hp as (r & c & x & Hc & Hx).
  assert (Hgood : good cols st).
  { split; [exact Hrect|]. intros Hnil. rewrite Hnil, cell_at_nil in Hc. discriminate. }
  destruct (static_eval_total self gt Hgt cols st Hgood) as [v Hv]. exists v.
  split; [exact Hv|].
  rewrite (minimax_terminal self fuel self st depth_remaining pruning alpha beta
             use_zobrist order_moves (only_counters_refl self)).
  - rewrite Hv. reflexivity.
  - apply (is_terminal_piece self gt Hgt cols st r c x); assumption.
Qed.

Lemma minimax_stops_at_pieces_witness :
  exists v, static_eval (agent_for ttt "X") (mkState board_e2e "X") = Ok v
    /\ minimax 1 (agent_for ttt "X") (mkState board_e2e "X") 5 true None None true true
       = Ok (Int v, add_static_eval (agent_for ttt "X")).
Proof.
  refine (minimax_stops_at_pieces (agent_for ttt "X") ttt (mkState board_e2e "X") 3
            0 5 true None None true true _ _ _).
  - reflexivity.
  - repeat constructor.
  - left. left. left. reflexivity.
Defined.


(** * The move choice while the game is on *)

Lemma plays_O_not_X self : plays self "O" = true -> plays self "X" = false.
Proof.
  unfold plays. destruct (playing self) as [p|]; [|discriminate].
  intros H. apply String.eqb_eq in H. subst p. reflexivity.
Qed.

(** ** The head of the sorted children *)

Lemma sort_children_head (reverse : bool) (l : list Child) (ch1 : Child) (rest : list Child) :
  sort_children reverse l = ch1 :: rest ->
  exists l1 l2, l = l1 ++ ch1 :: l2
    /\ (forall x, x ∈ l1 -> if reverse then child_key x < child_key ch1
                            else child_key ch1 < child_key x)
    /\ (forall x, x ∈ l2 -> if reverse then child_key x <= child_key ch1
                            else child_key ch1 <= child_key x).
Proof.
  revert ch1 rest. induction l as [|x l IH]; intros ch1 rest Hs; [discriminate|].
  unfold sort_children in Hs. cbn [foldr] in Hs. fold (sort_children reverse l) in Hs.
  destruct (sort_children reverse l) as [|y r'] eqn:E.
  - assert (l = []).
    { apply Permutation_nil. rewrite <- E. exact (sort_children_perm reverse l). }
    subst l. simpl in Hs. injection Hs as <- <-. exists [], [].
    split; [reflexivity|]. split; intros z Hz; inversion Hz.
  - destruct (IH y r' eq_refl) as (l1 & l2 & -> & H1 & H2).
    cbn [insert_child] in Hs.
    destruct ((if reverse then Z.geb else Z.leb) (child_key x) (child_key y)) eqn:Hb.
    + injection Hs as <- <-. exists [], (l1 ++ y :: l2). split; [reflexivity|].
      split; [intros z Hz; inversion Hz|]. intros z Hz.
      rewrite elem_of_app, elem_of_cons in Hz.
      destruct reverse; [rewrite Z.geb_leb in Hb|]; apply Z.leb_le in Hb;
        (destruct Hz as [Hz|[->|Hz]]; [specialize (H1 z Hz)|..|specialize (H2 z Hz)]);
        simpl in *; lia.
    + injection Hs as <- <-. exists (x :: l1), l2. split; [reflexivity|].
      split; [|exact H2]. intros z Hz. rewrite elem_of_cons in Hz.
      destruct Hz as [->|Hz]; [|apply H1; exact Hz].
      destruct reverse; [rewrite Z.geb_leb in Hb|]; apply Z.leb_gt in Hb; lia.
Qed.

(** ** The loop over children that are scored at once *)

Section Greedy.
Variable self0 : OurAgent.
Variable rec : Search.
Variable ab : bool.

Lemma root_loop_settled_X (children : list Child) (m1 : Move) (key1 : Z) :
  plays self0 "X" = true -> scored self0 rec children ->
  (forall ch, ch ∈ children -> child_key ch <= key1) ->
  forall self, only_counters self0 self ->
    exists self',
      root_loop rec ab children (Int key1) PosInf (Some m1) (Int key1) self
        = Ok (Some m1, Int key1, self')
      /\ only_counters self0 self'
      /\ alpha_beta_cutoffs_this_turn self' = alpha_beta_cutoffs_this_turn self
      /\ num_static_evals_this_turn self'
         = num_static_evals_this_turn self + Z.of_nat (length children).
Proof.
  intros HX. induction children as [|[[mv s] key] children IH]; intros Hsc Hle self Hself.
  - exists self. simpl. repeat split; [exact Hself|lia].
  - cbn [root_loop].
    pose proof (Hsc (mv, s, key) self (Some (Int key1)) (Some PosInf)
                    (list_elem_of_here _ _) Hself) as Hcall.
    cbn [fst snd] in Hcall. rewrite Hcall. cbn [bind].
    rewrite (only_counters_plays self0 (add_static_eval self) "X")
      by (apply only_counters_eval; exact Hself).
    rewrite (only_counters_plays self0 (add_static_eval self) "O")
      by (apply only_counters_eval; exact Hself).
    rewrite HX, (plays_X_not_O self0 HX).
    assert (Hk : key <= key1) by (apply (Hle (mv, s, key)); left).
    cbn [num_ltb andb]. rewrite (proj2 (Z.ltb_ge key1 key) Hk).
    cbn [num_leb num_ltb negb]. rewrite andb_false_r.
    destruct (IH) with (self := add_static_eval self) as (self' & Hrun & Hs' & Hc & He).
    + intros ch a b c Hch. apply Hsc. right. exact Hch.
    + intros ch Hch. apply Hle. right. exact Hch.
    + apply only_counters_eval. exact Hself.
    + exists self'. split; [exact Hrun|]. split; [exact Hs'|].
      rewrite Hc, He. cbn [length]. simpl. split; [reflexivity|lia].
Qed.

Lemma root_loop_settled_O (children : list Child) (m1 : Move) (key1 : Z) :
  plays self0 "O" = true -> scored self0 rec children ->
  (forall ch, ch ∈ children -> key1 <= child_key ch) ->
  forall self, only_counters self0 self ->
    exists self',
      root_loop rec ab children NegInf (Int key1) (Some m1) (Int key1) self
        = Ok (Some m1, Int key1, self')
      /\ only_counters self0 self'
      /\ alpha_beta_cutoffs_this_turn self' = alpha_beta_cutoffs_this_turn self
      /\ num_static_evals_this_turn self'
         = num_static_evals_this_turn self + Z.of_nat (length children).
Proof.
  intros HO. induction children as [|[[mv s] key] children IH]; intros Hsc Hle self Hself.
  - exists self. simpl. repeat split; [exact Hself|lia].
  - cbn [root_loop].
    pose proof (Hsc (mv, s, key) self (Some NegInf) (Some (Int key1))
                    (list_elem_of_here _ _) Hself) as Hcall.
    cbn [fst snd] in Hcall. rewrite Hcall. cbn [bind].
    rewrite (only_counters_plays self0 (add_static_eval self) "X")
      by (apply only_counters_eval; exact Hself).
    rewrite (only_counters_plays self0 (add_static_eval self) "O")
      by (apply only_counters_eval; exact Hself).
    rewrite HO, (plays_O_not_X self0 HO).
    assert (Hk : key1 <= key) by (apply (Hle (mv, s, key)); left).
    cbn [num_ltb andb]. rewrite (proj2 (Z.ltb_ge key key1) Hk).
    cbn [num_leb num_ltb negb]. rewrite andb_false_r.
    destruct (IH) with (self := add_static_eval self) as (self' & Hrun & Hs' & Hc & He).
    + intros ch a b c Hch. apply Hsc. right. exact Hch.
    + intros ch Hch. apply Hle. right. exact Hch.
    + apply only_counters_eval. exact Hself.
    + exists self'. split; [exact Hrun|]. split; [exact Hs'|].
      rewrite Hc, He. cbn [length]. simpl. split; [reflexivity|lia].
Qed.

(** With every child scored at once, the loop keeps the first child of a
    list whose first child is the best. *)
Lemma root_loop_first (ch1 : Child) (rest : list Child) :
  plays self0 "X" = true \/ plays self0 "O" = true ->
  scored self0 rec (ch1 :: rest) ->
  (forall ch, ch ∈ rest -> no_worse self0 (child_key ch1) (child_key ch)) ->
  forall self, only_counters self0 self ->
    exists self',
      root_loop rec ab (ch1 :: rest) NegInf PosInf None
                (if plays self0 "X" then NegInf else PosInf) self
        = Ok (Some ch1.1.1, Int (child_key ch1), self')
      /\ only_counters self0 self'
      /\ alpha_beta_cutoffs_this_turn self' = alpha_beta_cutoffs_this_turn self
      /\ num_static_evals_this_turn self'
         = num_static_evals_this_turn self + Z.of_nat (length (ch1 :: rest)).
Proof.
  intros Hside Hsc Hbest self Hself. destruct ch1 as [[m1 s1] key1]. unfold child_key in *.
  cbn [fst snd] in *. cbn [root_loop].
  pose proof (Hsc (m1, s1, key1) self (Some NegInf) (Some PosInf)
                  (list_elem_of_here _ _) Hself) as Hcall.
  cbn [fst snd] in Hcall. rewrite Hcall. cbn [bind].
  rewrite (only_counters_plays self0 (add_static_eval self) "X")
    by (apply only_counters_eval; exact Hself).
  rewrite (only_counters_plays self0 (add_static_eval self) "O")
    by (apply only_counters_eval; exact Hself).
  assert (Hrest : scored self0 rec rest).
  { intros ch a b c Hch. apply Hsc. right. exact Hch. }
  unfold no_worse in Hbest.
  destruct Hside as [HX|HO].
  - rewrite HX in *. cbn [num_ltb andb num_max num_leb negb]. rewrite andb_false_r.
    destruct (root_loop_settled_X rest m1 key1 HX Hrest Hbest (add_static_eval self))
      as (self' & Hrun & Hs' & Hc & He); [apply only_counters_eval; exact Hself|].
    exists self'. split; [exact Hrun|]. split; [exact Hs'|].
    rewrite Hc, He. simpl. split; [reflexivity|lia].
  - rewrite HO, (plays_O_not_X self0 HO) in *.
    cbn [num_ltb andb num_min num_leb negb]. rewrite andb_false_r.
    destruct (root_loop_settled_O rest m1 key1 HO Hrest Hbest (add_static_eval self))
      as (self' & Hrun & Hs' & Hc & He); [apply only_counters_eval; exact Hself|].
    exists self'. split; [exact Hrun|]. split; [exact Hs'|].
    rewrite Hc, He. simpl. split; [reflexivity|lia].
Qed.
End Greedy.

(** ** The children of a state in play *)

Lemma static_eval_at_turn self st : static_eval (at_turn self) st = static_eval self st.
Proof. reflexivity. Qed.

Lemma eval_of_ok self st v : static_eval self st = Ok v -> eval_of self st = v.
Proof. unfold eval_of. intros ->. reflexivity. Qed.

Lemma expand_spec self0 gt cols st moves :
  current_game_type self0 = Some gt -> good cols st -> Forall (legal st) moves ->
  expand self0 st moves
  = Ok (map (fun mv => (mv, moved st mv, eval_of self0 (moved st mv))) moves).
Proof.
  intros Hgt Hgood Hlegal. unfold expand.
  rewrite (for_each_append _ _ (fun mv => [(mv, moved st mv, eval_of self0 (moved st mv))])).
  - simpl. reflexivity.
  - intros mv acc Hmv. rewrite Forall_forall in Hlegal.
    rewrite (apply_move_moved st mv (Hlegal mv Hmv)). cbn [bind].
    destruct (static_eval_total self0 gt Hgt cols (moved st mv) (good_moved cols st mv Hgood))
      as [v Hv].
    rewrite Hv, (eval_of_ok _ _ _ Hv). reflexivity.
Qed.

Lemma moved_has_piece st mv :
  legal st mv -> whose_move st = "X" \/ whose_move st = "O" ->
  exists x, cell_at (board (moved st mv)) mv.1 mv.2 = Some x /\ (x = "X" \/ x = "O").
Proof.
  intros Hl Hw. exists (whose_move st). split; [|exact Hw].
  unfold legal in Hl. destruct (cell_at_Some _ _ _ _ Hl) as ([Hr _] & Hc & _).
  unfold moved. cbn [board]. rewrite cell_at_place by eauto.
  rewrite bool_decide_true by auto. reflexivity.
Qed.

(** Below the root every child holds the piece just placed, so the search
    scores it at once. *)
Lemma children_scored self0 gt cols st moves fuel depth pruning use_zobrist :
  current_game_type self0 = Some gt -> good cols st -> Forall (legal st) moves ->
  whose_move st = "X" \/ whose_move st = "O" ->
  scored self0
    (fun self s alpha beta =>
       minimax (S fuel) self s depth pruning alpha beta use_zobrist true)
    (map (fun mv => (mv, moved st mv, eval_of self0 (moved st mv))) moves).
Proof.
  intros Hgt Hgood Hlegal Hw ch self a b Hch Hself.
  apply list_elem_of_In, in_map_iff in Hch as (mv & <- & Hmv). cbn [fst snd].
  rewrite Forall_forall in Hlegal. apply list_elem_of_In in Hmv.
  pose proof (Hlegal mv Hmv) as Hl.
  destruct (moved_has_piece st mv Hl Hw) as (x & Hx & Hp).
  pose proof (good_moved cols st mv Hgood) as Hgood'.
  rewrite (minimax_terminal self0 fuel self (moved st mv) depth pruning a b use_zobrist true Hself)
    by (apply (is_terminal_piece self0 gt Hgt cols _ mv.1 mv.2 x); assumption).
  destruct (static_eval_total self0 gt Hgt cols (moved st mv) Hgood') as [v Hv].
  rewrite Hv, (eval_of_ok _ _ _ Hv). reflexivity.
Qed.

Lemma sorted_split (l1 l2 : list Move) (mv mv' : Move) :
  StronglySorted row_major (l1 ++ mv :: l2) -> mv' ∈ l1 ++ mv :: l2 ->
  row_major mv' mv -> mv' ∈ l1.
Proof.
  intros Hs Hin Hlt. apply elem_of_app in Hin as [Hin|Hin]; [exact Hin|].
  exfalso. apply StronglySorted_app_1_r in Hs. apply StronglySorted_cons in Hs as [Hall _].
  apply elem_of_cons in Hin as [->|Hin].
  - unfold row_major in Hlt. lia.
  - rewrite Forall_forall in Hall. specialize (Hall mv' Hin).
    unfold row_major in *. lia.
Qed.

Lemma make_move_greedy_run (self : OurAgent) (gt : Game_Type) (st : State) (cols : nat)
    (use_alpha_beta use_zobrist_hashing : bool) (max_ply : Z) (g : Rng) :
  current_game_type self = Some gt -> rectangular (board st) cols ->
  whose_move st = "X" \/ whose_move st = "O" ->
  plays self "X" = true \/ plays self "O" = true ->
  (exists r c, cell_at (board st) r c = Some " ") ->
  exists mv v self1 moves,
    make_move self st use_alpha_beta use_zobrist_hashing max_ply g
      = Ok ({| best_move := mv; new_state := moved st mv; best_value := Int v |},
            set_game self1 (playing self1) (current_game_type self1) (turn_count self1)
                     (game_state_history self1 ++ [moved st mv]), g)
    /\ only_counters (at_turn self) self1
    /\ legal st mv
    /\ static_eval self (moved st mv) = Ok v
    /\ (forall mv' v', legal st mv' -> static_eval self (moved st mv') = Ok v' ->
          no_worse self v v' /\ (row_major mv' mv -> better self v v'))
    /\ get_available_moves st = Ok moves
    /\ num_static_evals_this_turn self1 = Z.of_nat (length moves)
    /\ alpha_beta_cutoffs_this_turn self1 = 0.
Proof.
  intros Hgt Hrect Hw Hside (r0 & c0 & Hsq).
  assert (Hgood : good cols st).
  { split; [exact Hrect|]. intros Hnil. rewrite Hnil, cell_at_nil in Hsq. discriminate. }
  destruct (available_moves_legal cols st Hgood) as (Hmoves & Hlegal).
  set (moves := empty_squares (board st) (Z.of_nat cols)) in *.
  assert (Hgt' : current_game_type (at_turn self) = Some gt) by exact Hgt.
  assert (Hside' : plays (at_turn self) "X" = true \/ plays (at_turn self) "O" = true)
    by exact Hside.
  set (f := fun mv => (mv, moved st mv, eval_of (at_turn self) (moved st mv))).
  pose proof (expand_spec (at_turn self) gt cols st moves Hgt' Hgood Hlegal) as Hexp.
  fold f in Hexp.
  assert (Hin0 : (r0, c0) ∈ moves).
  { apply empty_squares_complete; [|exact Hsq].
    assert (Hin : inside (board st) cols r0 c0) by (apply cell_at_inside; eauto).
    exact (proj2 Hin). }
  destruct (sort_children (plays (at_turn self) "X") (map f moves)) as [|ch1 rest] eqn:Hsort.
  { exfalso. pose proof (sort_children_perm (plays (at_turn self) "X") (map f moves)) as Hp.
    rewrite Hsort in Hp. apply Permutation_nil in Hp. apply map_eq_nil in Hp.
    rewrite Hp in Hin0. inversion Hin0. }
  destruct (sort_children_head _ _ _ _ Hsort) as (l1 & l2 & Hsplit & Hbefore & Hafter).
  apply map_eq_app in Hsplit as (m1 & m2' & Hm & Hl1 & Hl2).
  apply map_eq_cons in Hl2 as (mv & m2 & -> & Hch1 & Hl2).
  assert (Hmv : mv ∈ moves) by (rewrite Hm; apply elem_of_app; right; left).
  assert (Hperm : Permutation (ch1 :: rest) (map f moves)).
  { rewrite <- Hsort. apply sort_children_perm. }
  assert (Hscored : scored (at_turn self)
            (fun self0 s alpha beta =>
               minimax (S (count_empty (board st))) self0 s (max_ply - 1) use_alpha_beta
                       alpha beta use_zobrist_hashing true) (ch1 :: rest)).
  { intros ch s a b Hch. apply (children_scored (at_turn self) gt cols st moves); try assumption.
    fold f. rewrite <- Hperm. exact Hch. }
  assert (Hkeys : forall mv', mv' ∈ moves ->
            no_worse (at_turn self) (child_key ch1) (child_key (f mv'))
            /\ (row_major mv' mv -> better (at_turn self) (child_key ch1) (child_key (f mv')))).
  { intros mv' Hmv'. unfold no_worse, better. split.
    - rewrite Hm in Hmv'. apply elem_of_app in Hmv' as [H|H].
      + assert (Hf : f mv' ∈ l1) by (rewrite <- Hl1; apply list_elem_of_In, in_map, list_elem_of_In, H).
        specialize (Hbefore _ Hf). destruct (plays (at_turn self) "X"); lia.
      + apply elem_of_cons in H as [->|H].
        * rewrite Hch1. destruct (plays (at_turn self) "X"); lia.
        * assert (Hf : f mv' ∈ l2) by (rewrite <- Hl2; apply list_elem_of_In, in_map, list_elem_of_In, H).
          specialize (Hafter _ Hf). destruct (plays (at_turn self) "X"); lia.
    - intros Hlt.
      assert (H : mv' ∈ m1).
      { eapply sorted_split; [|rewrite <- Hm; exact Hmv'|exact Hlt].
        rewrite <- Hm. apply sorted_empty_squares. }
      assert (Hf : f mv' ∈ l1) by (rewrite <- Hl1; apply list_elem_of_In, in_map, list_elem_of_In, H).
      specialize (Hbefore _ Hf). destruct (plays (at_turn self) "X"); lia. }
  destruct (root_loop_first (at_turn self) _ use_alpha_beta ch1 rest Hside' Hscored)
    with (self := at_turn self) as (self1 & Hrun & Hs1 & Hc & He).
  { intros ch Hch.
    assert (Hch' : ch ∈ map f moves) by (rewrite <- Hperm; right; exact Hch).
    apply list_elem_of_In, in_map_iff in Hch' as (mv' & <- & Hmv').
    apply Hkeys. apply list_elem_of_In. exact Hmv'. }
  { apply only_counters_refl. }
  assert (Hl : legal st mv) by (rewrite Forall_forall in Hlegal; apply Hlegal; exact Hmv).
  assert (Hroot : root_search self st use_alpha_beta use_zobrist_hashing max_ply
                  = Ok (moves, Some mv, Int (child_key ch1), self1)).
  { unfold root_search. fold (at_turn self). rewrite Hmoves. cbn [bind].
    rewrite Hexp. cbn [bind]. rewrite Hsort, Hrun. cbn [bind]. rewrite <- Hch1. reflexivity. }
  destruct (static_eval_total (at_turn self) gt Hgt' cols (moved st mv)
              (good_moved cols st mv Hgood)) as [v Hv].
  assert (Hkey1 : child_key ch1 = v).
  { rewrite <- Hch1. unfold f, child_key. cbn [snd]. apply eval_of_ok. exact Hv. }
  exists mv, v, self1, moves. split.
  { unfold make_move. rewrite Hroot. cbn [bind].
    rewrite (apply_move_moved st mv Hl). cbn [bind]. rewrite Hkey1. reflexivity. }
  split; [exact Hs1|]. split; [exact Hl|]. split; [exact Hv|]. split.
  { intros mv' v' Hl' Hv'.
    assert (Hmv' : mv' ∈ moves).
    { destruct mv' as [r' c']. apply empty_squares_complete; [|exact Hl'].
      assert (Hin : inside (board st) cols r' c') by (apply cell_at_inside; eauto).
      exact (proj2 Hin). }
    destruct (Hkeys mv' Hmv') as [H1 H2].
    assert (Hk' : child_key (f mv') = v').
    { unfold f, child_key. cbn [snd]. apply eval_of_ok. exact Hv'. }
    rewrite Hkey1, Hk' in H1, H2. exact (conj H1 H2). }
  split; [exact Hmoves|].
  rewrite He, Hc. cbn. split; [|reflexivity].
  pose proof (Permutation_length Hperm) as Hlen. rewrite length_map in Hlen.
  cbn [length] in *. lia.
Qed.


(** X11: the move an agent that plays ["X"] or ["O"] chooses while a game is
    on (a rectangular board with an empty square, ["X"] or ["O"] to move).
    Every position one move ahead already holds a piece, so the search stops
    there: whatever [max_ply] and the pruning and cache flags are, the agent
    takes the move whose resulting position has the best static evaluation
    (highest for ["X"], lowest for ["O"]) and reports that evaluation; among
    equally good moves it takes the first in scanning order (row by row,
    left to right). It evaluates each available move once in the search and
    counts no cutoff; the random source is not used. *)
Theorem make_move_is_greedy (self : OurAgent) (gt : Game_Type) (st : State) (cols : nat)
    (use_alpha_beta use_zobrist_hashing : bool) (max_ply : Z) (g : Rng) :
  current_game_type self = Some gt -> rectangular (board st) cols ->
  whose_move st = "X" \/ whose_move st = "O" ->
  plays self "X" = true \/ plays self "O" = true ->
  (exists r c, cell_at (board st) r c = Some " ") ->
  exists mv v self' moves,
    make_move self st use_alpha_beta use_zobrist_hashing max_ply g
      = Ok ({| best_move := mv; new_state := moved st mv; best_value := Int v |}, self', g)
    /\ legal st mv
    /\ static_eval self (moved st mv) = Ok v
    /\ (forall mv' v', legal st mv' -> static_eval self (moved st mv') = Ok v' ->
          no_worse self v v' /\ (row_major mv' mv -> better self v v'))
    /\ get_available_moves st = Ok moves
    /\ num_static_evals_this_turn self' = Z.of_nat (length moves)
    /\ alpha_beta_cutoffs_this_turn self' = 0.
Proof.
  intros Hgt Hrect Hw Hside Hsq.
  destruct (make_move_greedy_run self gt st cols use_alpha_beta use_zobrist_hashing max_ply g
              Hgt Hrect Hw Hside Hsq)
    as (mv & v & self1 & moves & Hrun & _ & Hl & Hv & Hbest & Hmoves & He & Hc).
  eexists mv, v, _, moves. split; [exact Hrun|]. split; [exact Hl|]. split; [exact Hv|].
  split; [exact Hbest|]. split; [exact Hmoves|]. split; [exact He|exact Hc].
Qed.

Lemma make_move_is_greedy_witness :
  exists mv v self' moves,
    make_move (agent_for ttt "X") (mkState board_e2e "X") true true 3 rng0
      = Ok ({| best_move := mv; new_state := moved (mkState board_e2e "X") mv;
               best_value := Int v |}, self', rng0)
    /\ legal (mkState board_e2e "X") mv
    /\ static_eval (agent_for ttt "X") (moved (mkState board_e2e "X") mv) = Ok v
    /\ (forall mv' v', legal (mkState board_e2e "X") mv' ->
          static_eval (agent_for ttt "X") (moved (mkState board_e2e "X") mv') = Ok v' ->
          no_worse (agent_for ttt "X") v v'
          /\ (row_major mv' mv -> better (agent_for ttt "X") v v'))
    /\ get_available_moves (mkState board_e2e "X") = Ok moves
    /\ num_static_evals_this_turn self' = Z.of_nat (length moves)
    /\ alpha_beta_cutoffs_this_turn self' = 0.
Proof.
  refine (make_move_is_greedy (agent_for ttt "X") ttt (mkState board_e2e "X") 3
            true true 3 rng0 _ _ _ _ _).
  - reflexivity.
  - repeat constructor.
  - left. reflexivity.
  - left. reflexivity.
  - exists 0, 2. reflexivity.
Defined.

(** X13: while a game is on (a rectangular board, ["X"] or ["O"] to move,
    an agent that plays ["X"] or ["O"]), a move choice never gets as far as
    the transposition table, even with hashing switched on: the table and
    the counters of reads, hits and writes are after the call what they were
    before it. *)
Theorem make_move_leaves_cache (self : OurAgent) (gt : Game_Type) (st : State) (cols : nat)
    (use_alpha_beta : bool) (max_ply : Z) (g : Rng) :
  current_game_type self = Some gt -> rectangular (board st) cols ->
  whose_move st = "X" \/ whose_move st = "O" ->
  plays self "X" = true \/ plays self "O" = true ->
  (exists r c, cell_at (board st) r c = Some " ") ->
  exists d self',
    make_move self st use_alpha_beta true max_ply g = Ok (d, self', g)
    /\ transposition_table self' = transposition_table self
    /\ zobrist_read_attempt_count self' = zobrist_read_attempt_count self
    /\ zobrist_hit_count self' = zobrist_hit_count self
    /\ zobrist_write_count self' = zobrist_write_count self.
Proof.
  intros Hgt Hrect Hw Hside Hsq.
  destruct (make_move_greedy_run self gt st cols use_alpha_beta true max_ply g
              Hgt Hrect Hw Hside Hsq)
    as (mv & v & self1 & moves & Hrun & (x & y & ->) & _).
  eexists _, _. split; [exact Hrun|]. repeat split.
Qed.

Lemma make_move_leaves_cache_witness :
  exists d self',
    make_move (agent_for ttt "X") (mkState board_e2e "X") true true 3 rng0 = Ok (d, self', rng0)
    /\ transposition_table self' = transposition_table (agent_for ttt "X")
    /\ zobrist_read_attempt_count self' = zobrist_read_attempt_count (agent_for ttt "X")
    /\ zobrist_hit_count self' = zobrist_hit_count (agent_for ttt "X")
    /\ zobrist_write_count self' = zobrist_write_count (agent_for ttt "X").
Proof.
  refine (make_move_leaves_cache (agent_for ttt "X") ttt (mkState board_e2e "X") 3
            true 3 rng0 _ _ _ _ _).
  - reflexivity.
  - repeat constructor.
  - left. reflexivity.
  - left. reflexivity.
  - exists 0, 2. reflexivity.
Defined.


(** * What a move choice does to the agent *)

Lemma same_game_refl a : same_game a a.
Proof. repeat split. Qed.

Lemma same_game_trans a b c : same_game a b -> same_game b c -> same_game a c.
Proof.
  intros (H1 & H2 & H3 & H4 & H5) (G1 & G2 & G3 & G4 & G5).
  repeat split; congruence.
Qed.

Lemma same_game_counters a x y : same_game a (set_counters a x y).
Proof. repeat split. Qed.

Lemma same_game_zobrist a t w r h : same_game a (set_zobrist a (zobrist_keys a) t w r h).
Proof. repeat split. Qed.

Lemma max_loop_keeps_game rec pruning children :
  keeps_game rec ->
  forall alpha beta best self v self',
    max_loop rec pruning children alpha beta best self = Ok (v, self') -> same_game self self'.
Proof.
  intros Hrec. induction children as [|[[mv s] key] children IH];
    intros alpha beta best self v self' H; cbn [max_loop] in H.
  - injection H as _ <-. apply same_game_refl.
  - apply bind_ok in H as ([value self1] & Hcall & H). apply Hrec in Hcall.
    apply (same_game_trans _ self1); [exact Hcall|].
    destruct pruning.
    + apply bind_ok in H as ([a b] & _ & H).
      destruct (num_leb b (num_max a (num_max best value))).
      * injection H as _ <-. apply same_game_counters.
      * eapply IH. exact H.
    + eapply IH. exact H.
Qed.

Lemma min_loop_keeps_game rec pruning children :
  keeps_game rec ->
  forall alpha beta best self v self',
    min_loop rec pruning children alpha beta best self = Ok (v, self') -> same_game self self'.
Proof.
  intros Hrec. induction children as [|[[mv s] key] children IH];
    intros alpha beta best self v self' H; cbn [min_loop] in H.
  - injection H as _ <-. apply same_game_refl.
  - apply bind_ok in H as ([value self1] & Hcall & H). apply Hrec in Hcall.
    apply (same_game_trans _ self1); [exact Hcall|].
    destruct pruning.
    + apply bind_ok in H as ([a b] & _ & H).
      destruct (num_leb (num_min b (num_min best value)) a).
      * injection H as _ <-. apply same_game_counters.
      * eapply IH. exact H.
    + eapply IH. exact H.
Qed.

Lemma minimax_keeps_game fuel depth pruning use_zobrist order_moves :
  keeps_game (fun self st alpha beta =>
                minimax fuel self st depth pruning alpha beta use_zobrist order_moves).
Proof.
  revert depth. induction fuel as [|fuel IH]; intros depth self st alpha beta v self' H;
    cbn [minimax] in H; [discriminate|].
  apply bind_ok in H as (leaf & _ & H). destruct leaf.
  - apply bind_ok in H as (x & _ & H). injection H as _ <-. apply same_game_counters.
  - apply bind_ok in H as (h & _ & H).
    set (self1 := if use_zobrist then _ else self) in H.
    assert (H1 : same_game self self1).
    { unfold self1. destruct use_zobrist; [apply same_game_zobrist|apply same_game_refl]. }
    apply (same_game_trans _ self1); [exact H1|]. clearbody self1.
    destruct (if use_zobrist then transposition_table self1 !! h else None) as [cached|].
    + injection H as _ <-. apply same_game_zobrist.
    + apply bind_ok in H as (moves & _ & H). apply bind_ok in H as (children & _ & H).
      apply bind_ok in H as ([best self2] & Hloop & H).
      assert (H2 : same_game self1 self2).
      { destruct (whose_move st =s? "X").
        - eapply max_loop_keeps_game; [|exact Hloop]. apply IH.
        - eapply min_loop_keeps_game; [|exact Hloop]. apply IH. }
      apply (same_game_trans _ self2); [exact H2|].
      injection H as _ <-. destruct use_zobrist; [apply same_game_zobrist|apply same_game_refl].
Qed.

Lemma root_loop_result rec ab children :
  keeps_game rec ->
  forall alpha beta bm bv self bm' bv' self',
    root_loop rec ab children alpha beta bm bv self = Ok (bm', bv', self') ->
    same_game self self'
    /\ (bm' = bm \/ exists ch, ch ∈ children /\ bm' = Some ch.1.1).
Proof.
  intros Hrec. induction children as [|[[mv s] key] children IH];
    intros alpha beta bm bv self bm' bv' self' H; cbn [root_loop] in H.
  - injection H as <- _ <-. split; [apply same_game_refl|left; reflexivity].
  - apply bind_ok in H as ([value self1] & Hcall & H). apply Hrec in Hcall.
    set (upd := if plays self1 "X" && num_ltb bv value then _ else _) in H.
    assert (Hupd : upd.1.1.2 = bm \/ upd.1.1.2 = Some mv).
    { unfold upd. destruct (plays self1 "X" && num_ltb bv value); [right; reflexivity|].
      destruct (plays self1 "O" && num_ltb value bv); [right; reflexivity|left; reflexivity]. }
    destruct upd as [[[bv1 bm1] a1] b1]. cbn [fst snd] in Hupd.
    assert (Hin : forall ch, ch ∈ children -> ch ∈ (mv, s, key) :: children)
      by (intros; right; assumption).
    destruct (ab && num_leb b1 a1).
    + injection H as <- _ <-. split.
      * apply (same_game_trans _ self1); [exact Hcall|apply same_game_counters].
      * destruct Hupd as [->| ->]; [left; reflexivity|].
        right. exists (mv, s, key). split; [left|reflexivity].
    + apply IH in H as [Hsame [->|(ch & Hch & ->)]].
      * split; [apply (same_game_trans _ self1); assumption|].
        destruct Hupd as [->| ->]; [left; reflexivity|].
        right. exists (mv, s, key). split; [left|reflexivity].
      * split; [apply (same_game_trans _ self1); assumption|].
        right. exists ch. split; [right; exact Hch|reflexivity].
Qed.

Lemma expand_moves_acc self st moves :
  forall acc children,
    for_each moves acc (fun move children =>
      child_state <- apply_move st move;;
      child_eval <- static_eval self child_state;;
      Ok (children ++ [(move, child_state, child_eval)])) = Ok children ->
    map (fun ch : Child => ch.1.1) children = map (fun ch : Child => ch.1.1) acc ++ moves.
Proof.
  induction moves as [|mv moves IH]; intros acc children H; simpl in H.
  - injection H as <-. rewrite app_nil_r. reflexivity.
  - apply bind_ok in H as (acc' & Hstep & H). apply IH in H. rewrite H.
    apply bind_ok in Hstep as (s & _ & Hstep). apply bind_ok in Hstep as (v & _ & Hstep).
    injection Hstep as <-. rewrite map_app, <- app_assoc. reflexivity.
Qed.

Lemma expand_moves self st moves children :
  expand self st moves = Ok children -> map (fun ch : Child => ch.1.1) children = moves.
Proof. intros H. apply expand_moves_acc in H. exact H. Qed.

Lemma random_choice_elem {A} (l : list A) (g g' : Rng) (x : A) :
  random_choice l g = Ok (x, g') -> x ∈ l /\ cursor g' = S (cursor g).
Proof.
  unfold random_choice. intros H. apply bind_ok in H as (y & Hy & H). injection H as <- <-.
  split; [|reflexivity]. unfold py_index in Hy.
  destruct ((0 <=? _) && (_ <? _)); [|discriminate].
  destruct (l !! _) eqn:E; [|discriminate]. injection Hy as <-.
  eapply list_elem_of_lookup_2. exact E.
Qed.

Lemma root_search_result self st ab zob ply moves bm bv self' :
  root_search self st ab zob ply = Ok (moves, bm, bv, self') ->
  get_available_moves st = Ok moves
  /\ same_game (at_turn self) self'
  /\ (forall mv, bm = Some mv -> mv ∈ moves).
Proof.
  intros H. pose proof (root_search_moves _ _ _ _ _ _ _ _ _ H) as Hmoves.
  split; [exact Hmoves|]. unfold root_search in H. fold (at_turn self) in H.
  rewrite Hmoves in H. cbn [bind] in H.
  apply bind_ok in H as (children & Hexp & H).
  apply bind_ok in H as ([[bm0 bv0] s0] & Hloop & H). injection H as <- <- <-.
  apply root_loop_result in Hloop as [Hsame Hbm]; [|apply minimax_keeps_game].
  split; [exact Hsame|]. intros mv ->.
  destruct Hbm as [Hbm|(ch & Hch & Hbm)]; [discriminate|]. injection Hbm as ->.
  rewrite sort_children_perm in Hch. rewrite <- (expand_moves _ _ _ _ Hexp).
  apply list_elem_of_In, (in_map (fun ch : Child => ch.1.1)), list_elem_of_In. exact Hch.
Qed.

(** X12: whenever [make_move] returns, whatever the flags and the depth:
    the move it returns is one of the moves [get_available_moves] lists (so
    it targets an empty square), the state it returns is that move applied
    to the current state, the turn count has gone up by one, the new state
    has been appended to the history of the agent, and the side, the game
    type and the hash keys of the agent are what they were. The random
    source is read at most once. *)
Theorem make_move_bookkeeping (self : OurAgent) (st : State)
    (use_alpha_beta use_zobrist_hashing : bool) (max_ply : Z) (g : Rng)
    (d : Decision) (self' : OurAgent) (g' : Rng) :
  make_move self st use_alpha_beta use_zobrist_hashing max_ply g = Ok (d, self', g') ->
  (exists moves, get_available_moves st = Ok moves /\ best_move d ∈ moves)
  /\ board_get (board st) (best_move d).1 (best_move d).2 = Ok " "
  /\ apply_move st (best_move d) = Ok (new_state d)
  /\ turn_count self' = turn_count self + 1
  /\ game_state_history self' = game_state_history self ++ [new_state d]
  /\ playing self' = playing self
  /\ current_game_type self' = current_game_type self
  /\ zobrist_keys self' = zobrist_keys self
  /\ (g' = g \/ cursor g' = S (cursor g)).
Proof.
  intros H. unfold make_move in H.
  apply bind_ok in H as ([[[moves bm] bv] s1] & Hroot & H).
  apply root_search_result in Hroot as (Hmoves & Hsame & Hbm).
  apply bind_ok in H as ([mv g1] & Hpick & H).
  apply bind_ok in H as (st' & Happ & H). injection H as <- <- <-. cbn [best_move new_state].
  assert (Hmv : mv ∈ moves /\ (g1 = g \/ cursor g1 = S (cursor g))).
  { destruct bm as [mv0|].
    - injection Hpick as <- <-. split; [apply Hbm; reflexivity|left; reflexivity].
    - destruct moves as [|m0 ms]; [discriminate|].
      apply random_choice_elem in Hpick as [Hin Hc]. split; [exact Hin|right; exact Hc]. }
  destruct Hmv as [Hmv Hg]. destruct Hsame as (H1 & H2 & H3 & H4 & H5).
  split; [exists moves; split; assumption|]. split.
  { pose proof (available_moves_empty st moves Hmoves) as He.
    rewrite Forall_forall in He. apply He. exact Hmv. }
  split; [exact Happ|]. cbn.
  rewrite H3, H4, H1, H2, H5. repeat split; try reflexivity. exact Hg.
Qed.

Lemma make_move_bookkeeping_witness :
  exists d self' g',
    make_move (agent_for ttt "O") (mkState board_e2e "O") true true 2 rng0 = Ok (d, self', g')
    /\ apply_move (mkState board_e2e "O") (best_move d) = Ok (new_state d)
    /\ turn_count self' = turn_count (agent_for ttt "O") + 1.
Proof.
  eexists _, _, _. split; [vm_compute; reflexivity|].
  refine ((fun H => conj (proj1 (proj2 (proj2 H))) (proj1 (proj2 (proj2 (proj2 H)))))
            (make_move_bookkeeping (agent_for ttt "O") (mkState board_e2e "O")
               true true 2 rng0 _ _ _ _)).
  vm_compute. reflexivity.
Defined.


(** * When the search finds no best move *)

(** C2: the move choice of an agent set up to play ["X"] or ["O"], on a
    rectangular board (cache off, or ["X"] or ["O"] to move). The root
    search returns. When it ends without a move that improved on the
    initial extreme value, no move is available, the value is still that
    extreme, and the move choice raises the no-valid-moves error. When it
    ends with a best move, the move choice returns that very move, applied
    to the current state, with the value the search found. In neither case
    is the random source read: no legal move is ever substituted for the
    missing result of the search. *)
Theorem no_best_move_raises (self : OurAgent) (gt : Game_Type) (st : State) (cols : nat)
    (use_alpha_beta use_zobrist_hashing : bool) (max_ply : Z) (g : Rng) :
  current_game_type self = Some gt -> rectangular (board st) cols ->
  use_zobrist_hashing = false \/ whose_move st = "X" \/ whose_move st = "O" ->
  plays self "X" = true \/ plays self "O" = true ->
  exists moves bm bv self1,
    root_search self st use_alpha_beta use_zobrist_hashing max_ply = Ok (moves, bm, bv, self1)
    /\ get_available_moves st = Ok moves
    /\ (bm = None ->
        moves = []
        /\ bv = (if plays self "X" then NegInf else PosInf)
        /\ make_move self st use_alpha_beta use_zobrist_hashing max_ply g = Raise NoValidMoves)
    /\ (forall mv, bm = Some mv ->
        mv ∈ moves
        /\ exists st' self',
             apply_move st mv = Ok st'
             /\ make_move self st use_alpha_beta use_zobrist_hashing max_ply g
                = Ok ({| best_move := mv; new_state := st'; best_value := bv |}, self', g)).
Proof.
  intros Hgt Hrect Hcase Hside.
  destruct (root_search_same self gt st cols max_ply use_zobrist_hashing Hgt Hrect Hcase)
    as (bm & bv & s1 & s2 & H1 & H2 & _ & _ & Hfinds).
  assert (Hs : exists s, root_search self st use_alpha_beta use_zobrist_hashing max_ply
                         = Ok (empty_squares (board st) (Z.of_nat cols), bm, bv, s))
    by (destruct use_alpha_beta; eauto).
  destruct Hs as [s Hs].
  destruct (root_search_result _ _ _ _ _ _ _ _ _ Hs) as (Hmoves & _ & Hin).
  exists (empty_squares (board st) (Z.of_nat cols)), bm, bv, s.
  split; [exact Hs|]. split; [exact Hmoves|]. split.
  - intros ->.
    assert (Hnil : empty_squares (board st) (Z.of_nat cols) = []).
    { destruct (decide (empty_squares (board st) (Z.of_nat cols) = [])) as [|Hne];
        [assumption|]. exfalso. apply (Hfinds Hside Hne). reflexivity. }
    split; [exact Hnil|]. split.
    + rewrite Hnil in Hs, Hmoves. unfold root_search in Hs. rewrite Hmoves in Hs.
      cbn in Hs. injection Hs as <- _. reflexivity.
    + unfold make_move. rewrite Hs, Hnil. reflexivity.
  - intros mv ->. specialize (Hin mv eq_refl). split; [exact Hin|].
    pose proof (available_moves_empty st _ Hmoves) as Hempty.
    rewrite Forall_forall in Hempty. specialize (Hempty mv Hin).
    destruct mv as [r c]. cbn [fst snd] in Hempty.
    destruct (apply_move_empty st r c Hempty) as (row & row' & b' & _ & _ & _ & Happly).
    eexists _, _. split; [exact Happly|].
    unfold make_move. rewrite Hs. cbn [bind]. rewrite Happly. reflexivity.
Qed.

Lemma no_best_move_raises_witness :
  make_move (agent_for ttt "O")
            (mkState [["X"; "O"; "X"]; ["X"; "O"; "O"]; ["O"; "X"; "X"]] "O") true false 3 rng0
  = Raise NoValidMoves.
Proof.
  destruct (no_best_move_raises
              (agent_for ttt "O") ttt
              (mkState [["X"; "O"; "X"]; ["X"; "O"; "O"]; ["O"; "X"; "X"]] "O") 3
              true false 3 rng0)
    as (moves & bm & bv & s & Hs & _ & Hnone & _).
  - reflexivity.
  - repeat constructor.
  - left. reflexivity.
  - right. reflexivity.
  - apply Hnone. vm_compute in Hs. injection Hs as _ Hbm _ _. symmetry. exact Hbm.
Defined.


(** * Symmetry of the static evaluation *)

Lemma res_rel_bind {A B A' B'} (R : A -> A' -> Prop) (Q : B -> B' -> Prop)
    (m : res A) (m' : res A') (f : A -> res B) (f' : A' -> res B') :
  res_rel R m m' -> (forall a a', R a a' -> res_rel Q (f a) (f' a')) ->
  res_rel Q (bind m f) (bind m' f').
Proof.
  intros Hm Hf. destruct m as [a|e], m' as [a'|e']; simpl in *; try contradiction.
  - apply Hf. exact Hm.
  - exact Hm.
Qed.

Lemma for_each_rel {A S S'} (R : S -> S' -> Prop) (l : list A)
    (F : A -> S -> res S) (F' : A -> S' -> res S') :
  (forall x s s', R s s' -> res_rel R (F x s) (F' x s')) ->
  forall s s', R s s' -> res_rel R (for_each l s F) (for_each l s' F').
Proof.
  intros HF. induction l as [|x l IH]; intros s s' Hs; simpl; [exact Hs|].
  apply (res_rel_bind R R); [apply HF; exact Hs|]. exact IH.
Qed.

Lemma py_index_map {A B} (f : A -> B) (l : list A) (i : Z) :
  py_index (map f l) i = (x <- py_index l i;; Ok (f x)).
Proof.
  unfold py_index, py_norm. rewrite length_map.
  destruct ((0 <=? _) && (_ <? _)); [|reflexivity].
  change (map f l) with (f <$> l). rewrite list_lookup_fmap.
  destruct (l !! _); reflexivity.
Qed.

Lemma board_get_swap b r c :
  board_get (swap_board b) r c = (x <- board_get b r c;; Ok (swap_token x)).
Proof.
  unfold board_get, swap_board. rewrite py_index_map.
  destruct (py_index b r) as [row|e]; [|reflexivity]. cbn [bind]. apply py_index_map.
Qed.

Lemma len0_swap b : len0 (swap_board b) = len0 b.
Proof.
  unfold len0, swap_board. rewrite py_index_map.
  destruct (py_index b 0) as [row|e]; [|reflexivity]. cbn [bind]. rewrite length_map.
  reflexivity.
Qed.

Lemma cells_of_swap b cells :
  cells_of (swap_board b) cells = (xs <- cells_of b cells;; Ok (map swap_token xs)).
Proof.
  induction cells as [|[r c] cells IH]; [reflexivity|]. cbn [cells_of].
  rewrite board_get_swap, IH. destruct (board_get b r c) as [x|e]; [|reflexivity].
  cbn [bind]. destruct (cells_of b cells) as [xs|e]; reflexivity.
Qed.

(** The sequences of the swapped board are the swapped sequences. *)
Lemma sequences_swap st k :
  res_rel (fun seqs seqs' => seqs' = map (map swap_token) seqs)
          (get_all_possible_sequences st k) (get_all_possible_sequences (swapped st) k).
Proof.
  unfold get_all_possible_sequences, swapped. cbn [board].
  assert (Hlen : length (swap_board (board st)) = length (board st))
    by (unfold swap_board; apply length_map).
  rewrite len0_swap, !Hlen.
  set (R := fun seqs seqs' : list (list string) => seqs' = map (map swap_token) seqs).
  assert (Hstep : forall cells (s s' : list (list string)), R s s' ->
    res_rel R (x <- cells_of (board st) cells;; Ok (s ++ [x]))
              (x <- cells_of (swap_board (board st)) cells;; Ok (s' ++ [x]))).
  { intros cells s s' Hs. rewrite cells_of_swap.
    destruct (cells_of (board st) cells) as [xs|e]; simpl; [|reflexivity].
    unfold R in *. rewrite Hs, map_app. reflexivity. }
  destruct (len0 (board st)) as [cols|e]; [|reflexivity]. cbn [bind].
  apply (res_rel_bind R R).
  { apply for_each_rel; [|reflexivity]. intros r s s' Hs.
    apply for_each_rel; [|exact Hs]. intros c t t' Ht. apply Hstep. exact Ht. }
  intros s1 s1' H1. apply (res_rel_bind R R).
  { apply for_each_rel; [|exact H1]. intros c s s' Hs.
    apply for_each_rel; [|exact Hs]. intros r t t' Ht. apply Hstep. exact Ht. }
  intros s2 s2' H2. apply (res_rel_bind R R).
  { apply for_each_rel; [|exact H2]. intros r s s' Hs.
    apply for_each_rel; [|exact Hs]. intros c t t' Ht. apply Hstep. exact Ht. }
  intros s3 s3' H3.
  apply for_each_rel; [|exact H3]. intros r s s' Hs.
  apply for_each_rel; [|exact Hs]. intros c t t' Ht. apply Hstep. exact Ht.
Qed.

Lemma swap_token_X x : swap_token x = "X" <-> x = "O".
Proof.
  unfold swap_token. destruct (String.eqb_spec x "X") as [->|HX]; [split; discriminate|].
  destruct (String.eqb_spec x "O") as [->|HO]; [tauto|]. tauto.
Qed.

Lemma swap_token_O x : swap_token x = "O" <-> x = "X".
Proof.
  unfold swap_token. destruct (String.eqb_spec x "X") as [->|HX]; [tauto|].
  destruct (String.eqb_spec x "O") as [->|HO]; [split; discriminate|]. tauto.
Qed.

Lemma swap_token_space x : swap_token x = " " <-> x = " ".
Proof.
  unfold swap_token. destruct (String.eqb_spec x "X") as [->|HX]; [split; discriminate|].
  destruct (String.eqb_spec x "O") as [->|HO]; [split; discriminate|]. tauto.
Qed.

Lemma py_count_swap (p q : string) (seq : list string) :
  (forall x, swap_token x = p <-> x = q) ->
  py_count p (map swap_token seq) = py_count q seq.
Proof.
  intros H. induction seq as [|y seq IH]; [reflexivity|].
  cbn [map]. rewrite !py_count_cons, IH.
  rewrite (bool_decide_ext _ _ (H y)). reflexivity.
Qed.

Lemma sequence_score_swap k seq :
  sequence_score k "X" (map swap_token seq) = sequence_score k "O" seq
  /\ sequence_score k "O" (map swap_token seq) = sequence_score k "X" seq.
Proof.
  unfold sequence_score.
  rewrite (py_count_swap "X" "O" seq swap_token_X), (py_count_swap "O" "X" seq swap_token_O),
    (py_count_swap " " " " seq swap_token_space).
  split; reflexivity.
Qed.

Lemma count_sequences_swap self st :
  count_sequences self (swapped st) "X" = count_sequences self st "O"
  /\ count_sequences self (swapped st) "O" = count_sequences self st "X".
Proof.
  unfold count_sequences. destruct (game_type_of self) as [gt|e]; [|split; reflexivity].
  cbn [bind]. pose proof (sequences_swap st (k gt)) as Hrel.
  destruct (get_all_possible_sequences st (k gt)) as [seqs|e],
           (get_all_possible_sequences (swapped st) (k gt)) as [seqs'|e'];
    simpl in Hrel; try contradiction; [|subst; split; reflexivity].
  subst seqs'. cbn [bind]. rewrite !fold_left_sumZ, !sumZ_map.
  split; f_equal; f_equal; apply sumZ_ext; intros seq _; apply sequence_score_swap.
Qed.

Lemma static_eval_swapped self st :
  static_eval self (swapped st) = (v <- static_eval self st;; Ok (- v)).
Proof.
  unfold static_eval. destruct (count_sequences_swap self st) as [-> ->].
  unfold count_sequences. destruct (game_type_of self) as [gt|e]; [|reflexivity].
  cbn [bind]. destruct (get_all_possible_sequences st (k gt)) as [seqs|e]; [|reflexivity].
  cbn [bind]. f_equal. lia.
Qed.

(** X14: exchanging the pieces of the two players on the board changes the
    sign of the static evaluation and nothing else; where the evaluation
    raises, it raises the same exception on the exchanged board. *)
Theorem static_eval_swap (self : OurAgent) (st : State) :
  static_eval self {| board := map (map swap_token) (board st); whose_move := whose_move st |}
  = (v <- static_eval self st;; Ok (- v)).
Proof.
  change {| board := map (map swap_token) (board st); whose_move := whose_move st |}
    with (swapped st).
  unfold static_eval. destruct (count_sequences_swap self st) as [-> ->].
  destruct (count_sequences self st "O") as [o|e] eqn:HO,
           (count_sequences self st "X") as [x|e'] eqn:HX; cbn [bind]; try reflexivity.
  - f_equal. lia.
  - unfold count_sequences in HO, HX.
    destruct (game_type_of self) as [gt|e0]; cbn [bind] in HO, HX; [|congruence].
    destruct (get_all_possible_sequences st (k gt)); cbn [bind] in HO, HX; congruence.
Qed.

Lemma swap_board_no_piece b : ~ has_piece b -> swap_board b = b.
Proof.
  intros Hno. unfold swap_board. rewrite <- (map_id b) at 2.
  apply map_ext_in. intros row Hrow. rewrite <- (map_id row) at 2.
  apply map_ext_in. intros x Hx. unfold swap_token.
  destruct (String.eqb_spec x "X") as [->|HX];
    [|destruct (String.eqb_spec x "O") as [->|HO]; [|reflexivity]];
    exfalso; apply Hno; apply Exists_exists; exists row;
    (split; [apply list_elem_of_In; exact Hrow|]); apply Exists_exists;
    eexists; (split; [apply list_elem_of_In; exact Hx|]); auto.
Qed.

(** X15: a board on which neither player has a piece evaluates to 0,
    whatever [k] is and wherever its empty and forbidden squares are. *)
Theorem static_eval_no_pieces (self : OurAgent) (gt : Game_Type) (st : State) (cols : nat) :
  current_game_type self = Some gt -> rectangular (board st) cols -> board st <> [] ->
  ~ has_piece (board st) ->
  static_eval self st = Ok 0.
Proof.
  intros Hgt Hrect Hne Hno.
  destruct (static_eval_total self gt Hgt cols st (conj Hrect Hne)) as [v Hv].
  pose proof (static_eval_swapped self st) as Hs.
  unfold swapped in Hs. rewrite (swap_board_no_piece _ Hno) in Hs.
  destruct st as [b w]. cbn [board whose_move] in Hs. rewrite Hv in Hs. cbn [bind] in Hs.
  injection Hs as Hs. rewrite Hv. f_equal. lia.
Qed.

Lemma static_eval_no_pieces_witness :
  static_eval (agent_for ttt "X") (mkState [[" "; "-"; " "]; [" "; " "; "-"]] "X") = Ok 0.
Proof.
  refine (static_eval_no_pieces (agent_for ttt "X") ttt _ 3 _ _ _ _).
  - reflexivity.
  - repeat constructor.
  - discriminate.
  - unfold has_piece. cbn [board]. intros H. apply Exists_exists in H as (row & Hrow & H).
    apply Exists_exists in H as (x & Hx & Hp).
    rewrite !elem_of_cons, elem_of_nil in Hrow.
    destruct Hrow as [->|[->|[]]]; rewrite !elem_of_cons, elem_of_nil in Hx;
      destruct Hx as [->|[->|[->|[]]]]; destruct Hp; discriminate.
Defined.

(** ** Edge cases of the static evaluation *)

Lemma code_sequences_small b cols k :
  Z.of_nat (length b) < k -> Z.of_nat cols < k -> code_sequences b cols k = [].
Proof.
  intros Hr Hc. unfold code_sequences.
  rewrite (py_range_nonpos (Z.of_nat cols - k + 1)) by lia.
  rewrite (py_range_nonpos (Z.of_nat (length b) - k + 1)) by lia.
  simpl. rewrite !app_nil_r.
  induction (py_range (Z.of_nat (length b))) as [|r l IH];
  induction (py_range (Z.of_nat cols)) as [|c l' IH']; simpl; auto.
Qed.

(** X16: the edge cases of [static_eval]. On an agent without a game type
    it raises [AttributeError]; with a game type, on a board without rows it
    raises [IndexError]; and on a rectangular board that has fewer rows and
    fewer columns than [k] there is no sequence to score and it returns 0. *)
Theorem static_eval_edges (self : OurAgent) (st : State) :
  (current_game_type self = None -> static_eval self st = Raise AttributeError)
  /\ (forall gt, current_game_type self = Some gt -> board st = [] ->
        static_eval self st = Raise IndexError)
  /\ (forall gt cols, current_game_type self = Some gt ->
        rectangular (board st) cols -> board st <> [] ->
        Z.of_nat (length (board st)) < k gt -> Z.of_nat cols < k gt ->
        static_eval self st = Ok 0).
Proof.
  split; [|split].
  - intros Hnone. unfold static_eval, count_sequences, game_type_of. rewrite Hnone. reflexivity.
  - intros gt Hgt Hb. unfold static_eval, count_sequences, game_type_of. rewrite Hgt.
    cbn [bind]. unfold get_all_possible_sequences. rewrite Hb. reflexivity.
  - intros gt cols Hgt Hrect Hne Hr Hc. destruct st as [b w]. cbn [board] in *.
    unfold static_eval, count_sequences, game_type_of. rewrite Hgt. cbn [bind].
    rewrite (get_all_possible_sequences_ok b cols Hrect Hne w (k gt)).
    rewrite (code_sequences_small b cols (k gt) Hr Hc). reflexivity.
Qed.


(** * The keys drawn at setup *)

Lemma draw_tokens r c keys g :
  fold_left (draw_key r c) ["X"; "O"] (keys, g)
  = (<[(r, c, "O") := drawn_key g (S (cursor g))]>
       (<[(r, c, "X") := drawn_key g (cursor g)]> keys),
     {| draws := draws g; cursor := S (S (cursor g)) |}).
Proof. reflexivity. Qed.

Lemma fold_left_one {A B} (f : A -> B -> A) (x : B) (a : A) : fold_left f [x] a = f a x.
Proof. reflexivity. Qed.

Lemma py_range_to_nat (z : Z) : py_range z = py_range (Z.of_nat (Z.to_nat z)).
Proof. unfold py_range. rewrite Nat2Z.id. reflexivity. Qed.

Lemma py_range_S (j : nat) : py_range (Z.of_nat (S j)) = py_range (Z.of_nat j) ++ [Z.of_nat j].
Proof. rewrite Nat2Z.inj_succ. apply py_range_succ. lia. Qed.

Lemma token_cases (tok : string) :
  tok = "X" \/ tok = "O" \/ (tok <> "X" /\ tok <> "O").
Proof.
  destruct (String.eqb_spec tok "X"); [auto|].
  destruct (String.eqb_spec tok "O"); auto.
Qed.

(** The keys of one row: columns [0 .. j - 1], two draws each. *)
Lemma draw_row (r : Z) (j : nat) (keys0 : gmap (Z * Z * string) Z) (g0 : Rng) :
  exists keys g1,
    fold_left (fun acc c => fold_left (draw_key r c) ["X"; "O"] acc)
              (py_range (Z.of_nat j)) (keys0, g0) = (keys, g1)
    /\ draws g1 = draws g0
    /\ cursor g1 = (cursor g0 + 2 * j)%nat
    /\ (forall r' c' tok,
          r' = r -> 0 <= c' < Z.of_nat j -> tok = "X" \/ tok = "O" ->
          keys !! (r', c', tok)
          = Some (drawn_key g0 (cursor g0 + 2 * Z.to_nat c' + token_rank tok)))
    /\ (forall r' c' tok,
          ~ (r' = r /\ 0 <= c' < Z.of_nat j /\ (tok = "X" \/ tok = "O")) ->
          keys !! (r', c', tok) = keys0 !! (r', c', tok)).
Proof.
  induction j as [|j IH].
  - exists keys0, g0. split; [reflexivity|]. split; [reflexivity|]. split; [lia|].
    split; [intros; lia|reflexivity].
  - destruct IH as (keys & g1 & Hrun & Hd & Hc & Hin & Hout).
    rewrite py_range_S, fold_left_app, Hrun, fold_left_one, draw_tokens.
    eexists _, _. split; [reflexivity|]. cbn [draws cursor].
    split; [exact Hd|]. split; [lia|].
    assert (Hkey : forall i, drawn_key g1 i = drawn_key g0 i)
      by (intros i; unfold drawn_key; rewrite Hd; reflexivity).
    split.
    + intros r' c' tok -> Hc' Htok.
      destruct (decide (c' = Z.of_nat j)) as [->|Hne].
      * destruct Htok as [-> | ->].
        { rewrite lookup_insert_ne by congruence. rewrite lookup_insert_eq.
          rewrite Hkey, Hc. f_equal. f_equal. unfold token_rank. simpl. lia. }
        { rewrite lookup_insert_eq. rewrite Hkey, Hc. f_equal. f_equal.
          unfold token_rank. simpl. lia. }
      * rewrite !lookup_insert_ne by congruence. apply Hin; [reflexivity|lia|exact Htok].
    + intros r' c' tok Hnot.
      rewrite !lookup_insert_ne.
      * apply Hout. intros (-> & Hc' & Htok). apply Hnot. split; [reflexivity|]. split; [lia|auto].
      * intros [= <- <- <-]. apply Hnot. split; [reflexivity|]. split; [lia|auto].
      * intros [= <- <- <-]. apply Hnot. split; [reflexivity|]. split; [lia|auto].
Qed.

(** The keys of the rows [0 .. i - 1] of a board with [cols] columns. *)
Lemma draw_rows (cols i : nat) (g : Rng) :
  exists keys g1,
    fold_left (fun acc r =>
      fold_left (fun acc c => fold_left (draw_key r c) ["X"; "O"] acc)
                (py_range (Z.of_nat cols)) acc)
      (py_range (Z.of_nat i)) (∅, g) = (keys, g1)
    /\ draws g1 = draws g
    /\ cursor g1 = (cursor g + 2 * cols * i)%nat
    /\ (forall r c tok,
          0 <= r < Z.of_nat i -> 0 <= c < Z.of_nat cols -> tok = "X" \/ tok = "O" ->
          keys !! (r, c, tok)
          = Some (drawn_key g (cursor g + 2 * (Z.to_nat r * cols + Z.to_nat c)
                               + token_rank tok)))
    /\ (forall r c tok,
          ~ (0 <= r < Z.of_nat i /\ 0 <= c < Z.of_nat cols /\ (tok = "X" \/ tok = "O")) ->
          keys !! (r, c, tok) = None).
Proof.
  induction i as [|i IH].
  - exists ∅, g. split; [reflexivity|]. split; [reflexivity|]. split; [lia|].
    split; [intros; lia|]. intros. apply lookup_empty.
  - destruct IH as (keys & g1 & Hrun & Hd & Hc & Hin & Hout).
    rewrite py_range_S, fold_left_app, Hrun, fold_left_one.
    destruct (draw_row (Z.of_nat i) cols keys g1) as (keys' & g2 & -> & Hd' & Hc' & Hin' & Hout').
    exists keys', g2. split; [reflexivity|]. split; [congruence|]. split; [lia|].
    assert (Hkey : forall j, drawn_key g1 j = drawn_key g j)
      by (intros j; unfold drawn_key; rewrite Hd; reflexivity).
    split.
    + intros r c tok Hr Hcol Htok.
      destruct (decide (r = Z.of_nat i)) as [->|Hne].
      * rewrite (Hin' _ c tok eq_refl Hcol Htok), Hkey. f_equal. f_equal. lia.
      * rewrite Hout' by tauto. apply Hin; [lia|exact Hcol|exact Htok].
    + intros r c tok Hnot. rewrite Hout'.
      * apply Hout. intros (Hr & Hcol & Htok). apply Hnot. split; [lia|auto].
      * intros (-> & Hcol & Htok). apply Hnot. split; [lia|auto].
Qed.

(** X17: what [prepare] sets up. It never fails. It draws 64 bits for
    every cell of the [n] by [m] board, row by row, cell by cell, ["X"]
    before ["O"]: the key of [(r, c, token)] is the draw number
    [2 (r m + c)] (plus one for ["O"]) counted from where the random source
    stood, and no other key is in the table; [2 n m] draws are used. The
    transposition table is emptied and its three counters are zeroed. The
    side and the game type are stored; the turn count and the history are
    left as they were. *)
Theorem prepare_draws_keys (self : OurAgent) (gt : Game_Type) (side : string) (g : Rng) :
  exists self' g' keys,
    prepare self gt side g = Ok (self', g')
    /\ zobrist_keys self' = Some keys
    /\ (forall r c token, is_key (n gt) (m gt) (r, c, token) ->
          keys !! (r, c, token)
          = Some (drawn_key g (cursor g + 2 * (Z.to_nat r * Z.to_nat (m gt) + Z.to_nat c)
                               + token_rank token)))
    /\ (forall t, ~ is_key (n gt) (m gt) t -> keys !! t = None)
    /\ draws g' = draws g
    /\ cursor g' = (cursor g + 2 * Z.to_nat (m gt) * Z.to_nat (n gt))%nat
    /\ transposition_table self' = ∅
    /\ zobrist_write_count self' = 0
    /\ zobrist_read_attempt_count self' = 0
    /\ zobrist_hit_count self' = 0
    /\ playing self' = Some side
    /\ current_game_type self' = Some gt
    /\ turn_count self' = turn_count self
    /\ game_state_history self' = game_state_history self.
Proof.
  unfold prepare, init_zobrist. cbn [game_type_of set_game current_game_type bind].
  rewrite (py_range_to_nat (n gt)), (py_range_to_nat (m gt)).
  destruct (draw_rows (Z.to_nat (m gt)) (Z.to_nat (n gt)) g)
    as (keys & g1 & -> & Hd & Hc & Hin & Hout).
  eexists _, g1, keys. split; [reflexivity|]. cbn.
  split; [reflexivity|]. split.
  { intros r c token (Hr & Hcol & Htok). cbn [fst snd] in *. apply Hin; [lia|lia|exact Htok]. }
  split.
  { intros [[r c] token] Hnot. apply Hout. intros (Hr & Hcol & Htok). apply Hnot.
    unfold is_key. cbn [fst snd]. split; [lia|]. split; [lia|exact Htok]. }
  repeat split; assumption.
Qed.

(** * The hash along a game *)

Ltac xor_bits :=
  apply Z.bits_inj'; intros ?i _; rewrite ?Z.lxor_spec, ?Z.bits_0;
  repeat match goal with |- context [Z.testbit ?a ?i] => destruct (Z.testbit a i) end;
  reflexivity.

Lemma NoDup_py_range (n : Z) : NoDup (py_range n).
Proof.
  pose proof (sorted_py_range n) as Hs. induction Hs as [|x l Hl IH Hx]; [constructor|].
  constructor; [|exact IH]. intros Hin. rewrite Forall_forall in Hx.
  specialize (Hx x Hin). lia.
Qed.

Lemma xor_all_update (f f' : Z -> Z) (l : list Z) (x0 : Z) :
  NoDup l -> x0 ∈ l -> (forall x, x ∈ l -> x <> x0 -> f' x = f x) ->
  xor_all (map f' l) = Z.lxor (xor_all (map f l)) (Z.lxor (f x0) (f' x0)).
Proof.
  induction l as [|x l IH]; intros Hnd Hin Hsame; [inversion Hin|].
  apply NoDup_cons in Hnd as [Hx Hnd]. cbn [map xor_all foldr].
  fold (xor_all (map f' l)). fold (xor_all (map f l)).
  destruct (decide (x = x0)) as [->|Hne].
  - assert (Heq : map f' l = map f l).
    { apply map_ext_in. intros y Hy. apply list_elem_of_In in Hy. apply Hsame; [right; exact Hy|].
      intros ->. contradiction. }
    rewrite Heq. xor_bits.
  - rewrite IH; [|exact Hnd| |].
    + rewrite (Hsame x) by (left || exact Hne). xor_bits.
    + apply elem_of_cons in Hin as [Hin|Hin]; [congruence|exact Hin].
    + intros y Hy. apply Hsame. right. exact Hy.
Qed.

Lemma cell_key_place keys b r c tok r' c' :
  cell_at b r c = Some " " -> (r', c') <> (r, c) ->
  cell_key keys (place b (Z.to_nat r) (Z.to_nat c) tok) r' c' = cell_key keys b r' c'.
Proof.
  intros Hempty Hne. destruct (cell_at_Some _ _ _ _ Hempty) as ([Hr _] & Hc & _).
  unfold cell_key. rewrite cell_at_place by eauto.
  rewrite bool_decide_false; [reflexivity|]. intros [-> ->]. apply Hne. reflexivity.
Qed.

Lemma spec_hash_place keys b cols r c tok :
  rectangular b cols -> cell_at b r c = Some " " -> tok = "X" \/ tok = "O" ->
  spec_hash keys (place b (Z.to_nat r) (Z.to_nat c) tok) (Z.of_nat cols)
  = Z.lxor (spec_hash keys b (Z.of_nat cols)) (key_of keys (r, c, tok)).
Proof.
  intros Hrect Hempty Htok.
  assert (Hin : inside b cols r c) by (apply (cell_at_inside b cols Hrect); eauto).
  destruct Hin as [Hr Hc].
  rewrite !spec_hash_cells, place_length.
  rewrite (xor_all_update
             (fun r' => xor_all (map (fun c' => cell_key keys b r' c') (py_range (Z.of_nat cols))))
             (fun r' => xor_all (map (fun c' =>
                cell_key keys (place b (Z.to_nat r) (Z.to_nat c) tok) r' c')
                (py_range (Z.of_nat cols))))
             _ r (NoDup_py_range _)).
  - f_equal.
    rewrite (xor_all_update (fun c' => cell_key keys b r c')
               (fun c' => cell_key keys (place b (Z.to_nat r) (Z.to_nat c) tok) r c')
               _ c (NoDup_py_range _)).
    + assert (H0 : cell_key keys b r c = 0) by (unfold cell_key; rewrite Hempty; reflexivity).
      assert (H1 : cell_key keys (place b (Z.to_nat r) (Z.to_nat c) tok) r c
                   = key_of keys (r, c, tok)).
      { unfold cell_key. rewrite cell_at_place by (try lia; eauto).
        rewrite bool_decide_true by auto. rewrite (proj2 (str_in_XO tok) Htok). reflexivity. }
      cbv beta. rewrite H0, H1.
      match goal with |- context [xor_all ?l] => generalize (xor_all l) end.
      intros t. xor_bits.
    + apply py_range_elem. exact Hc.
    + intros c' _ Hne. apply cell_key_place; [exact Hempty|congruence].
  - apply py_range_elem. exact Hr.
  - intros r' _ Hne. f_equal. apply map_ext_in. intros c' _.
    apply cell_key_place; [exact Hempty|congruence].
Qed.

(** X18: the hash is updated by one exclusive or per move. After a legal
    move of ["X"] or ["O"] on a rectangular board, the hash of the new state
    is the hash of the old one combined with the key of the (cell, token)
    pair just placed (0 if the table holds no key for it). *)
Theorem zobrist_after_move (self : OurAgent) (keys : gmap (Z * Z * string) Z) (st : State)
    (cols : nat) (r c : Z) :
  zobrist_keys self = Some keys -> rectangular (board st) cols ->
  legal st (r, c) -> whose_move st = "X" \/ whose_move st = "O" ->
  exists st' h,
    apply_move st (r, c) = Ok st'
    /\ compute_zobrist self st = Ok h
    /\ compute_zobrist self st'
       = Ok (Z.lxor h (default 0 (keys !! (r, c, whose_move st)))).
Proof.
  intros Hkeys Hrect Hl Hw. exists (moved st (r, c)), (spec_hash keys (board st) (Z.of_nat cols)).
  split; [apply apply_move_moved; exact Hl|].
  split; [apply compute_zobrist_spec; assumption|].
  rewrite (compute_zobrist_spec self (moved st (r, c)) keys cols Hkeys)
    by (apply place_rectangular; exact Hrect).
  f_equal. unfold moved. cbn [board fst snd]. apply spec_hash_place; assumption.
Qed.

Lemma zobrist_after_move_witness :
  exists st' h,
    apply_move (mkState board_e2e "X") (0, 2) = Ok st'
    /\ compute_zobrist (agent_for ttt "X") (mkState board_e2e "X") = Ok h
    /\ compute_zobrist (agent_for ttt "X") st'
       = Ok (Z.lxor h (default 0 (default ∅ (zobrist_keys (agent_for ttt "X")) !! (0, 2, "X")))).
Proof.
  refine (zobrist_after_move (agent_for ttt "X") _ (mkState board_e2e "X") 3 0 2 _ _ _ _).
  - reflexivity.
  - repeat constructor.
  - reflexivity.
  - left. reflexivity.
Defined.

(** ** Hashing before setup *)

Lemma for_each_skip {A S} (l : list A) (F : A -> S -> res S) (s : S) :
  (forall x s, x ∈ l -> F x s = Ok s) -> for_each l s F = Ok s.
Proof.
  induction l as [|x l IH]; intros H; simpl; [reflexivity|].
  rewrite (H x s) by left. cbn [bind]. apply IH. intros y s' Hy. apply H. right. exact Hy.
Qed.

(** X19: hashing with an agent whose keys were never drawn. On a
    rectangular board, [compute_zobrist] raises [AttributeError] as soon as
    the board holds a piece of a player, and returns 0 on a board that holds
    none. *)
Theorem zobrist_before_setup (self : OurAgent) (st : State) (cols : nat) :
  zobrist_keys self = None -> rectangular (board st) cols ->
  (has_piece (board st) -> compute_zobrist self st = Raise AttributeError)
  /\ (~ has_piece (board st) -> compute_zobrist self st = Ok 0).
Proof.
  intros Hkeys Hrect. destruct st as [b w]. cbn [board] in *.
  assert (Hbody : forall r c h, inside b cols r c ->
    (token <- board_get b r c;;
     if str_in token ["X"; "O"] then
       match zobrist_keys self with
       | Some keys => Ok (Z.lxor h (default 0 (keys !! (r, c, token))))
       | None => Raise AttributeError
       end
     else Ok h)
    = if str_in (get b (r, c)) ["X"; "O"] then Raise AttributeError else Ok h).
  { intros r c h Hin. destruct (board_get_inside b cols Hrect r c Hin) as (x & Hx & ->).
    cbn [bind]. unfold get. cbn [fst snd]. rewrite Hx, Hkeys. reflexivity. }
  assert (Hlen : forall r, 0 <= r < Z.of_nat (length b) -> len0 b = Ok (Z.of_nat cols)).
  { intros r Hr. apply (len0_rect b cols Hrect). lia. }
  split.
  - intros Hp. apply has_piece_cell in Hp as (r & c & x & Hc & Hx).
    assert (Hin : inside b cols r c) by (apply (cell_at_inside b cols Hrect); eauto).
    destruct (res_ok_or_raise (compute_zobrist self (mkState b w))) as [Hok|[e He]].
    + exfalso. unfold compute_zobrist in Hok. cbn [board] in Hok.
      apply (for_each_ok_iff _ _ (fun r => forall c, 0 <= c < Z.of_nat cols ->
                                    str_in (get b (r, c)) ["X"; "O"] = false)) in Hok.
      * rewrite Forall_forall in Hok. specialize (Hok r).
        rewrite py_range_elem in Hok. specialize (Hok (proj1 Hin) c (proj2 Hin)).
        unfold get in Hok. cbn [fst snd] in Hok. rewrite Hc in Hok.
        cbn [default from_option id] in Hok.
        rewrite (proj2 (str_in_XO x) Hx) in Hok. discriminate.
      * intros r' h Hr'. apply py_range_elem in Hr'. rewrite (Hlen r' Hr'). cbn [bind].
        rewrite (for_each_ok_iff _ _ (fun c => str_in (get b (r', c)) ["X"; "O"] = false)).
        { rewrite Forall_forall. split.
          - intros Hall c' Hc'. apply Hall. apply py_range_elem. exact Hc'.
          - intros Hall c' Hc'. apply Hall. apply py_range_elem in Hc'. exact Hc'. }
        intros c' h' Hc'. apply py_range_elem in Hc'. rewrite Hbody by (split; lia).
        destruct (str_in _ _); split; try discriminate; try reflexivity.
        { intros [? Hfalse]. discriminate. }
        { intros _. eexists. reflexivity. }
    + rewrite He. f_equal. unfold compute_zobrist in He. cbn [board] in He. revert He.
      apply for_each_raise_kind. intros r' h e' Hr' Hraise. apply py_range_elem in Hr'.
      rewrite (Hlen r' Hr') in Hraise. cbn [bind] in Hraise. revert Hraise.
      apply for_each_raise_kind. intros c' h' e'' Hc' Hraise. apply py_range_elem in Hc'.
      rewrite Hbody in Hraise by (split; lia). destruct (str_in _ _); congruence.
  - intros Hno. unfold compute_zobrist. cbn [board]. apply for_each_skip.
    intros r h Hr. apply py_range_elem in Hr. rewrite (Hlen r Hr). cbn [bind].
    apply for_each_skip. intros c h' Hc. apply py_range_elem in Hc.
    rewrite Hbody by (split; lia).
    destruct (str_in (get b (r, c)) ["X"; "O"]) eqn:E; [|reflexivity].
    exfalso. apply Hno. apply has_piece_cell. apply str_in_XO in E.
    assert (Hin : inside b cols r c) by (split; lia).
    destruct (proj1 (cell_at_inside b cols Hrect r c) Hin) as [x Hx].
    exists r, c, x. split; [exact Hx|]. unfold get in E. cbn [fst snd] in E.
    rewrite Hx in E. cbn [default from_option id] in E. exact E.
Qed.

Lemma zobrist_before_setup_witness :
  compute_zobrist new_agent (mkState board_e2e "X") = Raise AttributeError.
Proof.
  refine (proj1 (zobrist_before_setup new_agent (mkState board_e2e "X") 3 _ _) _).
  - reflexivity.
  - repeat constructor.
  - left. left. left. reflexivity.
Defined.


(** * The game master *)

Lemma py_index_last {A} (l : list A) :
  py_index l (-1) = match last l with Some x => Ok x | None => Raise IndexError end.
Proof.
  unfold py_index, py_norm. rewrite last_lookup. cbn [Z.ltb Z.compare].
  destruct l as [|x l]; [reflexivity|].
  replace ((0 <=? -1 + Z.of_nat (length (x :: l)))
           && (-1 + Z.of_nat (length (x :: l)) <? Z.of_nat (length (x :: l)))) with true
    by (symmetry; apply andb_true_iff; split; [apply Z.leb_le|apply Z.ltb_lt]; simpl; lia).
  replace (Z.to_nat (-1 + Z.of_nat (length (x :: l)))) with (pred (length (x :: l)))
    by (simpl; lia).
  reflexivity.
Qed.

Lemma mover_next (i : nat) :
  (if mover i =s? "X" then "O" else "X") = mover (S i).
Proof.
  unfold mover. rewrite Nat.even_succ, <- Nat.negb_even.
  destruct (Nat.even i); reflexivity.
Qed.

Section Master.
Import Game_Master_Offline.
Context {A : Type} `{Agent : BaseGameAgent A}.

(** What the end of [play_move] can do to a master whose game is on. *)
Lemma check_and_switch_cases (gm : OfflineGameMaster A) (st' : State) (mv : Move)
    (remark : string) :
  game_over gm = false ->
  (exists e, check_and_switch gm st' mv remark = (Raise e, gm)
             /\ exists t, win_tester gm = Some t /\ t st' mv (k gm) = Raise e)
  \/ (exists w, (w = Some "X" \/ w = Some "O")
        /\ check_and_switch gm st' mv remark = (Ok (Played mv remark true w), end_game gm w)
        /\ exists t, win_tester gm = Some t /\ t st' mv (k gm) = Ok w)
  \/ (check_and_switch gm st' mv remark = (Ok (Played mv remark true None), end_game gm None)
        /\ exists t, win_tester gm = Some t /\ t st' mv (k gm) = Ok (Some "draw"))
  \/ (check_and_switch gm st' mv remark
        = (Ok (Played mv remark false (winner gm)), switch_player gm)
        /\ forall t, win_tester gm = Some t ->
             exists v, t st' mv (k gm) = Ok v
                       /\ v <> Some "X" /\ v <> Some "O" /\ v <> Some "draw").
Proof.
  intros Hon. unfold check_and_switch. destruct (win_tester gm) as [t|].
  - destruct (t st' mv (k gm)) as [v|e] eqn:Ht.
    + destruct (bool_decide_reflect (v = Some PLAYER_X \/ v = Some PLAYER_O)) as [Hv|Hv].
      * right. left. exists v. split; [exact Hv|]. split; [reflexivity|eauto].
      * destruct (bool_decide_reflect (v = Some "draw")) as [->|Hd].
        { right. right. left. split; [reflexivity|eauto]. }
        right. right. right. rewrite Hon. cbn [negb]. split.
        { unfold switch_player at 1 2. cbn [game_over winner]. rewrite Hon. reflexivity. }
        intros t' [= <-]. exists v. split; [exact Ht|]. unfold PLAYER_X, PLAYER_O in Hv. tauto.
    + left. exists e. split; [reflexivity|eauto].
  - right. right. right. rewrite Hon. cbn [negb]. split; [|intros t [=]].
    unfold switch_player at 1 2. cbn [game_over winner]. rewrite Hon. reflexivity.
Qed.

(** The shapes of a call of [play_move]. *)
Lemma play_move_cases (gm : OfflineGameMaster A) :
  (game_over gm = true /\ play_move gm = (Ok (AlreadyOver (winner gm)), gm))
  \/ (game_over gm = false /\ last (game_history gm) = None
      /\ play_move gm = (Raise IndexError, gm))
  \/ (exists st e agent remark,
        game_over gm = false /\ last (game_history gm) = Some st
        /\ make_move (get_current_agent gm) st remark = (Raise e, agent)
        /\ play_move gm = (Raise e, put_current_agent gm agent))
  \/ (exists st mv st' remark remark' agent,
        game_over gm = false /\ last (game_history gm) = Some st
        /\ make_move (get_current_agent gm) st remark = (Ok (mv, st', remark'), agent)
        /\ play_move gm
           = check_and_switch (record_move (put_current_agent gm agent) mv st' remark')
                              st' mv remark').
Proof.
  unfold play_move. destruct (game_over gm) eqn:Hover; [left; auto|]. right.
  rewrite py_index_last. destruct (last (game_history gm)) as [st|]; [|left; auto].
  right.
  match goal with |- context [make_move ?a ?s ?r] =>
    destruct (make_move a s r) as [[[[mv st'] remark']|e] agent] eqn:Hmade
  end.
  - right. exists st, mv, st'. eexists _, remark', agent. split; [reflexivity|].
    split; [reflexivity|]. split; [exact Hmade|reflexivity].
  - left. exists st, e, agent. eexists. split; [reflexivity|]. split; [reflexivity|].
    split; [exact Hmade|reflexivity].
Qed.

Lemma recorded_step (gm : OfflineGameMaster A) : recorded gm -> recorded (play_move gm).2.
Proof.
  intros (H0 & H1 & H2).
  assert (Hrec : forall agent mv st' remark,
            recorded (record_move (put_current_agent gm agent) mv st' remark)).
  { intros agent mv st' remark. unfold recorded. cbn.
    rewrite !length_app, H1, H2. cbn. split; [|lia].
    rewrite lookup_app_l by (rewrite H1; lia). exact H0. }
  destruct (play_move_cases gm)
    as [[_ ->]|[(_ & _ & ->)|[(st & e & agent & remark & _ & _ & _ & ->)
       |(st & mv & st' & remark & remark' & agent & Hon & _ & _ & ->)]]];
    cbn [snd]; try (split; [exact H0|split; assumption]).
  specialize (Hrec agent mv st' remark').
  destruct (check_and_switch_cases (record_move (put_current_agent gm agent) mv st' remark')
              st' mv remark' Hon)
    as [(e & -> & _)|[(w & _ & -> & _)|[[-> _]|[-> _]]]]; cbn [snd]; exact Hrec.
Qed.

Lemma play_loop_keeps (P : OfflineGameMaster A -> Prop) (todo : nat) :
  (forall gm, P gm -> P (play_move gm).2) ->
  forall gm count, P gm -> P (play_loop todo gm count).2.
Proof.
  intros Hstep. induction todo as [|todo IH]; intros gm count HP; cbn [play_loop].
  - exact HP.
  - destruct (game_over gm); [exact HP|].
    pose proof (Hstep gm HP) as HP'. destruct (play_move gm) as [[rep|e] gm'].
    + apply IH. exact HP'.
    + exact HP'.
Qed.

Lemma play_game_keeps (P : OfflineGameMaster A -> Prop) (max_moves : Z) :
  (forall gm, P gm -> P (play_move gm).2) ->
  forall gm, P gm -> P (play_game gm max_moves).2.
Proof.
  intros Hstep gm HP. unfold play_game.
  pose proof (play_loop_keeps P (Z.to_nat max_moves) Hstep gm 0 HP) as H.
  destruct (play_loop (Z.to_nat max_moves) gm 0) as [[count|e] gm']; exact H.
Qed.

(** X20: the three histories of a game master stay in step, whatever the
    agents and the tester do (also when one of them raises): the history of
    states starts with the initial state and holds one state more than there
    are moves, and there is one remark per move. This holds for a new master
    and is kept by [play_move] and by [play_game]. *)
Theorem histories_in_step (initial : State) (player_x player_o : A)
    (t : option WinTester) (run : Z) :
  recorded (init initial player_x player_o t run)
  /\ (forall gm : OfflineGameMaster A, recorded gm -> recorded (play_move gm).2)
  /\ (forall (gm : OfflineGameMaster A) max_moves,
        recorded gm -> recorded (play_game gm max_moves).2).
Proof.
  split; [|split].
  - unfold recorded. cbn. auto.
  - exact recorded_step.
  - intros gm max_moves. apply play_game_keeps. exact recorded_step.
Qed.

(** ** Counting the moves of a game *)

Lemma play_move_over (gm : OfflineGameMaster A) :
  game_over gm = true -> play_move gm = (Ok (AlreadyOver (winner gm)), gm).
Proof. intros Hover. unfold play_move. rewrite Hover. reflexivity. Qed.

Lemma play_move_appends (gm gm' : OfflineGameMaster A) (rep : MoveReport) :
  game_over gm = false -> play_move gm = (Ok rep, gm') ->
  exists mv, move_history gm' = move_history gm ++ [mv].
Proof.
  intros Hon Hrun.
  destruct (play_move_cases gm)
    as [[Hover _]|[(_ & _ & E)|[(st & e & agent & remark & _ & _ & _ & E)
       |(st & mv & st' & remark & remark' & agent & _ & _ & _ & E)]]];
    [congruence|congruence|congruence|].
  rewrite E in Hrun. exists mv.
  destruct (check_and_switch_cases (record_move (put_current_agent gm agent) mv st' remark')
              st' mv remark' Hon)
    as [(e & E' & _)|[(w & _ & E' & _)|[[E' _]|[E' _]]]]; rewrite E' in Hrun;
    [discriminate| | |]; injection Hrun as _ <-; reflexivity.
Qed.

Lemma play_loop_counts (todo : nat) :
  forall (gm gm' : OfflineGameMaster A) (count count' : Z),
    play_loop todo gm count = (Ok count', gm') ->
    exists new_moves,
      move_history gm' = move_history gm ++ new_moves
      /\ count' = count + Z.of_nat (length new_moves)
      /\ (length new_moves <= todo)%nat
      /\ (game_over gm' = false -> length new_moves = todo)
      /\ (game_over gm = true -> gm' = gm).
Proof.
  induction todo as [|todo IH]; intros gm gm' count count' Hrun; cbn [play_loop] in Hrun.
  - injection Hrun as <- <-. exists []. rewrite app_nil_r. cbn. repeat split; lia.
  - destruct (game_over gm) eqn:Hover.
    + injection Hrun as <- <-. exists []. rewrite app_nil_r. cbn.
      repeat split; try lia. congruence.
    + destruct (play_move gm) as [[rep|e] gm1] eqn:Hstep; [|discriminate].
      destruct (play_move_appends gm gm1 rep Hover Hstep) as [mv Hmv].
      destruct (IH gm1 gm' (count + 1) count' Hrun) as (new & Hnew & Hc & Hle & Hall & _).
      exists (mv :: new). rewrite Hnew, Hmv, <- app_assoc. cbn [length app].
      split; [reflexivity|]. split; [lia|]. split; [lia|]. split; [|discriminate].
      intros Hon. specialize (Hall Hon). lia.
Qed.

(** X21: what [play_game] reports when it returns. The count of moves is
    the number of moves it added to the move history, which it only
    extends; it is never more than [max_moves] (none for a negative
    [max_moves]), and if the game is still on at the end, exactly
    [max_moves] moves were played. On a game that is already over nothing is
    played and nothing changes. The winner and the history reported are
    those of the master. *)
Theorem play_game_counts (gm gm' : OfflineGameMaster A) (max_moves : Z) (result : GameResult) :
  play_game gm max_moves = (Ok result, gm') ->
  (exists new_moves,
      move_history gm' = move_history gm ++ new_moves
      /\ result_moves result = Z.of_nat (length new_moves))
  /\ 0 <= result_moves result <= Z.max 0 max_moves
  /\ (game_over gm' = false -> result_moves result = Z.max 0 max_moves)
  /\ (game_over gm = true -> result_moves result = 0 /\ gm' = gm)
  /\ result_winner result = winner gm'
  /\ result_history result = game_history gm'.
Proof.
  unfold play_game. intros Hrun.
  destruct (play_loop (Z.to_nat max_moves) gm 0) as [[count|e] gm1] eqn:Hloop; [|discriminate].
  injection Hrun as <- <-. cbn [result_moves result_winner result_history].
  destruct (play_loop_counts _ _ _ _ _ Hloop) as (new & Hnew & Hc & Hle & Hall & Hover).
  split; [exists new; split; [exact Hnew|lia]|]. split; [lia|]. split.
  { intros Hon. specialize (Hall Hon). lia. }
  split; [|split; reflexivity].
  intros H0. specialize (Hover H0). subst gm1. split; [|reflexivity].
  assert (new = []); [|subst; reflexivity].
  apply (f_equal (@length Move)) in Hnew. rewrite length_app in Hnew.
  destruct new; [reflexivity|cbn in Hnew; lia].
Qed.

(** ** Whose turn it is *)

Lemma play_loop_keeps_ok (P : OfflineGameMaster A -> Prop) (todo : nat) :
  (forall gm gm' rep, P gm -> play_move gm = (Ok rep, gm') -> P gm') ->
  forall gm gm' count count',
    P gm -> play_loop todo gm count = (Ok count', gm') -> P gm'.
Proof.
  intros Hstep. induction todo as [|todo IH]; intros gm gm' count count' HP Hrun;
    cbn [play_loop] in Hrun.
  - injection Hrun as _ <-. exact HP.
  - destruct (game_over gm); [injection Hrun as _ <-; exact HP|].
    destruct (play_move gm) as [[rep|e] gm1] eqn:Hmove; [|discriminate].
    eapply IH; [|exact Hrun]. eapply Hstep; [exact HP|exact Hmove].
Qed.

Lemma play_game_keeps_ok (P : OfflineGameMaster A -> Prop) (max_moves : Z) :
  (forall gm gm' rep, P gm -> play_move gm = (Ok rep, gm') -> P gm') ->
  forall gm gm' result, P gm -> play_game gm max_moves = (Ok result, gm') -> P gm'.
Proof.
  intros Hstep gm gm' result HP Hrun. unfold play_game in Hrun.
  destruct (play_loop (Z.to_nat max_moves) gm 0) as [[count|e] gm1] eqn:Hloop; [|discriminate].
  injection Hrun as _ <-. eapply play_loop_keeps_ok; eauto.
Qed.

Lemma turn_ok_step (gm gm' : OfflineGameMaster A) (rep : MoveReport) :
  turn_ok gm -> play_move gm = (Ok rep, gm') -> turn_ok gm'.
Proof.
  intros Hturn Hrun.
  destruct (play_move_cases gm)
    as [[Hover E]|[(_ & _ & E)|[(st & e & agent & remark & _ & _ & _ & E)
       |(st & mv & st' & remark & remark' & agent & Hon & _ & _ & E)]]];
    rewrite E in Hrun; [injection Hrun as _ <-; exact Hturn|discriminate|discriminate|].
  unfold turn_ok in Hturn. rewrite Hon in Hturn.
  set (g := record_move (put_current_agent gm agent) mv st' remark') in *.
  assert (Hg : game_over g = false) by exact Hon.
  destruct (check_and_switch_cases g st' mv remark' Hg)
    as [(e & E' & _)|[(w & _ & E' & _)|[[E' _]|[E' _]]]]; rewrite E' in Hrun;
    [discriminate| | |]; injection Hrun as _ <-; unfold turn_ok; cbn.
  - intros _. rewrite length_app. cbn.
    replace (length (move_history gm) + 1 - 1)%nat with (length (move_history gm)) by lia.
    exact Hturn.
  - intros _. rewrite length_app. cbn.
    replace (length (move_history gm) + 1 - 1)%nat with (length (move_history gm)) by lia.
    exact Hturn.
  - rewrite Hon, length_app. cbn. rewrite Nat.add_1_r, Hturn. apply mover_next.
Qed.

(** X22: the players move in turn, ["X"] first. In a new master, and after
    every call of [play_move] or [play_game] that returns: while the game is
    on, the player asked next is ["X"] when the number of moves recorded is
    even and ["O"] when it is odd; once the game is over, the current player
    is still the one who made the last move. *)
Theorem turns_alternate (start : State) (player_x player_o : A)
    (t : option WinTester) (run : Z) :
  turn_ok (init start player_x player_o t run)
  /\ (forall (gm gm' : OfflineGameMaster A) rep,
        turn_ok gm -> play_move gm = (Ok rep, gm') -> turn_ok gm')
  /\ (forall (gm gm' : OfflineGameMaster A) max_moves result,
        turn_ok gm -> play_game gm max_moves = (Ok result, gm') -> turn_ok gm').
Proof.
  split; [reflexivity|]. split.
  - intros gm gm' rep. apply turn_ok_step.
  - intros gm gm' max_moves result. apply play_game_keeps_ok. intros g g' rep.
    apply turn_ok_step.
Qed.

(** ** The end of a game *)

Lemma winner_ok_step (gm : OfflineGameMaster A) : winner_ok gm -> winner_ok (play_move gm).2.
Proof.
  intros Hw.
  destruct (play_move_cases gm)
    as [[_ ->]|[(_ & _ & ->)|[(st & e & agent & remark & _ & _ & _ & ->)
       |(st & mv & st' & remark & remark' & agent & Hon & _ & _ & ->)]]];
    cbn [snd]; try exact Hw.
  set (g := record_move (put_current_agent gm agent) mv st' remark') in *.
  assert (Hg : winner_ok g) by exact Hw.
  destruct (check_and_switch_cases g st' mv remark' Hon)
    as [(e & -> & _)|[(w & Hwin & -> & _)|[[-> _]|[-> _]]]]; cbn [snd].
  - exact Hg.
  - split; [discriminate|]. cbn. tauto.
  - split; [discriminate|]. cbn. tauto.
  - exact Hg.
Qed.

(** X23: how a game ends. A winner is named only once the game is over,
    and it is ["X"] or ["O"]; this holds for a new master and is kept by
    [play_move] and [play_game], whatever the agents and the tester do. A
    game that is over stays over: [play_move] then only reports the winner
    and [play_game] plays no move, and neither changes the master. *)
Theorem game_over_is_final (start : State) (player_x player_o : A)
    (t : option WinTester) (run : Z) :
  winner_ok (init start player_x player_o t run)
  /\ (forall gm : OfflineGameMaster A, winner_ok gm -> winner_ok (play_move gm).2)
  /\ (forall (gm : OfflineGameMaster A) max_moves,
        winner_ok gm -> winner_ok (play_game gm max_moves).2)
  /\ (forall (gm : OfflineGameMaster A) max_moves,
        game_over gm = true ->
        play_move gm = (Ok (AlreadyOver (winner gm)), gm)
        /\ play_game gm max_moves
           = (Ok {| result_winner := winner gm; result_moves := 0;
                    result_history := game_history gm |}, gm)).
Proof.
  split; [|split; [|split]].
  - split; [reflexivity|]. cbn. tauto.
  - exact winner_ok_step.
  - intros gm max_moves. apply play_game_keeps. exact winner_ok_step.
  - intros gm max_moves Hover. split; [apply play_move_over; exact Hover|].
    unfold play_game. destruct (Z.to_nat max_moves); cbn [play_loop]; [reflexivity|].
    rewrite Hover. reflexivity.
Qed.

(** ** A master without a tester *)

Lemma no_tester_step (gm gm' : OfflineGameMaster A) (rep : MoveReport) :
  win_tester gm = None /\ game_over gm = false ->
  play_move gm = (Ok rep, gm') ->
  win_tester gm' = None /\ game_over gm' = false.
Proof.
  intros [Ht Hon] Hrun.
  destruct (play_move_cases gm)
    as [[Hover _]|[(_ & _ & E)|[(st & e & agent & remark & _ & _ & _ & E)
       |(st & mv & st' & remark & remark' & agent & _ & _ & _ & E)]]];
    [congruence|congruence|congruence|].
  rewrite E in Hrun. set (g := record_move (put_current_agent gm agent) mv st' remark') in *.
  assert (Hg : win_tester g = None) by exact Ht.
  destruct (check_and_switch_cases g st' mv remark' Hon)
    as [(e & _ & t & Et & _)|[(w & _ & _ & t & Et & _)|[(_ & t & Et & _)|[E' _]]]];
    [congruence|congruence|congruence|].
  rewrite E' in Hrun. injection Hrun as _ <-. cbn. auto.
Qed.

(** X24: a master built without a win tester (the default) never ends a
    game. Every move that is played leaves the game on, and a call of
    [play_game] that returns has played [max_moves] moves (none if
    [max_moves] is negative) and names no winner. *)
Theorem without_tester_no_end (gm : OfflineGameMaster A) :
  win_tester gm = None -> game_over gm = false -> winner gm = None ->
  (forall rep gm', play_move gm = (Ok rep, gm') -> game_over gm' = false)
  /\ (forall max_moves result gm',
        play_game gm max_moves = (Ok result, gm') ->
        game_over gm' = false
        /\ result_moves result = Z.max 0 max_moves
        /\ result_winner result = None).
Proof.
  intros Ht Hon Hw. split.
  - intros rep gm' Hrun. eapply no_tester_step; [|exact Hrun]. auto.
  - intros max_moves result gm' Hrun.
    assert (Hend : (win_tester gm' = None /\ game_over gm' = false) /\ winner_ok gm').
    { split.
      - eapply (play_game_keeps_ok (fun g => win_tester g = None /\ game_over g = false));
          [|split; eassumption|exact Hrun]. intros g g' rep. apply no_tester_step.
      - change gm' with (Ok result, gm').2. rewrite <- Hrun. apply play_game_keeps.
        + exact winner_ok_step.
        + split; [intros _; exact Hw|left; exact Hw]. }
    destruct Hend as [[_ Hon'] [Hnone _]]. split; [exact Hon'|].
    unfold play_game in Hrun.
    destruct (play_loop (Z.to_nat max_moves) gm 0) as [[count|e] gm1] eqn:Hloop; [|discriminate].
    injection Hrun as <- <-. cbn [result_moves result_winner].
    destruct (play_loop_counts _ _ _ _ _ Hloop) as (new & _ & Hc & _ & Hall & _).
    specialize (Hall Hon'). split; [lia|]. apply Hnone. exact Hon'.
Qed.

(** ** A game run with the win tester *)

(** The last move when the tester is asked: the full scan agrees. *)
Lemma tester_after_move (run : Z) (st st' : State) (last_move : option Move) (mv : Move) :
  played run st last_move -> still_on run st last_move ->
  legal st mv -> apply_move st mv = Ok st' ->
  exists v, tester st' mv run = Ok v
    /\ check_win_condition st' None run = Ok v
    /\ (v = None \/ v = Some "draw" \/ v = Some "X" \/ v = Some "O").
Proof.
  intros Hplayed Hon Hl Happ.
  destruct (played_invariant _ _ _ Hplayed) as (cols & Hrect & Hw & Hquiet).
  specialize (Hquiet Hon). destruct mv as [r c].
  rewrite (apply_move_legal _ _ _ Hl) in Happ. injection Happ as <-.
  unfold tester. change (@Some Move (r, c)) with (@Some (Z * Z) (r, c)).
  rewrite <- (tests_agree_after (board st) cols Hrect r c (whose_move st) run Hl Hw _ Hquiet).
  assert (Hhere : cell_at (place (board st) (Z.to_nat r) (Z.to_nat c) (whose_move st)) r c
                  = Some (whose_move st)).
  { destruct (cell_at_Some _ _ _ _ Hl) as ([Hr _] & Hc & _).
    rewrite cell_at_place by eauto. rewrite bool_decide_true by auto. reflexivity. }
  destruct (check_win_condition_last_move _ cols (place_rectangular _ cols _ _ _ Hrect)
              (other_side (whose_move st)) run r c (whose_move st) Hhere Hw)
    as [[-> _]|[-> _]]; eexists; (split; [reflexivity|]); (split; [reflexivity|]).
  - destruct (_is_board_full _); auto.
  - destruct Hw as [-> | ->]; auto.
Qed.

Lemma in_play_step (gm gm' : OfflineGameMaster A) (rep : MoveReport) :
  plays_fair -> win_tester gm = Some tester -> in_play gm ->
  play_move gm = (Ok rep, gm') ->
  in_play gm' /\ win_tester gm' = Some tester /\ k gm' = k gm
  /\ (game_over gm = false ->
      exists st' mv v,
        last (game_history gm') = Some st' /\ last (move_history gm') = Some mv
        /\ check_win_condition st' (Some mv) (k gm) = Ok v
        /\ check_win_condition st' None (k gm) = Ok v
        /\ (game_over gm' = false <-> v = None)
        /\ (v = Some "X" \/ v = Some "O" -> winner gm' = v)
        /\ (v = Some "draw" -> winner gm' = None)).
Proof.
  intros Hfair Ht Hin Hrun.
  destruct (play_move_cases gm)
    as [[Hover E]|[(_ & _ & E)|[(st & e & agent & remark & _ & _ & _ & E)
       |(st & mv & st' & remark & remark' & agent & Hon & Hlast & Hmade & E)]]];
    rewrite E in Hrun; [|discriminate|discriminate|].
  { injection Hrun as _ <-. split; [exact Hin|]. split; [exact Ht|]. split; [reflexivity|].
    congruence. }
  destruct Hin as (st0 & Hlast0 & Hplayed & Hstill). rewrite Hlast in Hlast0.
  injection Hlast0 as <-. specialize (Hstill Hon).
  destruct (Hfair _ _ _ _ _ _ _ Hmade) as [Hl Happ].
  pose proof (played_move _ _ _ _ _ Hplayed Hstill Hl Happ) as Hplayed'.
  destruct (tester_after_move _ _ _ _ _ Hplayed Hstill Hl Happ) as (v & Hv & Hfull & Hkind).
  set (g := record_move (put_current_agent gm agent) mv st' remark') in *.
  assert (Hg : win_tester g = Some tester) by exact Ht.
  assert (Hlg : last (game_history g) = Some st') by (cbn; apply last_snoc).
  assert (Hlm : last (move_history g) = Some mv) by (cbn; apply last_snoc).
  assert (Hkg : k g = k gm) by reflexivity.
  destruct (check_and_switch_cases g st' mv remark' Hon)
    as [(e & _ & t & Et & Hte)|[(w & Hw & E' & t & Et & Hte)|[(E' & t & Et & Hte)|[E' Hte]]]].
  - rewrite Hg in Et. injection Et as <-. rewrite Hkg in Hte. congruence.
  - rewrite Hg in Et. injection Et as <-. rewrite Hkg in Hte.
    assert (w = v) by congruence. subst w.
    rewrite E' in Hrun. injection Hrun as _ <-. unfold in_play.
    cbn [game_history move_history game_over winner k win_tester end_game switch_player].
    split; [exists st'; split; [exact Hlg|]; split; [rewrite Hlm; exact Hplayed'|discriminate]|].
    split; [exact Hg|]. split; [reflexivity|]. intros _. exists st', mv, v.
    split; [exact Hlg|]. split; [exact Hlm|]. split; [exact Hv|]. split; [exact Hfull|].
    split; [|split; [reflexivity|]].
    + split; [discriminate|]. intros ->. destruct Hw; discriminate.
    + intros ->. destruct Hw; discriminate.
  - rewrite Hg in Et. injection Et as <-. rewrite Hkg in Hte.
    assert (v = Some "draw") by congruence. subst v.
    rewrite E' in Hrun. injection Hrun as _ <-. unfold in_play.
    cbn [game_history move_history game_over winner k win_tester end_game switch_player].
    split; [exists st'; split; [exact Hlg|]; split; [rewrite Hlm; exact Hplayed'|discriminate]|].
    split; [exact Hg|]. split; [reflexivity|]. intros _. exists st', mv, (Some "draw").
    split; [exact Hlg|]. split; [exact Hlm|]. split; [exact Hv|]. split; [exact Hfull|].
    split; [split; discriminate|]. split; [intros [?|?]; discriminate|reflexivity].
  - destruct (Hte tester Hg) as (v' & Hv' & HX & HO & Hd). rewrite Hkg in Hv'.
    assert (v' = v) by congruence. subst v'.
    assert (v = None) by (destruct Hkind as [?|[?|[?|?]]]; congruence). subst v.
    rewrite E' in Hrun. injection Hrun as _ <-. unfold in_play.
    cbn [game_history move_history game_over winner k win_tester end_game switch_player].
    split.
    { exists st'. split; [exact Hlg|]. split; [rewrite Hlm; exact Hplayed'|].
      intros _. rewrite Hlm. exact Hv. }
    split; [exact Hg|]. split; [reflexivity|]. intros _. exists st', mv, None.
    split; [exact Hlg|]. split; [exact Hlm|]. split; [exact Hv|]. split; [exact Hfull|].
    split; [split; [reflexivity|intros _; exact Hon]|].
    split; [intros [?|?]; discriminate|discriminate].
Qed.

(** X25: a game run by the master with the win tester of this repository
    and agents that play by the rules. From an initial state (a rectangular
    board without pieces, ["X"] or ["O"] to move), every state the master
    records was reached by play ending with the move recorded last. After
    each move the tester does not fail, and the verdict the master acts on
    is also the verdict of the full scan of the new state: the game goes on
    exactly when it is [None], the winner is set to ["X"] or ["O"] when it
    names one, and to nobody on a draw. *)
Theorem master_runs_the_game :
  plays_fair ->
  (forall (start : State) (player_x player_o : A) (run : Z),
      initial start -> in_play (init start player_x player_o (Some tester) run))
  /\ (forall (gm gm' : OfflineGameMaster A) (rep : MoveReport),
        win_tester gm = Some tester -> in_play gm -> play_move gm = (Ok rep, gm') ->
        in_play gm' /\ win_tester gm' = Some tester /\ k gm' = k gm
        /\ (game_over gm = false ->
            exists st' mv v,
              last (game_history gm') = Some st' /\ last (move_history gm') = Some mv
              /\ check_win_condition st' (Some mv) (k gm) = Ok v
              /\ check_win_condition st' None (k gm) = Ok v
              /\ (game_over gm' = false <-> v = None)
              /\ (v = Some "X" \/ v = Some "O" -> winner gm' = v)
              /\ (v = Some "draw" -> winner gm' = None))).
Proof.
  intros Hfair. split.
  - intros start px po run Hinit. exists start. split; [reflexivity|].
    split; [apply played_start; exact Hinit|]. intros _. exact I.
  - intros gm gm' rep. apply in_play_step. exact Hfair.
Qed.
End Master.

Lemma for_each_inv_in {B S} (Inv : S -> Prop) (l : list B) (body : B -> S -> res S) (s0 s : S) :
  (forall x s s', x ∈ l -> body x s = Ok s' -> Inv s -> Inv s') ->
  Inv s0 -> for_each l s0 body = Ok s -> Inv s.
Proof.
  intros Hbody. revert s0. induction l as [|x l IH]; intros s0 H0 Hrun; simpl in Hrun.
  - injection Hrun as <-. exact H0.
  - apply bind_ok in Hrun as (s1 & H1 & Hrest). eapply IH; [| |exact Hrest].
    + intros y t t' Hy. apply Hbody. right. exact Hy.
    + eapply Hbody; [left|exact H1|exact H0].
Qed.

Lemma available_moves_all_legal st moves :
  get_available_moves st = Ok moves -> Forall (legal st) moves.
Proof.
  unfold get_available_moves. apply (for_each_inv_in (Forall (legal st))); [|constructor].
  intros r acc acc' Hr Hstep Hacc. apply py_range_elem in Hr.
  apply bind_ok in Hstep as (cols & _ & Hstep). revert Hstep.
  apply (for_each_inv_in (Forall (legal st))); [|exact Hacc].
  intros c acc1 acc2 Hc Hcell Hacc1. apply py_range_elem in Hc.
  apply bind_ok in Hcell as (cell & Hget & Hcell).
  injection Hcell as <-. destruct (String.eqb_spec cell " ") as [->|]; [|exact Hacc1].
  apply Forall_app. split; [exact Hacc1|]. repeat constructor.
  unfold legal. cbn [fst snd]. rewrite board_get_cell_at in Hget by lia.
  destruct (cell_at (board st) r c); congruence.
Qed.

Lemma first_move_fair : @plays_fair unit first_move_agent.
Proof.
  intros a a' st remark mv st' remark' H. cbn in H. unfold first_move in H.
  injection H as H _. apply bind_ok in H as (moves & Hmoves & H).
  destruct moves as [|mv0 rest]; [discriminate|].
  apply bind_ok in H as (st1 & Happ & H). injection H as <- <- _.
  split; [|exact Happ].
  apply available_moves_all_legal in Hmoves. inversion Hmoves; assumption.
Qed.

Lemma initial_empty3 : initial empty3.
Proof.
  split; [exists 3%nat; repeat constructor|]. split; [|left; reflexivity].
  repeat constructor; discriminate.
Qed.

Lemma master_runs_the_game_witness :
  in_play (Game_Master_Offline.init empty3 tt tt (Some tester) 3).
Proof.
  refine (proj1 (master_runs_the_game first_move_fair) empty3 tt tt 3 _).
  exact initial_empty3.
Defined.

Lemma play_game_counts_witness :
  exists new_moves,
    Game_Master_Offline.move_history
      (Game_Master_Offline.play_game
         (Game_Master_Offline.init empty3 tt tt (Some tester) 3) 9).2
    = [] ++ new_moves
    /\ 7 = Z.of_nat (length new_moves).
Proof.
  refine (proj1 (play_game_counts
            (Game_Master_Offline.init empty3 tt tt (Some tester) 3) _ 9
            (Game_Master_Offline.mkResult (Some "X") 7 _) _)).
  vm_compute. reflexivity.
Defined.

Lemma without_tester_no_end_witness :
  Game_Master_Offline.game_over
    (Game_Master_Offline.play_game (Game_Master_Offline.init empty3 tt tt None 3) 4).2 = false.
Proof.
  refine (proj1 (proj2 (without_tester_no_end (Game_Master_Offline.init empty3 tt tt None 3)
                          eq_refl eq_refl eq_refl) 4 _ _ _)).
  vm_compute. reflexivity.
Defined.
